(** * nico_ripser: population phase and heading alignment

    A shallow embedding of [src/main.py]: the phase extraction [to_phase]
    and the offset removal performed by [plot_phase_and_heading].

    Numbers.  numpy computes on IEEE doubles; here a double is idealised as
    a real number and a complex double as a pair of reals.  The two places
    where numpy leaves the finite numbers without raising (the mean of an
    empty array and the division by a zero offset, both answered with a
    RuntimeWarning and nan or inf cells) are kept apart by the [Lost]
    constructor of [array1]: an array of known length whose cells are no
    longer tracked.  A real number has one zero: the sign of a zero double
    is not modelled, and the angle of a zero cell is 0, which is numpy's
    answer for the zero whose two parts are positive zeros. *)

From Stdlib Require Import String.
From Stdlib Require Import Reals Lra Lia List Arith ZArith Bool Permutation.
Import ListNotations.

Local Open Scope R_scope.

(** ** Complex numbers, as numpy's complex128 over idealised doubles *)

Definition C : Type := (R * R)%type.

Definition Re (z : C) : R := fst z.
Definition Im (z : C) : R := snd z.

Definition Czero : C := (0, 0).

(** Promotion of a real to a complex, as numpy does in mixed arithmetic. *)
Definition RtoC (x : R) : C := (x, 0).

Definition Cadd (z w : C) : C := (Re z + Re w, Im z + Im w).

Definition Cmul (z w : C) : C :=
  (Re z * Re w - Im z * Im w, Re z * Im w + Im z * Re w).

(** Complex division, [(a+bi)/(c+di)]. *)
Definition Cdiv (z w : C) : C :=
  ((Re z * Re w + Im z * Im w) / (Re w * Re w + Im w * Im w),
   (Im z * Re w - Re z * Im w) / (Re w * Re w + Im w * Im w)).

Definition Cscale (a : R) (z : C) : C := (a * Re z, a * Im z).

(** Sum of a list of complex numbers, from the left as a loop would. *)
Definition Csum (l : list C) : C := fold_left Cadd l Czero.

(** [np.exp(1j * t)] for a real [t]: the unit complex number of angle [t]. *)
Definition cis (t : R) : C := (cos t, sin t).

(** ** Exceptions raised by the library calls *)

Inductive exn : Type :=
  | ValueError.

Definition result (A : Type) : Type := (exn + A)%type.
Definition ok {A : Type} (a : A) : result A := inr a.
Definition raise {A : Type} (e : exn) : result A := inl e.

(** ** Cell-wise operations *)

(** A binary operation applied cell by cell. *)
Fixpoint zip_with {A B D : Type} (f : A -> B -> D) (l : list A) (m : list B)
  : list D :=
  match l, m with
  | x :: l', y :: m' => f x y :: zip_with f l' m'
  | _, _ => []
  end.

(** ** numpy primitives used by [to_phase] *)

(** [np.linspace(start, stop, num)] with the default [endpoint=True]:
    [arange(0, num) * step + start] with [step = (stop - start) / (num - 1)],
    and the last cell overwritten by [stop] when [num > 1].  With
    [num = 1] the divisor is zero and numpy returns [[start]]. *)
Definition np_linspace (start stop : R) (num : nat) : list R :=
  let div := (num - 1)%nat in
  let delta := stop - start in
  let y :=
    if (0 <? div)%nat
    then map (fun k => INR k * (delta / INR div) + start) (seq 0 num)
    else map (fun k => INR k * delta + start) (seq 0 num) in
  if (1 <? num)%nat then removelast y ++ [stop] else y.

(** [np.exp(1j * a)] on a real array. *)
Definition np_exp_1j (a : list R) : list C := map cis a.

(** The slices [l[::2]] and [l[1::2]]. *)
Fixpoint slice_from0_step2 {A : Type} (l : list A) : list A :=
  match l with
  | [] => []
  | x :: [] => [x]
  | x :: _ :: rest => x :: slice_from0_step2 rest
  end.

Definition slice_from1_step2 {A : Type} (l : list A) : list A :=
  slice_from0_step2 (tl l).

(** A two-dimensional real array of shape [(shape0, shape1)], row major. *)
Record array2 : Type := mkArray2 {
  shape0 : nat;
  shape1 : nat;
  rows : list (list R)
}.

(** The shape describes the rows: numpy arrays are rectangular. *)
Definition wf_array2 (a : array2) : Prop :=
  length (rows a) = shape0 a /\
  Forall (fun row => length row = shape1 a) (rows a).

Definition item (a : array2) (r t : nat) : R := nth t (nth r (rows a) []) 0.

(** [v @ a] for a one-dimensional complex [v] and a two-dimensional real
    [a]: the lengths must agree, and cell [t] of the result is the sum over
    the rows [r] of [v[r] * a[r, t]]. *)
Definition matmul_vec (v : list C) (a : array2) : result (list C) :=
  if (length v =? shape0 a)%nat
  then ok (map (fun t =>
             Csum (map (fun vr => Cmul (fst vr) (RtoC (nth t (snd vr) 0)))
                       (combine v (rows a))))
           (seq 0 (shape1 a)))
  else raise ValueError.

(** ** [to_phase] *)

(** Lines 26 to 32.  The cells are given as complex numbers; the dtype of
    the array is not part of the model.  With at least one region numpy's
    result is complex128; without any region [np.array([])] is float64 and
    so is the product, whose cells are the same zeros. *)
Definition to_phase (arr : array2) : result (list C) :=
  let circ := np_exp_1j (np_linspace (- PI) PI (shape0 arr)) in
  let circ := slice_from0_step2 circ ++ slice_from1_step2 circ in
  matmul_vec circ arr.

(** ** One-dimensional arrays whose cells may have left the finite numbers *)

Inductive array1 (A : Type) : Type :=
  | Known (cells : list A)
  | Lost (n : nat).

Arguments Known {A} cells.
Arguments Lost {A} n.

Definition size {A : Type} (a : array1 A) : nat :=
  match a with
  | Known cells => length cells
  | Lost n => n
  end.

(** A cell-wise or length-preserving operation, carried over [Lost]. *)
Definition alift {A B : Type} (f : list A -> list B) (a : array1 A) : array1 B :=
  match a with
  | Known cells => Known (f cells)
  | Lost n => Lost n
  end.

(** ** numpy primitives used by [plot_phase_and_heading] *)

(** [np.arctan2(y, x)], with values in (-PI, PI]. *)
Definition arctan2 (y x : R) : R :=
  if Rlt_dec 0 x then atan (y / x)
  else if Rlt_dec x 0 then
    if Rle_dec 0 y then atan (y / x) + PI else atan (y / x) - PI
  else if Rlt_dec 0 y then PI / 2
  else if Rlt_dec y 0 then - (PI / 2)
  else 0.

(** [np.angle(z)] for one complex cell. *)
Definition angle (z : C) : R := arctan2 (Im z) (Re z).

Definition np_angle (zs : list C) : list R := map angle zs.

(** [np.diff(p)]: successive differences. *)
Fixpoint np_diff (p : list R) : list R :=
  match p with
  | [] => []
  | a :: rest =>
      match rest with
      | [] => []
      | b :: _ => (b - a) :: np_diff rest
      end
  end.

(** [np.cumsum], with the running total [acc] of the cells before. *)
Fixpoint cumsum_from (acc : R) (l : list R) : list R :=
  match l with
  | [] => []
  | x :: rest => (acc + x) :: cumsum_from (acc + x) rest
  end.

Definition np_cumsum (l : list R) : list R := cumsum_from 0 l.

(** [np.mod(x, y)] on doubles: the remainder of the floored division. *)
Definition np_mod (x y : R) : R := x - IZR (Int_part (x / y)) * y.

(** The correction [np.unwrap] adds for one difference [dd], with the
    defaults [period = 2*PI] and [discont = PI]. *)
Definition ph_correct (dd : R) : R :=
  let interval_high := 2 * PI / 2 in
  let interval_low := - interval_high in
  let ddmod := np_mod (dd - interval_low) (2 * PI) + interval_low in
  let ddmod :=
    if Req_dec_T ddmod interval_low
    then (if Rlt_dec 0 dd then interval_high else ddmod)
    else ddmod in
  if Rlt_dec (Rabs dd) (2 * PI / 2) then 0 else ddmod - dd.

(** Cell-wise sum of two arrays of equal length. *)
Definition add_cells (a b : list R) : list R := zip_with Rplus a b.

(** [np.unwrap(p)]: the first cell is kept, every later cell receives the
    accumulated corrections of the differences before it. *)
Definition np_unwrap (p : list R) : list R :=
  match p with
  | [] => []
  | p0 :: rest => p0 :: add_cells rest (np_cumsum (map ph_correct (np_diff p)))
  end.

(** Where a key falls among the sample points of [np.interp]. *)
Inductive bracket : Type :=
  | Below
  | Above
  | At (j : nat).

(** numpy's [linear_search]: from index [i], the first index whose sample
    point exceeds [key] (or the length); the caller subtracts one. *)
Fixpoint linear_search (key : R) (rest : list R) (i : nat) : nat :=
  match rest with
  | [] => i
  | a :: rest' =>
      if Rle_dec a key then linear_search key rest' (S i) else i
  end.

(** numpy's [binary_search_with_guess], on non-decreasing sample points:
    keys outside the range first, then the index [j] with
    [xp[j] <= key < xp[j+1]].  (numpy bisects long arrays; on
    non-decreasing [xp] it finds the same index.) *)
Definition search (key : R) (xp : list R) : bracket :=
  if Rlt_dec (last xp 0) key then Above
  else if Rlt_dec key (hd 0 xp) then Below
  else At (linear_search key (tl xp) 1 - 1).

(** One value of [np.interp], for at least one sample point. *)
Definition interp_at (xp fp : list R) (x : R) : R :=
  let lval := hd 0 fp in
  let rval := last fp 0 in
  if (length xp =? 1)%nat then
    if Rlt_dec x (hd 0 xp) then lval
    else if Rlt_dec (hd 0 xp) x then rval
    else hd 0 fp
  else
    match search x xp with
    | Below => lval
    | Above => rval
    | At j =>
        if (j =? length xp - 1)%nat then nth j fp 0
        else if Req_dec_T (nth j xp 0) x then nth j fp 0
        else
          let slope :=
            (nth (S j) fp 0 - nth j fp 0) / (nth (S j) xp 0 - nth j xp 0) in
          slope * (x - nth j xp 0) + nth j fp 0
    end.

(** [np.interp(x, xp, fp)]: an empty [xp], or an [fp] of another length,
    is a ValueError. *)
Definition np_interp (x xp : list R) (fp : array1 R) : result (array1 R) :=
  if (length xp =? 0)%nat then raise ValueError
  else if negb (size fp =? length xp)%nat then raise ValueError
  else
    match fp with
    | Known cells => ok (Known (map (interp_at xp cells) x))
    | Lost _ => ok (Lost (length x))
    end.

(** [a / b] on one-dimensional complex arrays, with numpy's broadcasting
    of a length-one operand. *)
Definition div_cells (a b : list C) : list C := zip_with Cdiv a b.

Definition np_divide (a b : array1 C) : result (array1 C) :=
  match a, b with
  | Known za, Known zb =>
      if (length za =? length zb)%nat then ok (Known (div_cells za zb))
      else if (length za =? 1)%nat
      then ok (Known (map (fun w => Cdiv (hd Czero za) w) zb))
      else if (length zb =? 1)%nat
      then ok (Known (map (fun z => Cdiv z (hd Czero zb)) za))
      else raise ValueError
  | _, _ =>
      if (size a =? size b)%nat then ok (Lost (size a))
      else if (size a =? 1)%nat then ok (Lost (size b))
      else if (size b =? 1)%nat then ok (Lost (size a))
      else raise ValueError
  end.

(** [np.mean] of a complex array.  [None] is a mean that is not a finite
    number: numpy answers nan for an empty array. *)
Definition np_mean (a : array1 C) : option C :=
  match a with
  | Known [] => None
  | Known cells =>
      let s := Csum cells in
      Some (Re s / INR (length cells), Im s / INR (length cells))
  | Lost _ => None
  end.

Definition Ceq_zero_dec (w : C) : {w = Czero} + {w <> Czero}.
Proof.
  destruct w as [a b].
  destruct (Req_dec_T a 0) as [Ha | Ha].
  - destruct (Req_dec_T b 0) as [Hb | Hb].
    + left. unfold Czero. congruence.
    + right. unfold Czero. intro H. apply Hb. congruence.
  - right. unfold Czero. intro H. apply Ha. congruence.
Defined.

(** The cells of [phase / offset]: dividing by a zero or non-finite offset
    leaves no finite cell. *)
Definition divide_by (p : array1 C) (offset : option C) : array1 C :=
  match p, offset with
  | Known cells, Some w =>
      if Ceq_zero_dec w then Lost (length cells)
      else Known (map (fun z => Cdiv z w) cells)
  | _, _ => Lost (size p)
  end.

(** ** The store: arrays by reference, and the Axes drawn on *)

Definition loc : Type := nat.

(** An array has one dtype, so float64 and complex128 arrays are kept in
    separate stores. *)
Record heap : Type := mkHeap {
  f64 : loc -> list R;
  c128 : loc -> array1 C
}.

Record line : Type := mkLine {
  xdata : list R;
  ydata : array1 R;
  label : string
}.

Record Axes : Type := mkAxes {
  lines : list line;
  legend : bool
}.

Record state : Type := mkState {
  st_heap : heap;
  st_axes : Axes
}.

Inductive pyval : Type :=
  | PyNone
  | PyComplexArray (a : array1 C).

(** State and exceptions: a computation returns a value or raises, and
    leaves a state either way. *)
Definition M (A : Type) : Type := state -> result A * state.

Definition ret {A : Type} (a : A) : M A := fun st => (ok a, st).

Definition bind {A B : Type} (m : M A) (k : A -> M B) : M B :=
  fun st =>
    match m st with
    | (inl e, st') => (inl e, st')
    | (inr a, st') => k a st'
    end.

Notation "x <- m ;; k" := (bind m (fun x => k))
  (at level 61, m at next level, right associativity).
Notation "m ;;; k" := (bind m (fun _ => k))
  (at level 61, right associativity).

Definition lift {A : Type} (r : result A) : M A := fun st => (r, st).

Definition read_f64 (l : loc) : M (list R) :=
  fun st => (ok (f64 (st_heap st) l), st).

Definition read_c128 (l : loc) : M (array1 C) :=
  fun st => (ok (c128 (st_heap st) l), st).

Definition write_c128 (l : loc) (v : array1 C) : M unit :=
  fun st =>
    (ok tt,
     mkState (mkHeap (f64 (st_heap st))
                     (fun l' => if (l' =? l)%nat then v else c128 (st_heap st) l'))
             (st_axes st)).

(** [ax.plot(x, y, ..., label = lbl)]: a line is added to the Axes; x and y
    of different lengths are a ValueError. *)
Definition ax_plot (x : list R) (y : array1 R) (lbl : string) : M unit :=
  fun st =>
    if (length x =? size y)%nat
    then (ok tt,
          mkState (st_heap st)
                  (mkAxes (lines (st_axes st) ++ [mkLine x y lbl])
                          (legend (st_axes st))))
    else (raise ValueError, st).

Definition ax_legend : M unit :=
  fun st =>
    (ok tt, mkState (st_heap st) (mkAxes (lines (st_axes st)) true)).

(** ** [plot_phase_and_heading] *)

(** Lines 91 to 96: the phase upsampled to the VR timestamps, and the mean
    ratio to the heading. *)
Definition rotational_offset
    (image_timestamps phase vr_timestamps vr_heading : loc) : M (option C) :=
  vt <- read_f64 vr_timestamps ;;
  it <- read_f64 image_timestamps ;;
  p <- read_c128 phase ;;
  interp <- lift (np_interp vt it (alift np_unwrap (alift np_angle p))) ;;
  let phase_interp := alift np_exp_1j interp in
  vh <- read_f64 vr_heading ;;
  ratio <- lift (np_divide phase_interp (Known (np_exp_1j vh))) ;;
  ret (np_mean ratio).

Definition plot_phase_and_heading
    (image_timestamps phase vr_timestamps vr_heading : loc)
    (subtract_offset : bool) : M pyval :=
  (if subtract_offset then
     offset <-
       rotational_offset image_timestamps phase vr_timestamps vr_heading ;;
     p <- read_c128 phase ;;
     write_c128 phase (divide_by p offset)
   else ret tt) ;;;
  (vt <- read_f64 vr_timestamps ;;
   vh <- read_f64 vr_heading ;;
   ax_plot vt (Known vh) "VR heading") ;;;
  (it <- read_f64 image_timestamps ;;
   p <- read_c128 phase ;;
   ax_plot it (alift np_angle p) "EPG phase") ;;;
  ax_legend ;;;
  ret PyNone.

(** ** Reference definitions, in the words of the specification *)

(** [n] equally spaced angles spanning the closed interval [-PI, PI]. *)
Definition spec_angles (n : nat) : list R :=
  map (fun k => - PI + INR k * (2 * PI / INR (n - 1))) (seq 0 n).

Definition spec_unit_vectors (n : nat) : list C := map cis (spec_angles n).

(** Every other element starting at index 0, followed by every other
    element starting at index 1. *)
Definition spec_reorder (l : list C) : list C :=
  map (fun i => nth i l Czero)
      (filter Nat.even (seq 0 (length l)) ++ filter Nat.odd (seq 0 (length l))).

(** For each time sample, the sum over the regions of the reordered unit
    vector of the region times the fluorescence of the region. *)
Definition spec_compute_phase (a : array2) : list C :=
  let units := spec_reorder (spec_unit_vectors (shape0 a)) in
  map (fun t =>
         Csum (map (fun r => Cscale (item a r t) (nth r units Czero))
                   (seq 0 (shape0 a))))
      (seq 0 (shape1 a)).

(** The reordered unit vectors [to_phase] multiplies with. *)
Definition circ_of (n : nat) : list C :=
  let circ := np_exp_1j (np_linspace (- PI) PI n) in
  slice_from0_step2 circ ++ slice_from1_step2 circ.

(** [a*X + b*Y] on two-dimensional arrays of one shape, and on phase
    signals. *)
Definition lincomb2 (a : R) (X : array2) (b : R) (Y : array2) : array2 :=
  mkArray2 (shape0 X) (shape1 X)
    (zip_with (zip_with (fun x y => a * x + b * y)) (rows X) (rows Y)).

Definition lincomb1 (a : R) (P : list C) (b : R) (Q : list C) : list C :=
  zip_with (fun p q => Cadd (Cmul (RtoC a) p) (Cmul (RtoC b) q)) P Q.

(** The all-ones array of shape [(n, t)]. *)
Definition ones (n t : nat) : array2 :=
  mkArray2 n t (repeat (repeat 1 t) n).

(** Linear interpolation between the two nearest samples, clamped to the
    end values outside the range of the sample points. *)
Fixpoint spec_interp (knots : list (R * R)) (x : R) : R :=
  match knots with
  | [] => 0
  | (a, fa) :: rest =>
      match rest with
      | [] => fa
      | (b, fb) :: _ =>
          if Rlt_dec x b then
            (if Rle_dec x a then fa else fa + (x - a) * (fb - fa) / (b - a))
          else spec_interp rest x
      end
  end.

(** The offset as a closed formula: the mean over the behavioural samples
    of the ratio of the re-wrapped interpolated phase to the unit heading,
    the unwrapped angle being the one numpy computes ([np_unwrap] of
    [np_angle]). *)
Definition spec_rotational_offset
    (image_timestamps : list R) (phase : list C)
    (vr_timestamps vr_heading : list R) : C :=
  let unwrapped := np_unwrap (np_angle phase) in
  let V := length vr_timestamps in
  let ratio j :=
    Cdiv (cis (spec_interp (combine image_timestamps unwrapped)
                           (nth j vr_timestamps 0)))
         (cis (nth j vr_heading 0)) in
  Cscale (/ INR V) (Csum (map ratio (seq 0 V))).

(** Step 5: the original phase divided by the offset. *)
Definition spec_corrected_phase
    (image_timestamps : list R) (phase : list C)
    (vr_timestamps vr_heading : list R) : list C :=
  let offset :=
    spec_rotational_offset image_timestamps phase vr_timestamps vr_heading in
  map (fun z => Cdiv z offset) phase.

(** Sample points in non-decreasing order. *)
Fixpoint nondecreasing (l : list R) : Prop :=
  match l with
  | [] => True
  | a :: rest =>
      match rest with
      | [] => True
      | b :: _ => a <= b /\ nondecreasing rest
      end
  end.

(** ** Moduli and angles *)

Definition Cabs (z : C) : R := sqrt (Re z * Re z + Im z * Im z).

(** Equality of angles modulo 2 PI. *)
Definition eq_mod_2PI (a b : R) : Prop :=
  exists k : Z, a = b + 2 * PI * IZR k.

(** Two angles within a tolerance of each other. *)
Definition within (tol a b : R) : Prop := Rabs (a - b) <= tol.

(** No two successive angles half a turn apart, where [np.unwrap] has to
    break a tie. *)
Fixpoint no_tie (p : list R) : Prop :=
  match p with
  | [] => True
  | a :: rest =>
      match rest with
      | [] => True
      | b :: _ => ~ eq_mod_2PI (b - a) PI /\ no_tie rest
      end
  end.

(** ** What a call leaves behind *)

(** What lines 91 to 96 compute from a heap: the offset, or the exception
    of [np.interp] or of the broadcasting. *)
Definition offset_of (h : heap)
    (image_timestamps phase vr_timestamps vr_heading : loc)
  : result (option C) :=
  match np_interp (f64 h vr_timestamps) (f64 h image_timestamps)
                  (alift np_unwrap (alift np_angle (c128 h phase))) with
  | inl e => inl e
  | inr interp =>
      match np_divide (alift np_exp_1j interp)
                      (Known (np_exp_1j (f64 h vr_heading))) with
      | inl e => inl e
      | inr ratio => ok (np_mean ratio)
      end
  end.

(** The heap after [phase /= offset]. *)
Definition heap_divided (h : heap) (ph : loc) (offset : option C) : heap :=
  mkHeap (f64 h)
         (fun l => if (l =? ph)%nat then divide_by (c128 h ph) offset
                   else c128 h l).

(** The two lines [plot_phase_and_heading] draws. *)
Definition heading_line (h : heap) (vt vh : loc) : line :=
  mkLine (f64 h vt) (Known (f64 h vh)) "VR heading".

Definition phase_line (h : heap) (it ph : loc) : line :=
  mkLine (f64 h it) (alift np_angle (c128 h ph)) "EPG phase".

(** A session as the data model describes it: a phase sample for every
    imaging timestamp, at least one of them, in non-decreasing order, and a
    heading sample for every behavioural timestamp. *)
Definition valid_session (h : heap)
    (image_timestamps phase vr_timestamps vr_heading : loc) : Prop :=
  size (c128 h phase) = length (f64 h image_timestamps) /\
  (1 <= length (f64 h image_timestamps))%nat /\
  nondecreasing (f64 h image_timestamps) /\
  length (f64 h vr_heading) = length (f64 h vr_timestamps).

(** ** Sessions *)

(** The locations of the four arrays of a session. *)
Definition l_it : loc := 0%nat.
Definition l_ph : loc := 1%nat.
Definition l_vt : loc := 2%nat.
Definition l_vh : loc := 3%nat.

(** A heap with the four arrays of a session at locations 0 to 3. *)
Definition session (image_timestamps : list R) (phase : array1 C)
    (vr_timestamps vr_heading : list R) : heap :=
  mkHeap
    (fun l => match l with
              | O => image_timestamps
              | 2%nat => vr_timestamps
              | 3%nat => vr_heading
              | _ => []
              end)
    (fun l => match l with
              | 1%nat => phase
              | _ => Known []
              end).

(** An Axes nothing was drawn on. *)
Definition no_axes : Axes := mkAxes [] false.

(** Two imaging samples a quarter turn apart, two behavioural samples. *)
Definition demo_session : heap :=
  session [0; 1] (Known [(1, 0); (0, 1)]) [0; 1] [0; 0].

(** A session without any behavioural sample. *)
Definition no_behaviour_session : heap :=
  session [0] (Known [(1, 0)]) [] [].

(** A session with one phase sample [z] and heading PI/2. *)
Definition single_sample_session (z : C) : heap :=
  session [0] (Known [z]) [0] [PI / 2].

(** The session whose only phase sample is zero, with heading 1/2. *)
Definition zero_sample_session : heap :=
  session [0] (Known [(0, 0)]) [0] [1 / 2].

(** ** The round trip *)

(** The angle of a phase signal interpolated onto the VR timestamps. *)
Definition interpolated_angle
    (image_timestamps : list R) (phase : list C) (vr_timestamps : list R)
  : list R :=
  map (interp_at image_timestamps (np_unwrap (np_angle phase))) vr_timestamps.

(** The heading of the round-trip test: the angle of the phase
    interpolated onto the VR timestamps, plus a constant. *)
Definition synthetic_heading
    (image_timestamps : list R) (phase : list C) (vr_timestamps : list R)
    (c : R) : list R :=
  map (fun a => a + c)
      (np_angle (np_exp_1j
         (interpolated_angle image_timestamps phase vr_timestamps))).

(** The round trip of the specification: the heading is made from the
    phase and a constant, the offset is subtracted, and the angle of the
    corrected phase, interpolated onto the VR timestamps, is compared with
    the heading by [rel]. *)
Definition roundtrip (rel : R -> R -> Prop)
    (image_timestamps : list R) (phase : list C) (vr_timestamps : list R)
    (c : R) : Prop :=
  let vr_heading :=
    synthetic_heading image_timestamps phase vr_timestamps c in
  let out :=
    plot_phase_and_heading l_it l_ph l_vt l_vh true
      (mkState (session image_timestamps (Known phase) vr_timestamps
                        vr_heading)
               no_axes) in
  exists corrected : list C,
    c128 (st_heap (snd out)) l_ph = Known corrected /\
    forall j : nat, (j < length vr_timestamps)%nat ->
      rel (nth j (interpolated_angle image_timestamps corrected
                                     vr_timestamps) 0)
          (nth j vr_heading 0).


(** ** Sums and columns *)

(** Sum of a list of reals, from the left. *)
Definition Rsum (l : list R) : R := fold_left Rplus l 0.

(** Column [t] of a two-dimensional array: [a[:, t]]. *)
Definition column (a : array2) (t : nat) : list R :=
  map (fun r => item a r t) (seq 0 (shape0 a)).


(** The index, in the order of the angles, of the unit vector that the
    reordering gives to region [r] out of [n]. *)
Definition angle_index (n r : nat) : nat :=
  if (r <? Nat.div2 (S n))%nat then (2 * r)%nat
  else (2 * (r - Nat.div2 (S n)) + 1)%nat.

(** A [k]-by-[t] array filled with the rows given. *)
Definition array_of_rows (t : nat) (rs : list (list R)) : array2 :=
  mkArray2 (length rs) t rs.


(** ** [plot_imaging_heatmap]: the edges of the mesh *)

(** The exceptions of indexing, beside those of the library calls. *)
Inductive error : Type :=
  | Library (e : exn)
  | IndexError.

Definition outcome (A : Type) : Type := (error + A)%type.

(** [np.mean] of a real array; [None] is the nan numpy answers for an
    empty array. *)
Definition np_mean_real (l : list R) : option R :=
  match l with
  | [] => None
  | _ :: _ => Some (Rsum l / INR (length l))
  end.

(** Line 59, [time[1:] -= np.diff(time)/2]: the differences are taken
    first, then subtracted in place. *)
Definition shift_to_midpoints (time : list R) : list R :=
  match time with
  | [] => []
  | t0 :: rest => t0 :: zip_with (fun x d => x - d / 2) rest (np_diff time)
  end.

(** Lines 58 to 61: the copy of [time] moved to the mid-points, its first
    cell moved back by half the mean step, and one more cell inserted in
    front.  [time[0]] of an empty array is an IndexError; with a single
    timestamp the mean of no difference is nan and spreads to every cell. *)
Definition heatmap_time_edges (time : list R) : outcome (array1 R) :=
  let time := shift_to_midpoints time in
  match time with
  | [] => inl IndexError
  | t0 :: rest =>
      match np_mean_real (np_diff time) with
      | None => inr (Lost (S (length time)))
      | Some m =>
          let time := (t0 - m / 2) :: rest in
          match np_mean_real (np_diff time) with
          | None => inr (Lost (S (length time)))
          | Some m' => inr (Known ((hd 0 time - m') :: time))
          end
      end
  end.

(** Line 63: the edges of the rows, [np.linspace(-pi, pi, shape[0] + 1)]. *)
Definition heatmap_y_edges (data : array2) : list R :=
  np_linspace (- PI) PI (shape0 data + 1).

(** ** [plot_demo_file]: the parts that compute *)

(** [np.where(mask)[0]]: the indices, from [i] on, of the cells that
    satisfy the mask. *)
Fixpoint where_from (mask : R -> bool) (l : list R) (i : nat) : list nat :=
  match l with
  | [] => []
  | x :: rest =>
      if mask x then i :: where_from mask rest (S i)
      else where_from mask rest (S i)
  end.

(** The masks [image_timestamps < t] and [image_timestamps >= t]. *)
Definition is_before (t x : R) : bool := if Rlt_dec x t then true else false.
Definition is_from (t x : R) : bool := if Rge_dec x t then true else false.

(** [np.take(a, idx, axis = -1)]: the columns of the indices, in their
    order; an index past the last column is an IndexError. *)
Definition np_take_columns (a : array2) (idx : list nat) : outcome array2 :=
  if forallb (fun i => (i <? shape1 a)%nat) idx
  then inr (mkArray2 (shape0 a) (length idx)
              (map (fun row => map (fun i => nth i row 0) idx) (rows a)))
  else inl IndexError.

(** Lines 152 to 155: the columns before the onset and the columns from
    the onset on. *)
Definition split_at_onset (dfof : array2) (image_timestamps : list R)
    (vr_on_time : R) : outcome (array2 * array2) :=
  match np_take_columns dfof
          (where_from (is_before vr_on_time) image_timestamps 0) with
  | inl e => inl e
  | inr pre =>
      match np_take_columns dfof
              (where_from (is_from vr_on_time) image_timestamps 0) with
      | inl e => inl e
      | inr during => inr (pre, during)
      end
  end.

(** [a.T]: one row for every column of [a]. *)
Definition transpose (a : array2) : list (list R) :=
  map (fun j => map (fun row => nth j row 0) (rows a)) (seq 0 (shape1 a)).

(** Every [k]-th cell of a list, after skipping [skip] cells. *)
Fixpoint every {A : Type} (k skip : nat) (l : list A) : list A :=
  match l with
  | [] => []
  | x :: rest =>
      match skip with
      | O => x :: every k (k - 1) rest
      | S s => every k s rest
      end
  end.

(** [l[::step]]: a zero step is a ValueError, a negative step walks
    backwards from the last cell. *)
Definition slice_step {A : Type} (step : Z) (l : list A) : result (list A) :=
  if (step =? 0)%Z then raise ValueError
  else if (0 <? step)%Z then ok (every (Z.to_nat step) 0 l)
  else ok (every (Z.to_nat (- step)) 0 (rev l)).

(** Lines 191 to 199: the point cloud given to ripser,
    [dfof.T[::downsample_by]]. *)
Definition ripser_points (dfof : array2) (downsample_by : Z)
  : result (list (list R)) :=
  slice_step downsample_by (transpose dfof).

(** [astype(int)] on a double: the fraction is dropped, towards zero. *)
Definition astype_int (x : R) : Z :=
  if Rle_dec 0 x then Int_part x else (- Int_part (- x))%Z.

(** Lines 176 to 185: four ticks from the first to the last imaging
    timestamp, labelled with the whole seconds since the first. *)
Definition xticks (image_timestamps : list R) : outcome (list R * list Z) :=
  match image_timestamps with
  | [] => inl IndexError
  | t0 :: _ =>
      let ticks := np_linspace t0 (last image_timestamps 0) 4 in
      inr (ticks, map (fun x => astype_int ((x - t0) / 1000000000)) ticks)
  end.


(** ** The first step, in the words of the specification *)

(** The angle of a complex number: its argument, in radians, in the range
    (-PI, PI].  Zero has no direction: every angle of the range is an
    angle of zero. *)
Definition spec_angle_of (z : C) (theta : R) : Prop :=
  - PI < theta <= PI /\ z = Cscale (Cabs z) (cis theta).

(** A continuous trajectory: no jump of more than half a turn between
    successive cells. *)
Fixpoint spec_continuous (u : list R) : Prop :=
  match u with
  | [] => True
  | a :: rest =>
      match rest with
      | [] => True
      | b :: _ => Rabs (b - a) <= PI /\ spec_continuous rest
      end
  end.

(** Unwrapping a sequence of angles: multiples of 2 PI are added to or
    subtracted from the cells, the first one apart, and the trajectory
    they make is continuous. *)
Definition spec_unwrapped (theta u : list R) : Prop :=
  Forall2 eq_mod_2PI u theta /\ hd 0 u = hd 0 theta /\ spec_continuous u.

(** Steps 2 to 4 on an unwrapped angle: it is interpolated onto the
    behavioural timestamps, re-wrapped, divided by the unit heading, and
    the V ratios are averaged. *)
Definition spec_mean_ratio
    (image_timestamps unwrapped vr_timestamps vr_heading : list R) : C :=
  let V := length vr_timestamps in
  let ratio j :=
    Cdiv (cis (spec_interp (combine image_timestamps unwrapped)
                           (nth j vr_timestamps 0)))
         (cis (nth j vr_heading 0)) in
  Cscale (/ INR V) (Csum (map ratio (seq 0 V))).

(** The heap in which the array at [ph] has been replaced by [cells]. *)
Definition heap_with (h : heap) (ph : loc) (cells : array1 C) : heap :=
  mkHeap (f64 h) (fun l => if (l =? ph)%nat then cells else c128 h l).

(** * Lemmas *)

(** ** Complex arithmetic *)

Lemma C_eq (z w : C) : Re z = Re w -> Im z = Im w -> z = w.
Proof.
  destruct z, w. simpl. intros -> ->. reflexivity.
Qed.

Ltac c_eq :=
  apply C_eq; unfold Cadd, Cmul, Cdiv, Cscale, RtoC, Czero, Re, Im; simpl.

Lemma Cadd_comm (z w : C) : Cadd z w = Cadd w z.
Proof. c_eq; lra. Qed.

Lemma Cadd_assoc (x y z : C) : Cadd x (Cadd y z) = Cadd (Cadd x y) z.
Proof. c_eq; lra. Qed.

Lemma Cadd_zero_l (z : C) : Cadd Czero z = z.
Proof. c_eq; lra. Qed.

Lemma Cmul_RtoC_r (z : C) (x : R) : Cmul z (RtoC x) = Cscale x z.
Proof. c_eq; lra. Qed.

Lemma Cmul_RtoC_l (z : C) (x : R) : Cmul (RtoC x) z = Cscale x z.
Proof. c_eq; lra. Qed.

Lemma fold_Cadd_acc (l : list C) (acc : C) :
  fold_left Cadd l acc = Cadd acc (Csum l).
Proof.
  unfold Csum. revert acc.
  induction l as [| x l IH]; intros acc; simpl.
  - c_eq; lra.
  - rewrite IH. rewrite (IH (Cadd Czero x)).
    rewrite Cadd_zero_l. symmetry. apply Cadd_assoc.
Qed.

Lemma Csum_nil : Csum [] = Czero.
Proof. reflexivity. Qed.

Lemma Csum_cons (x : C) (l : list C) : Csum (x :: l) = Cadd x (Csum l).
Proof.
  unfold Csum at 1. simpl. rewrite fold_Cadd_acc.
  now rewrite Cadd_zero_l.
Qed.

Lemma Csum_map_lincomb {A : Type} (a b : R) (F G H : A -> C) (l : list A) :
  (forall r, In r l -> F r = Cadd (Cscale a (G r)) (Cscale b (H r))) ->
  Csum (map F l) = Cadd (Cscale a (Csum (map G l))) (Cscale b (Csum (map H l))).
Proof.
  induction l as [| r l IH]; intros HF; simpl.
  - rewrite Csum_nil. c_eq; lra.
  - rewrite !Csum_cons, IH by (intros; apply HF; now right).
    rewrite (HF r) by now left.
    c_eq; lra.
Qed.

Lemma Csum_map_ext {A : Type} (F G : A -> C) (l : list A) :
  (forall r, In r l -> F r = G r) -> Csum (map F l) = Csum (map G l).
Proof.
  intros H. f_equal. now apply map_ext_in.
Qed.

(** ** Lists *)

Lemma list_ind2 {A : Type} (P : list A -> Prop) :
  P [] -> (forall x, P [x]) ->
  (forall x y l, P l -> P (x :: y :: l)) ->
  forall l, P l.
Proof.
  intros H0 H1 H2.
  assert (H : forall l, P l /\ forall x, P (x :: l)).
  { induction l as [| y l [IH1 IH2]]; split; auto. }
  intros l. apply H.
Qed.

Lemma filter_even_map_S (l : list nat) :
  filter Nat.odd (map S l) = map S (filter Nat.even l).
Proof.
  induction l as [| i l IH]; [reflexivity |].
  cbn [map filter]. rewrite Nat.odd_succ, IH.
  now destruct (Nat.even i).
Qed.

Lemma filter_odd_map_S (l : list nat) :
  filter Nat.even (map S l) = map S (filter Nat.odd l).
Proof.
  induction l as [| i l IH]; [reflexivity |].
  cbn [map filter]. rewrite Nat.even_succ, IH.
  now destruct (Nat.odd i).
Qed.

Lemma map_nth_cons_S {A : Type} (d x : A) (l : list A) (idx : list nat) :
  map (fun i => nth i (x :: l) d) (map S idx) = map (fun i => nth i l d) idx.
Proof.
  rewrite map_map. reflexivity.
Qed.

Lemma slice_from0_step2_nth {A : Type} (d : A) (l : list A) :
  slice_from0_step2 l =
  map (fun i => nth i l d) (filter Nat.even (seq 0 (length l))).
Proof.
  induction l as [| x | x y l IH] using list_ind2; try reflexivity.
  cbn [slice_from0_step2 length]. rewrite IH.
  cbn [seq]. rewrite <- (seq_shift _ 1), <- (seq_shift _ 0).
  cbn [filter Nat.even map nth]. f_equal.
  rewrite filter_odd_map_S, filter_even_map_S.
  now rewrite !map_map.
Qed.

Lemma slice_from1_step2_nth {A : Type} (d : A) (l : list A) :
  slice_from1_step2 l =
  map (fun i => nth i l d) (filter Nat.odd (seq 0 (length l))).
Proof.
  unfold slice_from1_step2. destruct l as [| x l]; [reflexivity |].
  cbn [tl length]. rewrite (slice_from0_step2_nth d).
  cbn [seq]. rewrite <- (seq_shift _ 0).
  cbn [filter Nat.odd Nat.even negb].
  now rewrite filter_even_map_S, map_nth_cons_S.
Qed.

Lemma slice_from0_step2_cons {A : Type} (x : A) (l : list A) :
  slice_from0_step2 (x :: l) = x :: slice_from0_step2 (tl l).
Proof. destruct l; reflexivity. Qed.

Lemma length_slices {A : Type} (l : list A) :
  length (slice_from0_step2 l ++ slice_from1_step2 l) = length l.
Proof.
  rewrite length_app. unfold slice_from1_step2.
  induction l as [| x l IH]; [reflexivity |].
  rewrite slice_from0_step2_cons. cbn [length tl]. lia.
Qed.

Lemma slices_reorder (l : list C) :
  slice_from0_step2 l ++ slice_from1_step2 l = spec_reorder l.
Proof.
  unfold spec_reorder. rewrite map_app.
  now rewrite <- slice_from0_step2_nth, <- slice_from1_step2_nth.
Qed.

Lemma map_seq_nth {A : Type} (d : A) (l : list A) :
  l = map (fun i => nth i l d) (seq 0 (length l)).
Proof.
  induction l as [| x l IH]; [reflexivity |].
  cbn [length seq map nth]. f_equal.
  rewrite <- seq_shift, map_map. exact IH.
Qed.

Lemma map_combine_seq {A B D : Type} (da : A) (db : B) (f : A * B -> D)
    (l : list A) (m : list B) :
  length l = length m ->
  map f (combine l m) =
  map (fun i => f (nth i l da, nth i m db)) (seq 0 (length l)).
Proof.
  intros Hlen.
  rewrite (map_seq_nth (da, db) (combine l m)) at 1.
  rewrite map_map, length_combine, <- Hlen, Nat.min_id.
  apply map_ext. intros i. now rewrite combine_nth.
Qed.

(** ** [np.linspace] *)

Lemma length_np_linspace (start stop : R) (n : nat) :
  length (np_linspace start stop n) = n.
Proof.
  unfold np_linspace.
  assert (Hy : forall f : nat -> R, length (map f (seq 0 n)) = n)
    by (intros; now rewrite length_map, length_seq).
  destruct n as [| [| m]].
  - reflexivity.
  - reflexivity.
  - replace (1 <? S (S m))%nat with true by (symmetry; now apply Nat.ltb_lt; lia).
    replace (0 <? S (S m) - 1)%nat with true
      by (symmetry; apply Nat.ltb_lt; lia).
    rewrite seq_S, map_app. cbn [map].
    rewrite removelast_last, length_app, length_map, length_seq.
    cbn [length]. lia.
Qed.

Lemma np_linspace_spec_angles (n : nat) :
  (2 <= n)%nat -> np_linspace (- PI) PI n = spec_angles n.
Proof.
  intros Hn. unfold np_linspace, spec_angles.
  destruct n as [| m]; [lia |].
  replace (1 <? S m)%nat with true by (symmetry; apply Nat.ltb_lt; lia).
  replace (0 <? S m - 1)%nat with true by (symmetry; apply Nat.ltb_lt; lia).
  replace (S m - 1)%nat with m by lia.
  assert (Hm : INR m <> 0) by (apply not_0_INR; lia).
  rewrite seq_S, !map_app. cbn [map].
  rewrite removelast_last. f_equal.
  - apply map_ext. intros k. field. exact Hm.
  - f_equal. cbn [Nat.add]. field. exact Hm.
Qed.

(** ** [matmul_vec] *)

Lemma matmul_vec_cells (v : list C) (a : array2) :
  wf_array2 a -> length v = shape0 a ->
  matmul_vec v a =
  ok (map (fun t =>
        Csum (map (fun r => Cscale (item a r t) (nth r v Czero))
                  (seq 0 (shape0 a))))
      (seq 0 (shape1 a))).
Proof.
  intros [Hrows _] Hlen. unfold matmul_vec.
  rewrite Hlen, Nat.eqb_refl. f_equal.
  apply map_ext. intros t. f_equal.
  rewrite (map_combine_seq Czero []) by congruence.
  rewrite Hlen. apply map_ext. intros r.
  cbn [fst snd]. unfold item. apply Cmul_RtoC_r.
Qed.

Lemma length_circ_of (n : nat) : length (circ_of n) = n.
Proof.
  unfold circ_of. rewrite length_slices. unfold np_exp_1j.
  now rewrite length_map, length_np_linspace.
Qed.

Lemma to_phase_cells (a : array2) :
  wf_array2 a ->
  to_phase a =
  ok (map (fun t =>
        Csum (map (fun r => Cscale (item a r t) (nth r (circ_of (shape0 a)) Czero))
                  (seq 0 (shape0 a))))
      (seq 0 (shape1 a))).
Proof.
  intros Hwf. unfold to_phase.
  apply (matmul_vec_cells (circ_of (shape0 a)) a Hwf).
  apply length_circ_of.
Qed.

Lemma circ_of_spec (n : nat) :
  (2 <= n)%nat -> circ_of n = spec_reorder (spec_unit_vectors n).
Proof.
  intros Hn. unfold circ_of. rewrite slices_reorder.
  unfold np_exp_1j, spec_unit_vectors.
  now rewrite np_linspace_spec_angles.
Qed.

Lemma nth_map_seq {A : Type} (f : nat -> A) (d : A) (n i : nat) :
  (i < n)%nat -> nth i (map f (seq 0 n)) d = f i.
Proof.
  intros Hi.
  rewrite (nth_indep _ d (f 0%nat)) by now rewrite length_map, length_seq.
  rewrite map_nth, seq_nth by assumption. reflexivity.
Qed.

Lemma length_zip_with {A B D : Type} (f : A -> B -> D) (l : list A) (m : list B) :
  length (zip_with f l m) = Nat.min (length l) (length m).
Proof.
  revert m. induction l as [| x l IH]; intros [| y m]; cbn; auto.
Qed.

Lemma nth_zip_with {A B D : Type} (f : A -> B -> D) (da : A) (db : B) (d : D)
    (l : list A) (m : list B) (i : nat) :
  (i < length l)%nat -> (i < length m)%nat ->
  nth i (zip_with f l m) d = f (nth i l da) (nth i m db).
Proof.
  revert m i. induction l as [| x l IH]; intros [| y m] [| i] Hl Hm;
    cbn in *; try lia; auto.
  apply IH; lia.
Qed.

Lemma zip_with_map {A B D E : Type} (f : B -> D -> E) (g : A -> B) (h : A -> D)
    (l : list A) :
  zip_with f (map g l) (map h l) = map (fun x => f (g x) (h x)) l.
Proof.
  induction l as [| x l IH]; cbn; [reflexivity | now rewrite IH].
Qed.

Lemma map_const_repeat {A B : Type} (c : B) (l : list A) :
  map (fun _ => c) l = repeat c (length l).
Proof.
  induction l as [| x l IH]; cbn; [reflexivity | now rewrite IH].
Qed.

(** ** Arrays of two dimensions *)

Lemma wf_row_length (a : array2) (r : nat) :
  wf_array2 a -> (r < shape0 a)%nat -> length (nth r (rows a) []) = shape1 a.
Proof.
  intros [Hlen Hall] Hr.
  rewrite Forall_forall in Hall. apply Hall, nth_In. lia.
Qed.

Lemma wf_lincomb2 (a b : R) (X Y : array2) :
  wf_array2 X -> wf_array2 Y ->
  shape0 X = shape0 Y -> shape1 X = shape1 Y ->
  wf_array2 (lincomb2 a X b Y).
Proof.
  intros [HX HXr] [HY HYr] H0 H1. unfold wf_array2, lincomb2. cbn.
  split.
  - rewrite length_zip_with. lia.
  - rewrite <- H1 in HYr. clear HX HY H0 H1.
    revert HYr. generalize (rows Y).
    induction HXr as [| row rest Hrow _ IH]; intros [| rowY restY] HYr;
      cbn; try constructor.
    + inversion HYr; subst. rewrite length_zip_with. lia.
    + apply IH. now inversion HYr.
Qed.

Lemma item_lincomb2 (a b : R) (X Y : array2) (r t : nat) :
  wf_array2 X -> wf_array2 Y ->
  shape0 X = shape0 Y -> shape1 X = shape1 Y ->
  (r < shape0 X)%nat -> (t < shape1 X)%nat ->
  item (lincomb2 a X b Y) r t = a * item X r t + b * item Y r t.
Proof.
  intros HX HY H0 H1 Hr Ht. unfold item, lincomb2. cbn [rows].
  rewrite (nth_zip_with _ [] [])
    by (destruct HX, HY; lia).
  rewrite (nth_zip_with (fun x y => a * x + b * y) 0 0); [reflexivity | |].
  - rewrite wf_row_length; assumption.
  - rewrite wf_row_length; [lia | assumption | lia].
Qed.

Lemma wf_ones (n t : nat) : wf_array2 (ones n t).
Proof.
  split; cbn.
  - apply repeat_length.
  - apply Forall_forall. intros row Hin.
    apply repeat_spec in Hin. subst. apply repeat_length.
Qed.

Lemma item_ones (n t r j : nat) :
  (r < n)%nat -> (j < t)%nat -> item (ones n t) r j = 1.
Proof.
  intros Hr Hj. unfold item, ones. cbn [rows].
  rewrite nth_repeat_lt by assumption.
  now apply nth_repeat_lt.
Qed.

Lemma to_phase_ones (n t : nat) :
  to_phase (ones n t) = ok (repeat (Csum (circ_of n)) t).
Proof.
  rewrite to_phase_cells by apply wf_ones. cbn [shape0 shape1 ones].
  f_equal.
  replace (repeat (Csum (circ_of n)) t)
    with (map (fun _ : nat => Csum (circ_of n)) (seq 0 t))
    by now rewrite map_const_repeat, length_seq.
  apply map_ext_in. intros j Hj. apply in_seq in Hj.
  transitivity (Csum (map (fun i => nth i (circ_of n) Czero) (seq 0 n))).
  - apply Csum_map_ext. intros r Hr. apply in_seq in Hr.
    rewrite item_ones by lia. c_eq; lra.
  - f_equal. pose proof (map_seq_nth Czero (circ_of n)) as E.
    rewrite length_circ_of in E. now symmetry.
Qed.

(** ** The state monad *)

Lemma rotational_offset_pure (it ph vt vh : loc) (st : state) :
  rotational_offset it ph vt vh st = (offset_of (st_heap st) it ph vt vh, st).
Proof.
  unfold rotational_offset, offset_of, bind, read_f64, read_c128, lift, ret.
  cbv beta iota delta [ok].
  destruct (np_interp _ _ _) as [e | interp]; [reflexivity |].
  destruct (np_divide _ _) as [e | ratio]; reflexivity.
Qed.

Lemma size_alift {A B : Type} (f : list A -> list B) (a : array1 A) :
  (forall l, length (f l) = length l) -> size (alift f a) = size a.
Proof.
  intros Hf. destruct a; cbn; auto.
Qed.

Lemma size_np_angle (a : array1 C) : size (alift np_angle a) = size a.
Proof.
  apply size_alift. intros l. apply length_map.
Qed.

Lemma size_divide_by (p : array1 C) (offset : option C) :
  size (divide_by p offset) = size p.
Proof.
  destruct p as [cells | n], offset as [w |]; cbn; try reflexivity.
  destruct (Ceq_zero_dec w); cbn; [reflexivity | apply length_map].
Qed.

Ltac run_monad :=
  unfold plot_phase_and_heading, bind, ret, read_f64, read_c128, write_c128,
    ax_plot, ax_legend;
  cbv beta iota delta [ok raise].

(** Without the offset step the heap is never written. *)
Lemma plot_heap_false (it ph vt vh : loc) (st : state) :
  st_heap (snd (plot_phase_and_heading it ph vt vh false st)) = st_heap st.
Proof.
  run_monad.
  destruct (length (f64 (st_heap st) vt) =? size (Known (f64 (st_heap st) vh)))%nat;
    [| reflexivity].
  cbn [st_heap st_axes].
  destruct (length (f64 (st_heap st) it) =? _)%nat; reflexivity.
Qed.

(** With the offset step, the heap is written once, whatever the plotting
    does afterwards. *)
Lemma plot_heap_true (it ph vt vh : loc) (st : state) (offset : option C) :
  offset_of (st_heap st) it ph vt vh = ok offset ->
  st_heap (snd (plot_phase_and_heading it ph vt vh true st)) =
  heap_divided (st_heap st) ph offset.
Proof.
  intros Hoff. run_monad.
  rewrite rotational_offset_pure, Hoff.
  cbv beta iota delta [ok]. cbn [st_heap st_axes f64 c128].
  destruct (length (f64 (st_heap st) vt) =? _)%nat; [| reflexivity].
  cbn [st_heap st_axes f64 c128].
  destruct (length (f64 (st_heap st) it) =? _)%nat; reflexivity.
Qed.

(** An exception of the offset step leaves the heap as it was. *)
Lemma plot_raise_true (it ph vt vh : loc) (st : state) (e : exn) :
  offset_of (st_heap st) it ph vt vh = raise e ->
  plot_phase_and_heading it ph vt vh true st = (raise e, st).
Proof.
  intros Hoff. run_monad.
  now rewrite rotational_offset_pure, Hoff.
Qed.

(** On arrays of matching lengths the call returns None, with the heap
    divided and both lines drawn. *)
Lemma plot_run_true (it ph vt vh : loc) (st : state) (offset : option C) :
  offset_of (st_heap st) it ph vt vh = ok offset ->
  size (c128 (st_heap st) ph) = length (f64 (st_heap st) it) ->
  length (f64 (st_heap st) vh) = length (f64 (st_heap st) vt) ->
  plot_phase_and_heading it ph vt vh true st =
  (ok PyNone,
   mkState (heap_divided (st_heap st) ph offset)
           (mkAxes (lines (st_axes st) ++
                      [heading_line (heap_divided (st_heap st) ph offset) vt vh;
                       phase_line (heap_divided (st_heap st) ph offset) it ph])
                   true)).
Proof.
  intros Hoff HT HV. run_monad.
  rewrite rotational_offset_pure, Hoff.
  cbv beta iota delta [ok]. cbn [st_heap st_axes f64 c128 size lines legend].
  rewrite HV, Nat.eqb_refl.
  cbn [st_heap st_axes f64 c128 size lines legend].
  rewrite Nat.eqb_refl, size_np_angle, size_divide_by, HT, Nat.eqb_refl.
  unfold heap_divided, heading_line, phase_line.
  cbn [f64 c128]. rewrite Nat.eqb_refl, <- app_assoc. reflexivity.
Qed.

Lemma plot_run_false (it ph vt vh : loc) (st : state) :
  size (c128 (st_heap st) ph) = length (f64 (st_heap st) it) ->
  length (f64 (st_heap st) vh) = length (f64 (st_heap st) vt) ->
  plot_phase_and_heading it ph vt vh false st =
  (ok PyNone,
   mkState (st_heap st)
           (mkAxes (lines (st_axes st) ++
                      [heading_line (st_heap st) vt vh;
                       phase_line (st_heap st) it ph])
                   true)).
Proof.
  intros HT HV. run_monad.
  cbn [st_heap st_axes f64 c128 size lines legend].
  rewrite HV, Nat.eqb_refl.
  cbn [st_heap st_axes f64 c128 size lines legend].
  rewrite size_np_angle, HT, Nat.eqb_refl.
  unfold heading_line, phase_line. rewrite <- app_assoc. reflexivity.
Qed.

(** ** [np.interp] *)

Lemma linear_search_shift (key : R) (rest : list R) (i : nat) :
  linear_search key rest (S i) = S (linear_search key rest i).
Proof.
  revert i. induction rest as [| a rest IH]; intros i; cbn; [reflexivity |].
  destruct (Rle_dec a key); [apply IH | reflexivity].
Qed.

Lemma linear_search_all (key : R) (rest : list R) (i : nat) :
  (forall b, In b rest -> b <= key) ->
  linear_search key rest i = (i + length rest)%nat.
Proof.
  revert i. induction rest as [| a rest IH]; intros i Hall; cbn.
  - lia.
  - destruct (Rle_dec a key) as [_ | Hn].
    + rewrite IH by (intros; apply Hall; now right). lia.
    + exfalso. apply Hn, Hall. now left.
Qed.

Lemma linear_search_le (key : R) (rest : list R) (i : nat) :
  (i <= linear_search key rest i <= i + length rest)%nat.
Proof.
  revert i. induction rest as [| a rest IH]; intros i; cbn; [lia |].
  destruct (Rle_dec a key); [| lia].
  specialize (IH (S i)). lia.
Qed.

Lemma nth_length_last (a : R) (l : list R) :
  nth (length l) (a :: l) 0 = last (a :: l) 0.
Proof.
  revert a. induction l as [| b l IH]; intros a; [reflexivity |].
  cbn [length]. change (nth (S (length l)) (a :: b :: l) 0)
    with (nth (length l) (b :: l) 0).
  rewrite IH. reflexivity.
Qed.

Lemma nondecreasing_tail (a : R) (l : list R) :
  nondecreasing (a :: l) -> nondecreasing l.
Proof.
  destruct l as [| b l]; cbn; tauto.
Qed.

Lemma nondecreasing_head_le (a : R) (l : list R) :
  nondecreasing (a :: l) -> forall b, In b l -> a <= b.
Proof.
  revert a. induction l as [| c l IH]; intros a Hs b Hin; [contradiction |].
  destruct Hs as [Hac Hs]. destruct Hin as [-> | Hin]; [exact Hac |].
  apply Rle_trans with c; [exact Hac | now apply IH].
Qed.

Lemma nondecreasing_le_last (a : R) (l : list R) :
  nondecreasing (a :: l) -> forall b, In b (a :: l) -> b <= last (a :: l) 0.
Proof.
  revert a. induction l as [| c l IH]; intros a Hs b Hin.
  - destruct Hin as [-> | []]. cbn. lra.
  - change (last (a :: c :: l) 0) with (last (c :: l) 0).
    destruct Hin as [-> | Hin].
    + apply Rle_trans with c; [apply Hs |].
      apply IH; [now apply nondecreasing_tail in Hs | now left].
    + apply IH; [now apply nondecreasing_tail in Hs | exact Hin].
Qed.

(** The scan of [spec_interp] stops at the index numpy's search finds. *)
Lemma spec_interp_scan (rest frest : list R) :
  forall (a fa x : R),
  length frest = length rest -> a <= x ->
  spec_interp ((a, fa) :: combine rest frest) x =
  let k := linear_search x rest 0 in
  if (k =? length rest)%nat then nth k (fa :: frest) 0
  else if Req_dec_T (nth k (a :: rest) 0) x then nth k (fa :: frest) 0
  else (nth (S k) (fa :: frest) 0 - nth k (fa :: frest) 0) /
       (nth (S k) (a :: rest) 0 - nth k (a :: rest) 0) *
       (x - nth k (a :: rest) 0) + nth k (fa :: frest) 0.
Proof.
  revert frest.
  induction rest as [| b rest IH]; intros [| fb frest] a fa x Hlen Hax;
    try discriminate.
  - reflexivity.
  - cbn [combine spec_interp linear_search].
    destruct (Rle_dec b x) as [Hbx | Hbx].
    + destruct (Rlt_dec x b) as [Hlt | _]; [lra |].
      rewrite linear_search_shift.
      cbn [length Nat.eqb nth].
      apply IH; [now injection Hlen | exact Hbx].
    + destruct (Rlt_dec x b) as [Hlt | Hn]; [| lra].
      cbn [length Nat.eqb nth].
      destruct (Req_dec_T a x) as [-> | Hne].
      * destruct (Rle_dec x x); [reflexivity | lra].
      * destruct (Rle_dec x a); [lra |]. field. lra.
Qed.

(** On non-decreasing sample points, [np.interp] is the clamped linear
    interpolation of the specification. *)
Lemma interp_at_spec (xp fp : list R) (x : R) :
  nondecreasing xp -> length fp = length xp -> (1 <= length xp)%nat ->
  interp_at xp fp x = spec_interp (combine xp fp) x.
Proof.
  intros Hs Hlen Hpos.
  destruct xp as [| a rest]; [cbn in Hpos; lia |].
  destruct fp as [| fa frest]; [discriminate |].
  assert (Hlen' : length frest = length rest) by now injection Hlen.
  destruct rest as [| b rest].
  - destruct frest; [| discriminate]. unfold interp_at. cbn.
    destruct (Rlt_dec x a); [reflexivity |].
    destruct (Rlt_dec a x); reflexivity.
  - unfold interp_at, search.
    replace (length (a :: b :: rest) =? 1)%nat with false by reflexivity.
    change (combine (a :: b :: rest) (fa :: frest))
      with ((a, fa) :: combine (b :: rest) frest).
    cbn [hd tl].
    destruct (Rlt_dec (last (a :: b :: rest) 0) x) as [Hab | Hab].
    + assert (Hall : forall c, In c (a :: b :: rest) -> c <= x).
      { intros c Hc. apply Rle_trans with (last (a :: b :: rest) 0);
          [now apply nondecreasing_le_last | lra]. }
      rewrite spec_interp_scan by (auto; apply Hall; now left).
      cbv zeta.
      rewrite linear_search_all by (intros; apply Hall; now right).
      cbn [Nat.add]. rewrite Nat.eqb_refl.
      rewrite <- Hlen'. now rewrite nth_length_last.
    + destruct (Rlt_dec x a) as [Hxa | Hxa].
      * destruct frest as [| fb frest]; [discriminate |].
        cbn [combine spec_interp].
        assert (a <= b) by apply Hs.
        destruct (Rlt_dec x b); [| lra].
        destruct (Rle_dec x a); [reflexivity | lra].
      * rewrite spec_interp_scan by (auto; lra).
        cbv zeta. rewrite linear_search_shift.
        replace (S (linear_search x (b :: rest) 0) - 1)%nat
          with (linear_search x (b :: rest) 0) by lia.
        replace (length (a :: b :: rest) - 1)%nat with (length (b :: rest))
          by (cbn [length]; lia).
        reflexivity.
Qed.

Lemma zip_with_seq {A B D : Type} (f : A -> B -> D) (da : A) (db : B)
    (l : list A) (m : list B) :
  length l = length m ->
  zip_with f l m = map (fun j => f (nth j l da) (nth j m db)) (seq 0 (length l)).
Proof.
  revert m. induction l as [| x l IH]; intros [| y m] Hlen; try discriminate.
  - reflexivity.
  - cbn [zip_with length seq map nth]. f_equal.
    rewrite <- seq_shift, map_map. apply IH. now injection Hlen.
Qed.

(** ** [np.unwrap] *)

Lemma length_np_diff (a : R) (l : list R) : length (np_diff (a :: l)) = length l.
Proof.
  revert a. induction l as [| b l IH]; intros a; [reflexivity |].
  change (np_diff (a :: b :: l)) with ((b - a) :: np_diff (b :: l)).
  cbn [length]. now rewrite IH.
Qed.

Lemma length_cumsum_from (acc : R) (l : list R) :
  length (cumsum_from acc l) = length l.
Proof.
  revert acc. induction l as [| x l IH]; intros acc; cbn; [reflexivity |].
  now rewrite IH.
Qed.

Lemma length_np_unwrap (p : list R) : length (np_unwrap p) = length p.
Proof.
  destruct p as [| p0 rest]; [reflexivity |].
  unfold np_unwrap, add_cells, np_cumsum. cbn [length].
  rewrite length_zip_with, length_cumsum_from, length_map, length_np_diff.
  now rewrite Nat.min_id.
Qed.

(** ** The offset on a valid session *)

Lemma np_mean_nonempty (l : list C) :
  (1 <= length l)%nat ->
  np_mean (Known l) = Some (Cscale (/ INR (length l)) (Csum l)).
Proof.
  intros Hl. destruct l as [| z l]; [cbn in Hl; lia |].
  unfold np_mean, Cscale, Rdiv. apply f_equal.
  apply C_eq; cbn [Re Im fst snd]; lra.
Qed.

Lemma offset_of_known (h : heap) (it ph vt vh : loc) (zs : list C) :
  c128 h ph = Known zs ->
  valid_session h it ph vt vh ->
  offset_of h it ph vt vh =
  ok (np_mean (Known (div_cells
        (np_exp_1j (interpolated_angle (f64 h it) zs (f64 h vt)))
        (np_exp_1j (f64 h vh))))).
Proof.
  intros Hph (HT & Hpos & _ & HV).
  unfold offset_of, np_interp. rewrite Hph in *. cbn [alift size] in *.
  replace (length (f64 h it) =? 0)%nat with false
    by (symmetry; apply Nat.eqb_neq; lia).
  unfold np_angle at 1. rewrite length_np_unwrap, length_map, HT, Nat.eqb_refl.
  cbn [negb]. cbv beta iota delta [ok]. cbn [alift].
  unfold np_divide, np_exp_1j, interpolated_angle.
  rewrite !length_map, HV, Nat.eqb_refl. reflexivity.
Qed.

Lemma offset_of_spec (h : heap) (it ph vt vh : loc) (zs : list C) :
  c128 h ph = Known zs ->
  valid_session h it ph vt vh ->
  (1 <= length (f64 h vt))%nat ->
  offset_of h it ph vt vh =
  ok (Some (spec_rotational_offset (f64 h it) zs (f64 h vt) (f64 h vh))).
Proof.
  intros Hph Hvalid HV1.
  rewrite (offset_of_known h it ph vt vh zs Hph Hvalid).
  destruct Hvalid as (HT & Hpos & Hsorted & HV).
  rewrite Hph in HT. cbn [size] in HT.
  unfold div_cells, np_exp_1j, interpolated_angle.
  rewrite (zip_with_seq Cdiv Czero Czero) by now rewrite !length_map.
  rewrite !length_map.
  unfold spec_rotational_offset.
  set (V := length (f64 h vt)) in *.
  rewrite np_mean_nonempty by now rewrite length_map, length_seq.
  rewrite length_map, length_seq.
  match goal with
  | |- ok (Some (Cscale _ ?a)) = ok (Some (Cscale _ ?b)) =>
      replace a with b; [reflexivity | symmetry]
  end.
  apply Csum_map_ext. intros j Hj. apply in_seq in Hj.
  assert (E1 : forall (f : R -> C) (l : list R) (d : R),
             (j < length l)%nat -> nth j (map f l) Czero = f (nth j l d)).
  { intros f l d Hl. rewrite (nth_indep _ Czero (f d)) by now rewrite length_map.
    apply map_nth. }
  rewrite (E1 cis (map _ (f64 h vt)) 0) by (rewrite length_map; fold V; lia).
  rewrite (E1 cis (f64 h vh) 0) by (rewrite HV; fold V; lia).
  f_equal. f_equal.
  rewrite (nth_indep _ 0 (interp_at (f64 h it) (np_unwrap (np_angle zs)) 0))
    by (rewrite length_map; fold V; lia).
  rewrite map_nth.
  apply interp_at_spec; try assumption.
  unfold np_angle. now rewrite length_np_unwrap, length_map.
Qed.

Lemma offset_of_lost (h : heap) (it ph vt vh : loc) (n : nat) :
  c128 h ph = Lost n ->
  valid_session h it ph vt vh ->
  offset_of h it ph vt vh = ok None.
Proof.
  intros Hph (HT & Hpos & _ & HV).
  unfold offset_of, np_interp. rewrite Hph in *. cbn [alift size] in *.
  replace (length (f64 h it) =? 0)%nat with false
    by (symmetry; apply Nat.eqb_neq; lia).
  rewrite HT, Nat.eqb_refl.
  cbn [negb]. cbv beta iota delta [ok]. cbn [alift].
  unfold np_divide, np_exp_1j. cbn [size].
  now rewrite length_map, HV, Nat.eqb_refl.
Qed.

Lemma offset_of_valid (h : heap) (it ph vt vh : loc) :
  valid_session h it ph vt vh ->
  exists offset, offset_of h it ph vt vh = ok offset.
Proof.
  intros Hvalid. destruct (c128 h ph) as [zs | n] eqn:Hph.
  - eexists. now apply (offset_of_known h it ph vt vh zs).
  - exists None. now apply (offset_of_lost h it ph vt vh n).
Qed.

Lemma offset_of_no_behaviour (h : heap) (it ph vt vh : loc) :
  valid_session h it ph vt vh ->
  f64 h vt = [] ->
  offset_of h it ph vt vh = ok None.
Proof.
  intros Hvalid Hvt. destruct (c128 h ph) as [zs | n] eqn:Hph.
  - rewrite (offset_of_known h it ph vt vh zs Hph Hvalid).
    unfold interpolated_angle. now rewrite Hvt.
  - now apply (offset_of_lost h it ph vt vh n).
Qed.

Lemma valid_demo_session : valid_session demo_session l_it l_ph l_vt l_vh.
Proof.
  unfold valid_session, demo_session, session. cbn.
  repeat split; try lia; lra.
Qed.

(** ** Evaluating the primitives at the angles 0 and PI/2 *)

Lemma angle_zero : angle (0, 0) = 0.
Proof.
  unfold angle, arctan2. cbn [Re Im fst snd].
  destruct (Rlt_dec 0 0); [lra | reflexivity].
Qed.

Lemma angle_one : angle (1, 0) = 0.
Proof.
  unfold angle, arctan2. cbn [Re Im fst snd].
  destruct (Rlt_dec 0 1); [| lra].
  unfold Rdiv. rewrite Rmult_0_l. apply atan_0.
Qed.

Lemma angle_minus_i : angle (0, -1) = - (PI / 2).
Proof.
  unfold angle, arctan2. cbn [Re Im fst snd].
  destruct (Rlt_dec 0 0); [lra |].
  destruct (Rlt_dec 0 (-1)); [lra |].
  destruct (Rlt_dec (-1) 0); [reflexivity | lra].
Qed.

Lemma cis_0 : cis 0 = (1, 0).
Proof. unfold cis. now rewrite cos_0, sin_0. Qed.

Lemma cis_PI2 : cis (PI / 2) = (0, 1).
Proof. unfold cis. now rewrite cos_PI2, sin_PI2. Qed.

Lemma cis_2PI : cis (0 + 2 * PI) = (1, 0).
Proof.
  unfold cis. rewrite Rplus_0_l. now rewrite cos_2PI, sin_2PI.
Qed.

Lemma interp_at_single (t f x : R) : interp_at [t] [f] x = f.
Proof.
  unfold interp_at. cbn.
  destruct (Rlt_dec x t); [reflexivity |].
  destruct (Rlt_dec t x); reflexivity.
Qed.

Lemma spec_offset_single (t s a hd : R) (z : C) :
  angle z = a ->
  spec_rotational_offset [t] [z] [s] [hd] = Cdiv (cis a) (cis hd).
Proof.
  intros Ha. unfold spec_rotational_offset.
  cbn -[Csum cis Cdiv angle INR]. rewrite Ha.
  rewrite Csum_cons, Csum_nil. cbn [INR].
  apply C_eq; unfold Cscale, Cadd, Czero; cbn [Re Im fst snd]; field.
Qed.

Lemma last_app_two {A : Type} (l : list A) (a b d : A) :
  last (l ++ [a; b]) d = b.
Proof.
  change [a; b] with ([a] ++ [b]). now rewrite app_assoc, last_last.
Qed.

(** ** Polar form *)

Lemma Cabs_sqr (z : C) : Cabs z * Cabs z = Re z * Re z + Im z * Im z.
Proof.
  unfold Cabs. apply sqrt_sqrt. nra.
Qed.

Lemma Cabs_nonneg (z : C) : 0 <= Cabs z.
Proof. apply sqrt_pos. Qed.

Lemma norm_pos_of_nonzero (z : C) :
  z <> Czero -> 0 < Re z * Re z + Im z * Im z.
Proof.
  intros Hz. destruct z as [x y]. cbn [Re Im fst snd].
  destruct (Req_dec_T x 0) as [-> | Hx].
  - destruct (Req_dec_T y 0) as [-> | Hy]; [now contradiction Hz | nra].
  - nra.
Qed.

Lemma Cabs_pos (z : C) : z <> Czero -> 0 < Cabs z.
Proof.
  intros Hz. apply sqrt_lt_R0. now apply norm_pos_of_nonzero.
Qed.

Lemma sqrt_1_plus_sqr (x y r : R) :
  0 < r -> r * r = x * x + y * y -> x <> 0 ->
  sqrt (1 + (y / x)²) = r / Rabs x.
Proof.
  intros Hr Hrr Hx.
  assert (Hax : 0 < Rabs x) by now apply Rabs_pos_lt.
  apply sqrt_lem_1.
  - unfold Rsqr. nra.
  - apply Rlt_le, Rdiv_lt_0_compat; assumption.
  - unfold Rsqr.
    assert (Habs : Rabs x * Rabs x = x * x).
    { unfold Rabs. destruct (Rcase_abs x); ring. }
    replace (r / Rabs x * (r / Rabs x)) with ((r * r) / (Rabs x * Rabs x))
      by (field; lra).
    rewrite Habs, Hrr. field. exact Hx.
Qed.

Lemma arctan2_polar (x y r : R) :
  0 < r -> r * r = x * x + y * y ->
  cos (arctan2 y x) = x / r /\ sin (arctan2 y x) = y / r.
Proof.
  intros Hr Hrr. unfold arctan2.
  destruct (Rlt_dec 0 x) as [Hx | Hx].
  - rewrite cos_atan, sin_atan, (sqrt_1_plus_sqr x y r) by (assumption || lra).
    rewrite Rabs_right by lra. split; field; lra.
  - destruct (Rlt_dec x 0) as [Hx' | Hx'].
    + assert (Hs : sqrt (1 + (y / x)²) = r / Rabs x)
        by (apply sqrt_1_plus_sqr; assumption || lra).
      rewrite Rabs_left in Hs by assumption.
      destruct (Rle_dec 0 y).
      * rewrite neg_cos, neg_sin, cos_atan, sin_atan, Hs.
        split; field; lra.
      * rewrite cos_minus, sin_minus, cos_PI, sin_PI, cos_atan, sin_atan, Hs.
        split; field; lra.
    + assert (x = 0) by lra. subst x.
      assert (Hyy : r * r = y * y) by lra.
      destruct (Rlt_dec 0 y) as [Hy | Hy].
      * assert (r = y) by nra. subst r.
        rewrite cos_PI2, sin_PI2. split; field; lra.
      * destruct (Rlt_dec y 0) as [Hy' | Hy'].
        -- assert (r = - y) by nra. subst r.
           rewrite cos_neg, sin_neg, cos_PI2, sin_PI2. split; field; lra.
        -- assert (y = 0) by lra. subst y. nra.
Qed.

(** A non-zero complex number is its modulus times the unit vector of its
    angle. *)
Lemma polar (z : C) : z <> Czero -> z = Cscale (Cabs z) (cis (angle z)).
Proof.
  intros Hz.
  destruct (arctan2_polar (Re z) (Im z) (Cabs z) (Cabs_pos z Hz) (Cabs_sqr z))
    as [Hc Hs].
  pose proof (Cabs_pos z Hz) as Hr.
  apply C_eq; unfold Cscale, cis, angle; cbn [Re Im fst snd].
  - fold (Re z) (Im z). rewrite Hc. field. lra.
  - fold (Re z) (Im z). rewrite Hs. field. lra.
Qed.

Lemma cis_norm (a : R) : cos a * cos a + sin a * sin a = 1.
Proof.
  pose proof (sin2_cos2 a) as H. unfold Rsqr in H. lra.
Qed.

Lemma Cdiv_polar (r s a b : R) :
  s <> 0 ->
  Cdiv (Cscale r (cis a)) (Cscale s (cis b)) = Cscale (r / s) (cis (a - b)).
Proof.
  intros Hs. pose proof (cis_norm b) as Hb.
  unfold Cdiv, Cscale, cis. cbn [Re Im fst snd].
  rewrite cos_minus, sin_minus.
  replace (s * cos b * (s * cos b) + s * sin b * (s * sin b))
    with (s * s) by (transitivity (s * s * (cos b * cos b + sin b * sin b));
                     [rewrite Hb | ]; ring).
  apply C_eq; cbn [Re Im fst snd]; field; assumption.
Qed.

Lemma Cdiv_cis (a b : R) : Cdiv (cis a) (cis b) = cis (a - b).
Proof.
  pose proof (Cdiv_polar 1 1 a b) as H.
  replace (Cscale 1 (cis a)) with (cis a) in H by (c_eq; lra).
  replace (Cscale 1 (cis b)) with (cis b) in H by (c_eq; lra).
  rewrite H by lra. c_eq; lra.
Qed.

Lemma Cabs_scale_cis (r a : R) : 0 <= r -> Cabs (Cscale r (cis a)) = r.
Proof.
  intros Hr. unfold Cabs, Cscale, cis. cbn [Re Im fst snd].
  replace (r * cos a * (r * cos a) + r * sin a * (r * sin a))
    with (r * r) by (transitivity (r * r * (cos a * cos a + sin a * sin a));
                     [rewrite cis_norm | ]; ring).
  now apply sqrt_square.
Qed.

Lemma scale_cis_nonzero (r a : R) : r <> 0 -> Cscale r (cis a) <> Czero.
Proof.
  intros Hr Hz. pose proof (cis_norm a) as Ha.
  unfold Cscale, cis, Czero in Hz. cbn [Re Im fst snd] in Hz.
  injection Hz as Hc Hs.
  assert (cos a = 0) by nra. assert (sin a = 0) by nra. nra.
Qed.

(** The angle numpy gives a number of polar form is the angle of the form,
    up to a multiple of 2 PI. *)
Lemma cis_angle_scale (r a : R) :
  0 < r -> cis (angle (Cscale r (cis a))) = cis a.
Proof.
  intros Hr.
  assert (Hz : Cscale r (cis a) <> Czero) by (apply scale_cis_nonzero; lra).
  pose proof (polar _ Hz) as Hp.
  rewrite Cabs_scale_cis in Hp by lra.
  unfold Cscale in Hp at 1 3. cbn [Re Im fst snd cis] in Hp.
  injection Hp as Hc Hs.
  change (Cscale r (cis a)) with (r * cos a, r * sin a).
  unfold cis.
  apply Rmult_eq_reg_l in Hc; [| lra]. apply Rmult_eq_reg_l in Hs; [| lra].
  now rewrite <- Hc, <- Hs.
Qed.

(** ** Angles modulo 2 PI *)

Lemma cos_sin_2kPI_nat (n : nat) :
  cos (2 * PI * INR n) = 1 /\ sin (2 * PI * INR n) = 0.
Proof.
  replace (2 * PI * INR n) with (0 + 2 * INR n * PI) by ring.
  rewrite cos_period, sin_period. split; [apply cos_0 | apply sin_0].
Qed.

Lemma cos_sin_2kPI (k : Z) :
  cos (2 * PI * IZR k) = 1 /\ sin (2 * PI * IZR k) = 0.
Proof.
  destruct (Z_le_gt_dec 0 k) as [Hk | Hk].
  - destruct (Z_of_nat_complete k Hk) as [n ->].
    rewrite <- INR_IZR_INZ. apply cos_sin_2kPI_nat.
  - assert (Hk' : (0 <= - k)%Z) by lia.
    destruct (Z_of_nat_complete (- k) Hk') as [n Hn].
    replace k with (- Z.of_nat n)%Z by lia.
    rewrite opp_IZR, <- INR_IZR_INZ.
    replace (2 * PI * - INR n) with (- (2 * PI * INR n)) by ring.
    rewrite cos_neg, sin_neg.
    destruct (cos_sin_2kPI_nat n) as [-> ->]. split; lra.
Qed.

Lemma cis_period (a : R) (k : Z) : cis (a + 2 * PI * IZR k) = cis a.
Proof.
  unfold cis. rewrite cos_plus, sin_plus.
  destruct (cos_sin_2kPI k) as [-> ->]. f_equal; ring.
Qed.

Lemma cis_eq_mod (a b : R) : eq_mod_2PI a b -> cis a = cis b.
Proof.
  intros [k ->]. apply cis_period.
Qed.

Lemma cis_inj_mod (a b : R) : cis a = cis b -> eq_mod_2PI a b.
Proof.
  intros H. unfold cis in H. injection H as Hc Hs.
  pose proof (cis_norm b) as Hb.
  assert (Hsin : sin (a - b) = 0) by (rewrite sin_minus, Hc, Hs; ring).
  assert (Hcos : cos (a - b) = 1) by (rewrite cos_minus, Hc, Hs; lra).
  destruct (sin_eq_0_0 _ Hsin) as [k Hk].
  assert (Hdec : exists m : Z, k = (2 * m)%Z \/ k = (2 * m + 1)%Z).
  { exists (k / 2)%Z.
    pose proof (Z.div_mod k 2 ltac:(lia)) as Hdm.
    pose proof (Z.mod_pos_bound k 2 ltac:(lia)) as Hbd. lia. }
  destruct Hdec as [m [-> | ->]].
  - exists m. rewrite mult_IZR in Hk. lra.
  - exfalso. rewrite plus_IZR, mult_IZR in Hk.
    replace (a - b) with (PI + 2 * PI * IZR m) in Hcos by lra.
    rewrite cos_plus in Hcos.
    destruct (cos_sin_2kPI m) as [Hc2 Hs2].
    rewrite Hc2, Hs2, cos_PI, sin_PI in Hcos. lra.
Qed.

Lemma eq_mod_2PI_refl (a : R) : eq_mod_2PI a a.
Proof. exists 0%Z. lra. Qed.

Lemma eq_mod_2PI_sym (a b : R) : eq_mod_2PI a b -> eq_mod_2PI b a.
Proof.
  intros [k ->]. exists (- k)%Z. rewrite opp_IZR. lra.
Qed.

Lemma eq_mod_2PI_trans (a b c : R) :
  eq_mod_2PI a b -> eq_mod_2PI b c -> eq_mod_2PI a c.
Proof.
  intros [k ->] [m ->]. exists (k + m)%Z. rewrite plus_IZR. lra.
Qed.

(** ** Dividing by the offset *)

Lemma Cdiv_zero_l (w : C) : Cdiv Czero w = Czero.
Proof.
  unfold Cdiv, Czero. cbn [Re Im fst snd]. f_equal; unfold Rdiv; ring.
Qed.

Lemma Cabs_zero : Cabs Czero = 0.
Proof.
  unfold Cabs, Czero. cbn [Re Im fst snd].
  replace (0 * 0 + 0 * 0) with 0 by ring. apply sqrt_0.
Qed.

Lemma Cdiv_polar_form (z w : C) :
  z <> Czero -> w <> Czero ->
  Cdiv z w = Cscale (Cabs z / Cabs w) (cis (angle z - angle w)).
Proof.
  intros Hz Hw.
  rewrite (polar z Hz) at 1. rewrite (polar w Hw) at 1.
  apply Cdiv_polar. pose proof (Cabs_pos w Hw). lra.
Qed.

Lemma Cabs_Cdiv (z w : C) : w <> Czero -> Cabs (Cdiv z w) = Cabs z / Cabs w.
Proof.
  intros Hw. pose proof (Cabs_pos w Hw) as Hpw.
  destruct (Ceq_zero_dec z) as [-> | Hz].
  - rewrite Cdiv_zero_l, Cabs_zero. unfold Rdiv. ring.
  - rewrite Cdiv_polar_form by assumption.
    apply Cabs_scale_cis.
    apply Rlt_le, Rdiv_lt_0_compat; [now apply Cabs_pos | assumption].
Qed.

Lemma angle_Cdiv (z w : C) :
  z <> Czero -> w <> Czero ->
  eq_mod_2PI (angle (Cdiv z w)) (angle z - angle w).
Proof.
  intros Hz Hw. apply cis_inj_mod.
  rewrite Cdiv_polar_form by assumption.
  apply cis_angle_scale.
  apply Rdiv_lt_0_compat; now apply Cabs_pos.
Qed.

Lemma valid_single_sample_session (z : C) :
  valid_session (single_sample_session z) l_it l_ph l_vt l_vh.
Proof.
  unfold valid_session, single_sample_session, session. cbn.
  repeat split; lia.
Qed.

Lemma spec_offset_quarter_turn (z : C) :
  angle z = 0 ->
  spec_rotational_offset [0] [z] [0] [PI / 2] = (0, -1).
Proof.
  intros Hz.
  rewrite (spec_offset_single 0 0 0 (PI / 2) z Hz), cis_0, cis_PI2.
  c_eq; field.
Qed.

Lemma offset_single_sample_session (z : C) :
  angle z = 0 ->
  offset_of (single_sample_session z) l_it l_ph l_vt l_vh = ok (Some (0, -1)).
Proof.
  intros Hz.
  rewrite (offset_of_spec (single_sample_session z) l_it l_ph l_vt l_vh [z]);
    [| reflexivity | apply valid_single_sample_session | cbn; lia].
  change (f64 (single_sample_session z) l_it) with [0].
  change (f64 (single_sample_session z) l_vt) with [0].
  change (f64 (single_sample_session z) l_vh) with [PI / 2].
  now rewrite spec_offset_quarter_turn.
Qed.

Lemma minus_i_nonzero : (0, -1) <> Czero.
Proof.
  unfold Czero. intros H. injection H as H. lra.
Qed.

Lemma quarter_turn_not_mod_2PI : ~ eq_mod_2PI 0 (0 - - (PI / 2)).
Proof.
  intros [k Hk].
  assert (H : PI * (1 + 4 * IZR k) = 0) by lra.
  apply Rmult_integral in H. destruct H as [H | H].
  - now apply PI_neq0.
  - assert (H' : IZR (1 + 4 * k) = 0) by (rewrite plus_IZR, mult_IZR; lra).
    apply eq_IZR_R0 in H'. lia.
Qed.

(** ** The step of [np.unwrap] *)

Lemma np_mod_bounds (x y : R) : 0 < y -> 0 <= np_mod x y < y.
Proof.
  intros Hy. unfold np_mod.
  destruct (base_Int_part (x / y)) as [Hlo Hhi].
  assert (Hx : x = x / y * y) by (field; lra).
  set (k := IZR (Int_part (x / y))) in *.
  split.
  - assert (k * y <= x / y * y) by (apply Rmult_le_compat_r; lra). lra.
  - assert (x / y * y < (k + 1) * y) by (apply Rmult_lt_compat_r; lra). lra.
Qed.

(** A difference after the correction of [np.unwrap]: congruent to the
    difference modulo 2 PI, and between -PI and PI. *)
Lemma ph_correct_cases (dd : R) :
  eq_mod_2PI (dd + ph_correct dd) dd /\
  - PI <= dd + ph_correct dd <= PI.
Proof.
  pose proof PI_RGT_0 as Hpi.
  unfold ph_correct. replace (2 * PI / 2) with PI by field.
  destruct (Rlt_dec (Rabs dd) PI) as [Habs | Habs].
  - split.
    + rewrite Rplus_0_r. apply eq_mod_2PI_refl.
    + rewrite Rplus_0_r. apply Rabs_def2 in Habs. lra.
  - pose proof (np_mod_bounds (dd - - PI) (2 * PI) ltac:(lra)) as Hb.
    assert (Hm : eq_mod_2PI (np_mod (dd - - PI) (2 * PI) + - PI) dd).
    { exists (- Int_part ((dd - - PI) / (2 * PI)))%Z.
      unfold np_mod. rewrite opp_IZR. ring. }
    set (ddmod := np_mod (dd - - PI) (2 * PI) + - PI) in *.
    destruct (Req_dec_T ddmod (- PI)) as [Heq | Hne].
    + destruct (Rlt_dec 0 dd) as [Hpos | Hpos].
      * split; [| lra].
        replace (dd + (PI - dd)) with PI by ring.
        apply eq_mod_2PI_trans with ddmod; [| exact Hm].
        exists 1%Z. lra.
      * split; [| lra].
        replace (dd + (ddmod - dd)) with ddmod by ring. exact Hm.
    + split.
      * replace (dd + (ddmod - dd)) with ddmod by ring. exact Hm.
      * replace (dd + (ddmod - dd)) with ddmod by ring.
        subst ddmod. lra.
Qed.

Lemma eq_mod_2PI_small (a b : R) :
  eq_mod_2PI a b -> - (2 * PI) < a - b < 2 * PI -> a = b.
Proof.
  intros [k Hk] Hsmall. pose proof PI_RGT_0 as Hpi.
  assert (Hk0 : (k = 0)%Z).
  { assert (H1 : -1 < IZR k < 1) by (split; nra).
    destruct H1 as [Hlo Hhi].
    apply (lt_IZR (-1) k) in Hlo. apply (lt_IZR k 1) in Hhi. lia. }
  subst k. lra.
Qed.

(** Off the ties, congruent differences are corrected to the same
    difference. *)
Lemma ph_correct_congruent (x y : R) :
  ~ eq_mod_2PI x PI -> eq_mod_2PI y x ->
  y + ph_correct y = x + ph_correct x.
Proof.
  intros Htie Hyx. pose proof PI_RGT_0 as Hpi.
  destruct (ph_correct_cases x) as [Hx Hxb].
  destruct (ph_correct_cases y) as [Hy Hyb].
  assert (Hx1 : x + ph_correct x <> PI).
  { intros H. apply Htie. apply eq_mod_2PI_sym. now rewrite <- H. }
  assert (Hx2 : x + ph_correct x <> - PI).
  { intros H. apply Htie. apply eq_mod_2PI_sym.
    apply eq_mod_2PI_trans with (- PI); [| now rewrite <- H].
    exists 1%Z. lra. }
  assert (Hty : ~ eq_mod_2PI y PI).
  { intros H. apply Htie.
    apply eq_mod_2PI_trans with y; [now apply eq_mod_2PI_sym | exact H]. }
  assert (Hy1 : y + ph_correct y <> PI).
  { intros H. apply Hty. apply eq_mod_2PI_sym. now rewrite <- H. }
  assert (Hy2 : y + ph_correct y <> - PI).
  { intros H. apply Hty. apply eq_mod_2PI_sym.
    apply eq_mod_2PI_trans with (- PI); [| now rewrite <- H].
    exists 1%Z. lra. }
  apply eq_mod_2PI_small; [| lra].
  apply eq_mod_2PI_trans with y; [exact Hy |].
  apply eq_mod_2PI_trans with x; [exact Hyx | now apply eq_mod_2PI_sym].
Qed.

(** ** [np.unwrap] under a rotation of the samples *)

Lemma cumsum_from_shift (acc d : R) (l : list R) :
  cumsum_from (acc + d) l = map (fun x => x + d) (cumsum_from acc l).
Proof.
  revert acc. induction l as [| y l IH]; intros acc; cbn; [reflexivity |].
  replace (acc + d + y) with (acc + y + d) by ring.
  now rewrite IH.
Qed.

Lemma add_cells_map_shift (d : R) (rest cs : list R) :
  add_cells rest (map (fun x => x + d) cs) =
  map (fun x => x + d) (add_cells rest cs).
Proof.
  unfold add_cells. revert cs.
  induction rest as [| y rest IH]; intros [| x cs]; cbn; try reflexivity.
  rewrite IH. f_equal. ring.
Qed.

Lemma np_unwrap_cons2 (p0 p1 : R) (rest : list R) :
  np_unwrap (p0 :: p1 :: rest) =
  p0 :: map (fun x => x + ph_correct (p1 - p0)) (np_unwrap (p1 :: rest)).
Proof.
  unfold np_unwrap, np_cumsum.
  change (np_diff (p0 :: p1 :: rest)) with ((p1 - p0) :: np_diff (p1 :: rest)).
  cbn [map cumsum_from]. unfold add_cells at 1. cbn [zip_with].
  fold (add_cells rest
          (cumsum_from (0 + ph_correct (p1 - p0))
             (map ph_correct (np_diff (p1 :: rest))))).
  rewrite cumsum_from_shift, add_cells_map_shift.
  f_equal. f_equal. ring.
Qed.

Lemma np_unwrap_shift (c : R) (p : list R) :
  forall p' : list R,
  Forall2 (fun x y => eq_mod_2PI y (x + c)) p p' ->
  no_tie p ->
  np_unwrap p' = map (fun x => x + (hd 0 p' - hd 0 p)) (np_unwrap p).
Proof.
  induction p as [| p0 rest IH]; intros p' HF Hnt.
  - inversion HF. reflexivity.
  - inversion HF as [| ? q0 ? rest' H0 Hrest]; subst.
    destruct rest as [| p1 rest].
    + inversion Hrest; subst. cbn. f_equal. ring.
    + inversion Hrest as [| ? q1 ? rest'' H1 Hrest']; subst.
      destruct Hnt as [Htie Hnt].
      rewrite !np_unwrap_cons2.
      rewrite (IH (q1 :: rest'') Hrest Hnt).
      cbn [hd map]. f_equal; [ring |].
      rewrite !map_map. apply map_ext. intros x.
      assert (Hcong : eq_mod_2PI (q1 - q0) (p1 - p0)).
      { destruct H0 as [k0 Hk0], H1 as [k1 Hk1].
        exists (k1 - k0)%Z. rewrite minus_IZR. lra. }
      pose proof (ph_correct_congruent (p1 - p0) (q1 - q0) Htie Hcong). lra.
Qed.

(** ** Interpolating shifted samples *)

Lemma spec_interp_shift (d : R) (xp : list R) :
  forall (fp : list R) (x : R),
  length fp = length xp -> (1 <= length xp)%nat ->
  spec_interp (combine xp (map (fun f => f + d) fp)) x =
  spec_interp (combine xp fp) x + d.
Proof.
  induction xp as [| a rest IH]; intros fp x Hlen Hpos; [cbn in Hpos; lia |].
  destruct fp as [| fa frest]; [discriminate |].
  destruct rest as [| b rest].
  - destruct frest; [reflexivity | discriminate].
  - destruct frest as [| fb frest]; [discriminate |].
    change (combine (a :: b :: rest) (map (fun f => f + d) (fa :: fb :: frest)))
      with ((a, fa + d)
              :: combine (b :: rest) (map (fun f => f + d) (fb :: frest))).
    change (combine (a :: b :: rest) (fa :: fb :: frest))
      with ((a, fa) :: combine (b :: rest) (fb :: frest)).
    cbn [spec_interp map combine].
    destruct (Rlt_dec x b).
    + destruct (Rle_dec x a); [reflexivity |].
      replace (fb + d - (fa + d)) with (fb - fa) by ring.
      unfold Rdiv. ring.
    + apply (IH (fb :: frest) x); cbn [length] in *; lia.
Qed.

Lemma interp_at_shift (d : R) (xp fp : list R) (x : R) :
  nondecreasing xp -> length fp = length xp -> (1 <= length xp)%nat ->
  interp_at xp (map (fun f => f + d) fp) x = interp_at xp fp x + d.
Proof.
  intros Hs Hlen Hpos.
  rewrite !interp_at_spec by (rewrite ?length_map; assumption).
  now apply spec_interp_shift.
Qed.

(** ** The range of [np.angle] *)

Lemma arctan2_range (y x : R) : - PI < arctan2 y x <= PI.
Proof.
  pose proof PI_RGT_0 as Hpi. unfold arctan2.
  pose proof (atan_bound (y / x)) as Hb.
  destruct (Rlt_dec 0 x) as [Hx | Hx]; [lra |].
  destruct (Rlt_dec x 0) as [Hx' | Hx'].
  - destruct (Rle_dec 0 y) as [Hy | Hy].
    + assert (Hq : y / x <= 0).
      { unfold Rdiv. assert (/ x < 0) by now apply Rinv_lt_0_compat. nra. }
      assert (atan (y / x) <= 0).
      { destruct Hq as [Hq | Hq].
        - apply Rlt_le. rewrite <- atan_0. now apply atan_increasing.
        - rewrite Hq, atan_0. lra. }
      lra.
    + assert (Hq : 0 < y / x).
      { unfold Rdiv. assert (/ x < 0) by now apply Rinv_lt_0_compat. nra. }
      assert (0 < atan (y / x))
        by (rewrite <- atan_0; now apply atan_increasing).
      lra.
  - destruct (Rlt_dec 0 y); [lra |].
    destruct (Rlt_dec y 0); lra.
Qed.

Lemma angle_range (z : C) : - PI < angle z <= PI.
Proof. apply arctan2_range. Qed.

Lemma half_turn_abs (a b : R) :
  - PI < a <= PI -> - PI < b <= PI ->
  eq_mod_2PI (b - a) PI -> Rabs (b - a) = PI.
Proof.
  intros Ha Hb [k Hk]. pose proof PI_RGT_0 as Hpi.
  assert (Hrange : -2 < IZR k < 1) by (split; nra).
  destruct Hrange as [Hlo Hhi].
  apply (lt_IZR (-2) k) in Hlo. apply (lt_IZR k 1) in Hhi.
  assert (Hk' : (k = -1 \/ k = 0)%Z) by lia.
  destruct Hk' as [-> | ->].
  - replace (b - a) with (- PI) by lra. rewrite Rabs_Ropp.
    apply Rabs_right. lra.
  - replace (b - a) with PI by lra. apply Rabs_right. lra.
Qed.

(** ** The round trip *)

Lemma nth_map_lt {A B : Type} (f : A -> B) (l : list A) (d : A) (d' : B)
    (j : nat) :
  (j < length l)%nat -> nth j (map f l) d' = f (nth j l d).
Proof.
  intros Hj. rewrite (nth_indep _ d' (f d)) by now rewrite length_map.
  apply map_nth.
Qed.

Lemma eq_mod_2PI_plus (a b a' b' : R) :
  eq_mod_2PI a b -> eq_mod_2PI a' b' -> eq_mod_2PI (a + a') (b + b').
Proof.
  intros [k ->] [m ->]. exists (k + m)%Z. rewrite plus_IZR. lra.
Qed.

Lemma eq_mod_2PI_opp (a b : R) : eq_mod_2PI a b -> eq_mod_2PI (- a) (- b).
Proof.
  intros [k ->]. exists (- k)%Z. rewrite opp_IZR. lra.
Qed.

Lemma Cscale_1 (z : C) : Cscale 1 z = z.
Proof. c_eq; lra. Qed.

Lemma cis_nonzero (a : R) : cis a <> Czero.
Proof.
  rewrite <- (Cscale_1 (cis a)). apply scale_cis_nonzero. lra.
Qed.

Lemma angle_cis (a : R) : eq_mod_2PI (angle (cis a)) a.
Proof.
  apply cis_inj_mod. rewrite <- (Cscale_1 (cis a)) at 1.
  apply cis_angle_scale. lra.
Qed.

Lemma Csum_const {A : Type} (w : C) (l : list A) :
  Csum (map (fun _ => w) l) = Cscale (INR (length l)) w.
Proof.
  induction l as [| x l IH].
  - cbn [map length]. rewrite Csum_nil. c_eq; lra.
  - cbn [map]. rewrite Csum_cons, IH. cbn [length]. rewrite S_INR.
    c_eq; lra.
Qed.

Lemma np_mean_const {A : Type} (w : C) (l : list A) :
  (1 <= length l)%nat -> np_mean (Known (map (fun _ => w) l)) = Some w.
Proof.
  intros Hl. rewrite np_mean_nonempty by now rewrite length_map.
  rewrite Csum_const, length_map. apply f_equal.
  assert (Hn : INR (length l) <> 0) by (apply not_0_INR; lia).
  apply C_eq; unfold Cscale; cbn [Re Im fst snd]; field; exact Hn.
Qed.

(** Against the synthetic heading every ratio is the unit vector of angle
    [- c]. *)
Lemma ratio_synthetic (c : R) (A : list R) :
  div_cells (np_exp_1j A)
            (np_exp_1j (map (fun a => a + c) (np_angle (np_exp_1j A)))) =
  map (fun _ => cis (- c)) A.
Proof.
  unfold div_cells, np_exp_1j, np_angle. rewrite !map_map.
  rewrite zip_with_map. apply map_ext. intros x.
  rewrite Cdiv_cis. apply cis_eq_mod.
  replace (- c) with (x + (- x + - c)) by ring.
  replace (x - (angle (cis x) + c)) with (x + (- angle (cis x) + - c)) by ring.
  apply eq_mod_2PI_plus; [apply eq_mod_2PI_refl |].
  apply eq_mod_2PI_plus; [| apply eq_mod_2PI_refl].
  apply eq_mod_2PI_opp, angle_cis.
Qed.

Lemma length_synthetic_heading (it : list R) (zs : list C) (vt : list R)
    (c : R) :
  length (synthetic_heading it zs vt c) = length vt.
Proof.
  unfold synthetic_heading, interpolated_angle, np_angle, np_exp_1j.
  now rewrite !length_map.
Qed.

Lemma valid_roundtrip_session (it : list R) (zs : list C) (vt : list R)
    (c : R) :
  length zs = length it -> (1 <= length it)%nat -> nondecreasing it ->
  valid_session (session it (Known zs) vt (synthetic_heading it zs vt c))
                l_it l_ph l_vt l_vh.
Proof.
  intros HT Hpos Hs. unfold valid_session. cbn [session f64 c128 l_it l_ph l_vt l_vh size].
  repeat split; try assumption. apply length_synthetic_heading.
Qed.

Lemma offset_roundtrip (it : list R) (zs : list C) (vt : list R) (c : R) :
  length zs = length it -> (1 <= length it)%nat -> nondecreasing it ->
  (1 <= length vt)%nat ->
  offset_of (session it (Known zs) vt (synthetic_heading it zs vt c))
            l_it l_ph l_vt l_vh = ok (Some (cis (- c))).
Proof.
  intros HT Hpos Hs HV.
  rewrite (offset_of_known
             (session it (Known zs) vt (synthetic_heading it zs vt c))
             l_it l_ph l_vt l_vh zs eq_refl
             (valid_roundtrip_session it zs vt c HT Hpos Hs)).
  cbn [session f64 l_it l_vt l_vh].
  unfold synthetic_heading. rewrite ratio_synthetic. apply f_equal.
  apply np_mean_const. unfold interpolated_angle. now rewrite length_map.
Qed.

Lemma heap_roundtrip (it : list R) (zs : list C) (vt : list R) (c : R) :
  length zs = length it -> (1 <= length it)%nat -> nondecreasing it ->
  (1 <= length vt)%nat ->
  c128 (st_heap (snd (plot_phase_and_heading l_it l_ph l_vt l_vh true
          (mkState (session it (Known zs) vt (synthetic_heading it zs vt c))
                   no_axes)))) l_ph =
  Known (map (fun z => Cdiv z (cis (- c))) zs).
Proof.
  intros HT Hpos Hs HV.
  rewrite (plot_heap_true l_it l_ph l_vt l_vh
             (mkState (session it (Known zs) vt (synthetic_heading it zs vt c))
                      no_axes)
             (Some (cis (- c))) (offset_roundtrip it zs vt c HT Hpos Hs HV)).
  cbn [st_heap heap_divided c128 session l_ph Nat.eqb].
  unfold divide_by.
  destruct (Ceq_zero_dec (cis (- c))) as [Hz | _]; [| reflexivity].
  now apply cis_nonzero in Hz.
Qed.

Lemma angle_rotated (z : C) (c : R) :
  z <> Czero ->
  eq_mod_2PI (angle (Cdiv z (cis (- c)))) (angle z + c).
Proof.
  intros Hz.
  apply eq_mod_2PI_trans with (angle z - angle (cis (- c))).
  - apply angle_Cdiv; [exact Hz | apply cis_nonzero].
  - replace (angle z - angle (cis (- c)))
      with (angle z + - angle (cis (- c))) by ring.
    apply eq_mod_2PI_plus; [apply eq_mod_2PI_refl |].
    replace c with (- - c) at 2 by ring.
    apply eq_mod_2PI_opp, angle_cis.
Qed.

Lemma angles_rotated (c : R) (zs : list C) :
  (forall k, (k < length zs)%nat -> nth k zs Czero <> Czero) ->
  Forall2 (fun x y => eq_mod_2PI y (x + c))
          (np_angle zs)
          (np_angle (map (fun z => Cdiv z (cis (- c))) zs)).
Proof.
  induction zs as [| z zs IH]; intros Hnz; cbn; constructor.
  - apply angle_rotated. apply (Hnz 0%nat). cbn. lia.
  - apply IH. intros k Hk. apply (Hnz (S k)). cbn. lia.
Qed.

Lemma no_tie_angles (zs : list C) :
  (forall k, (S k < length zs)%nat ->
     Rabs (angle (nth (S k) zs Czero) - angle (nth k zs Czero)) <> PI) ->
  no_tie (np_angle zs).
Proof.
  induction zs as [| z0 zs IH]; intros Habs; [exact I |].
  destruct zs as [| z1 zs]; [exact I |].
  change (np_angle (z0 :: z1 :: zs))
    with (angle z0 :: angle z1 :: np_angle zs).
  cbn [no_tie]. split.
  - intros Htie. apply (Habs 0%nat); [cbn; lia |].
    cbn [nth]. apply half_turn_abs; [apply angle_range .. | exact Htie].
  - apply IH. intros k Hk. apply (Habs (S k)). cbn [length] in *. lia.
Qed.

(** After the round trip the unwrapped angle is the unwrapped angle of
    the phase plus a constant, congruent to [c]. *)
Lemma unwrap_rotated (c : R) (zs : list C) :
  (1 <= length zs)%nat ->
  (forall k, (k < length zs)%nat -> nth k zs Czero <> Czero) ->
  (forall k, (S k < length zs)%nat ->
     Rabs (angle (nth (S k) zs Czero) - angle (nth k zs Czero)) <> PI) ->
  exists d : R,
    eq_mod_2PI d c /\
    np_unwrap (np_angle (map (fun z => Cdiv z (cis (- c))) zs)) =
    map (fun x => x + d) (np_unwrap (np_angle zs)).
Proof.
  intros Hpos Hnz Habs.
  pose proof (angles_rotated c zs Hnz) as HF.
  pose proof (no_tie_angles zs Habs) as Hnt.
  exists (hd 0 (np_angle (map (fun z => Cdiv z (cis (- c))) zs))
          - hd 0 (np_angle zs)).
  split.
  - destruct zs as [| z0 zs]; [cbn in Hpos; lia |].
    cbn [map np_angle hd].
    inversion HF as [| ? ? ? ? [k Hk] _]; subst.
    exists k. cbn [np_angle map hd]. lra.
  - exact (np_unwrap_shift c _ _ HF Hnt).
Qed.

(** ** Why the amended round trip excludes zero samples and half turns *)

Lemma quarter_turn_not_zero : ~ eq_mod_2PI 0 (PI / 2).
Proof.
  intros H. apply quarter_turn_not_mod_2PI.
  now replace (0 - - (PI / 2)) with (PI / 2) by ring.
Qed.

Lemma half_turn_not_zero : ~ eq_mod_2PI 0 PI.
Proof.
  intros [k Hk].
  assert (H : PI * (1 + 2 * IZR k) = 0) by lra.
  apply Rmult_integral in H. destruct H as [H | H].
  - now apply PI_neq0.
  - assert (H' : IZR (1 + 2 * k) = 0) by (rewrite plus_IZR, mult_IZR; lra).
    apply eq_IZR_R0 in H'. lia.
Qed.

Lemma cis_minus_PI2 : cis (- (PI / 2)) = (0, -1).
Proof.
  unfold cis. now rewrite cos_neg, sin_neg, cos_PI2, sin_PI2.
Qed.

(** With a zero sample the round trip fails even modulo 2 PI. *)
Lemma roundtrip_zero_sample_fails :
  ~ roundtrip eq_mod_2PI [0] [(0, 0)] [0] (PI / 2).
Proof.
  unfold roundtrip. intros (corrected & Hheap & Hall).
  rewrite heap_roundtrip in Hheap by (cbn; try lia; exact I).
  injection Hheap as <-.
  specialize (Hall 0%nat ltac:(cbn; lia)).
  pose proof (Cdiv_zero_l (cis (- (PI / 2)))) as Hz. unfold Czero in Hz.
  unfold synthetic_heading, interpolated_angle, np_angle, np_exp_1j in Hall.
  cbn [map nth np_unwrap np_diff np_cumsum cumsum_from add_cells zip_with]
    in Hall.
  rewrite Hz, !interp_at_single, angle_zero, cis_0, angle_one in Hall.
  rewrite Rplus_0_l in Hall. now apply quarter_turn_not_zero.
Qed.

Lemma np_mod_unique (x y r : R) (k : Z) :
  0 < y -> x = r + IZR k * y -> 0 <= r < y -> np_mod x y = r.
Proof.
  intros Hy Hx Hr. pose proof (np_mod_bounds x y Hy) as Hb.
  unfold np_mod in *. set (m := Int_part (x / y)) in *.
  assert (Hkm : (k = m)%Z).
  { assert (H1 : -1 < IZR (k - m) < 1).
    { rewrite minus_IZR. split; nra. }
    destruct H1 as [Hlo Hhi].
    apply (lt_IZR (-1) (k - m)) in Hlo. apply (lt_IZR (k - m) 1) in Hhi. lia. }
  subst m. rewrite <- Hkm. lra.
Qed.

(** On a difference of half a turn [np.unwrap] corrects nothing. *)
Lemma ph_correct_half_turn (dd : R) : Rabs dd = PI -> ph_correct dd = 0.
Proof.
  intros Habs. pose proof PI_RGT_0 as Hpi.
  unfold ph_correct. replace (2 * PI / 2) with PI by field.
  destruct (Rlt_dec (Rabs dd) PI) as [Hlt | _]; [lra |].
  assert (Hdd : dd = PI \/ dd = - PI).
  { unfold Rabs in Habs. destruct (Rcase_abs dd); [right | left]; lra. }
  destruct Hdd as [-> | ->].
  - rewrite (np_mod_unique (PI - - PI) (2 * PI) 0 1) by (try split; lra).
    destruct (Req_dec_T (0 + - PI) (- PI)) as [_ | Hn]; [| lra].
    destruct (Rlt_dec 0 PI); lra.
  - rewrite (np_mod_unique (- PI - - PI) (2 * PI) 0 0) by (try split; lra).
    destruct (Req_dec_T (0 + - PI) (- PI)) as [_ | Hn]; [| lra].
    destruct (Rlt_dec 0 (- PI)); lra.
Qed.

Lemma angle_minus_one : angle (-1, 0) = PI.
Proof.
  unfold angle, arctan2. cbn [Re Im fst snd].
  destruct (Rlt_dec 0 (-1)); [lra |].
  destruct (Rlt_dec (-1) 0); [| lra].
  destruct (Rle_dec 0 0); [| lra].
  unfold Rdiv. rewrite Rmult_0_l, atan_0. ring.
Qed.

Lemma angle_i : angle (0, 1) = PI / 2.
Proof.
  unfold angle, arctan2. cbn [Re Im fst snd].
  destruct (Rlt_dec 0 0); [lra |].
  destruct (Rlt_dec 0 1); [reflexivity | lra].
Qed.

Lemma interp_at_midpoint (f0 f1 : R) :
  interp_at [0; 1] [f0; f1] (1 / 2) = (f0 + f1) / 2.
Proof.
  rewrite interp_at_spec;
    [| cbn; split; [lra | exact I] | reflexivity | cbn; lia].
  cbn [combine spec_interp].
  destruct (Rlt_dec (1 / 2) 1); [| lra].
  destruct (Rle_dec (1 / 2) 0); [lra |]. field.
Qed.

(** With two successive samples half a turn apart the round trip fails
    even modulo 2 PI: [np.unwrap] breaks the tie one way before the
    rotation and the other way after it. *)
Lemma roundtrip_half_turn_fails :
  ~ roundtrip eq_mod_2PI [0; 1] [(1, 0); (-1, 0)] [1 / 2] (PI / 2).
Proof.
  unfold roundtrip. intros (corrected & Hheap & Hall).
  rewrite heap_roundtrip in Hheap
    by (cbn; first [lia | split; [lra | exact I]]).
  injection Hheap as <-.
  specialize (Hall 0%nat ltac:(cbn; lia)).
  assert (Hz0 : Cdiv (1, 0) (0, -1) = (0, 1)) by (c_eq; field).
  assert (Hz1 : Cdiv (-1, 0) (0, -1) = (0, -1)) by (c_eq; field).
  pose proof PI_RGT_0 as Hpi.
  unfold synthetic_heading, interpolated_angle, np_angle, np_exp_1j in Hall.
  cbn [map nth] in Hall.
  rewrite cis_minus_PI2, Hz0, Hz1, !np_unwrap_cons2 in Hall.
  rewrite angle_one, angle_minus_one, angle_i, angle_minus_i in Hall.
  rewrite (ph_correct_half_turn (PI - 0)) in Hall
    by (rewrite Rabs_right; lra).
  rewrite (ph_correct_half_turn (- (PI / 2) - PI / 2)) in Hall
    by (rewrite Rabs_left; lra).
  cbn [np_unwrap map add_cells zip_with] in Hall.
  rewrite !interp_at_midpoint in Hall.
  replace ((0 + (PI + 0)) / 2) with (PI / 2) in Hall by field.
  replace ((PI / 2 + (- (PI / 2) + 0)) / 2) with 0 in Hall by field.
  rewrite cis_PI2, angle_i in Hall.
  replace (PI / 2 + PI / 2) with PI in Hall by field.
  now apply half_turn_not_zero.
Qed.

(** * Properties of [to_phase] *)

(** C1.  For a fluorescence array of shape (R, T) with R >= 2, [to_phase]
    is the reference definition: R unit vectors at R equally spaced angles
    on [-PI, PI], reordered as the even indices followed by the odd ones,
    and summed against the fluorescence at each time sample; the first and
    the last unit vector are the same vector. *)
Theorem to_phase_refines_spec (a : array2) :
  wf_array2 a -> (2 <= shape0 a)%nat ->
  to_phase a = ok (spec_compute_phase a) /\
  nth 0 (np_exp_1j (np_linspace (- PI) PI (shape0 a))) Czero =
  nth (shape0 a - 1) (np_exp_1j (np_linspace (- PI) PI (shape0 a))) Czero.
Proof.
  intros Hwf Hn. split.
  - rewrite to_phase_cells by assumption.
    unfold spec_compute_phase. now rewrite circ_of_spec.
  - rewrite np_linspace_spec_angles by assumption.
    unfold np_exp_1j, spec_angles. rewrite map_map.
    rewrite !nth_map_seq by lia.
    assert (Hm : INR (shape0 a - 1) <> 0) by (apply not_0_INR; lia).
    replace (- PI + INR 0 * (2 * PI / INR (shape0 a - 1))) with (- PI)
      by (cbn [INR]; lra).
    replace (- PI + INR (shape0 a - 1) * (2 * PI / INR (shape0 a - 1)))
      with PI by (field; exact Hm).
    unfold cis. now rewrite cos_neg, sin_neg, sin_PI, Ropp_0.
Qed.

Lemma to_phase_refines_spec_witness :
  to_phase (mkArray2 2 2 [[1; 2]; [3; 4]]) =
  ok (spec_compute_phase (mkArray2 2 2 [[1; 2]; [3; 4]])) /\
  nth 0 (np_exp_1j (np_linspace (- PI) PI 2)) Czero =
  nth 1 (np_exp_1j (np_linspace (- PI) PI 2)) Czero.
Proof.
  apply (to_phase_refines_spec (mkArray2 2 2 [[1; 2]; [3; 4]])).
  - split; [reflexivity | repeat constructor].
  - simpl. lia.
Defined.

(** C7.  [to_phase] is linear: on arrays X and Y of one shape and for
    scalars a and b, the phase of a*X + b*Y is a times the phase of X plus
    b times the phase of Y. *)
Theorem to_phase_linear (a b : R) (X Y : array2) :
  wf_array2 X -> wf_array2 Y ->
  shape0 X = shape0 Y -> shape1 X = shape1 Y ->
  exists P Q : list C,
    to_phase X = ok P /\ to_phase Y = ok Q /\
    to_phase (lincomb2 a X b Y) = ok (lincomb1 a P b Q).
Proof.
  intros HX HY H0 H1.
  pose proof (wf_lincomb2 a b X Y HX HY H0 H1) as HL.
  rewrite (to_phase_cells X HX), (to_phase_cells Y HY), (to_phase_cells _ HL).
  do 2 eexists. split; [reflexivity |]. split; [reflexivity |].
  f_equal. unfold lincomb1. cbn [lincomb2 shape0 shape1].
  rewrite <- H0, <- H1, zip_with_map.
  apply map_ext_in. intros t Ht. apply in_seq in Ht.
  rewrite !Cmul_RtoC_l.
  apply Csum_map_lincomb. intros r Hr. apply in_seq in Hr.
  change (mkArray2 (shape0 X) (shape1 X)
            (zip_with (zip_with (fun x y => a * x + b * y)) (rows X) (rows Y)))
    with (lincomb2 a X b Y).
  rewrite item_lincomb2 by (assumption || lia).
  c_eq; lra.
Qed.

Lemma to_phase_linear_witness :
  exists P Q : list C,
    to_phase (mkArray2 2 1 [[1]; [2]]) = ok P /\
    to_phase (mkArray2 2 1 [[3]; [5]]) = ok Q /\
    to_phase (lincomb2 2 (mkArray2 2 1 [[1]; [2]]) 3 (mkArray2 2 1 [[3]; [5]]))
    = ok (lincomb1 2 P 3 Q).
Proof.
  apply (to_phase_linear 2 3 (mkArray2 2 1 [[1]; [2]]) (mkArray2 2 1 [[3]; [5]])).
  - split; [reflexivity | repeat constructor].
  - split; [reflexivity | repeat constructor].
  - reflexivity.
  - reflexivity.
Defined.

(** * Properties of [plot_phase_and_heading] *)

(** C3, as stated, fails: the call returns None, not an array. *)
Lemma returns_array_counterexample :
  ~ (exists zs' : list C,
       fst (plot_phase_and_heading l_it l_ph l_vt l_vh true
              (mkState demo_session no_axes))
       = ok (PyComplexArray (Known zs')) /\
       length zs' = 2%nat).
Proof.
  intros (zs' & Hret & _).
  destruct (offset_of_valid _ _ _ _ _ valid_demo_session) as [offset Hoff].
  rewrite (plot_run_true l_it l_ph l_vt l_vh _ offset) in Hret;
    [discriminate | exact Hoff | reflexivity | reflexivity].
Qed.

(** C5.  With [subtract_offset] false nothing is written: after the call
    the heap, and with it the phase array, is what it was before. *)
Theorem no_offset_heap_unchanged (it ph vt vh : loc) (st : state) :
  st_heap (snd (plot_phase_and_heading it ph vt vh false st)) = st_heap st.
Proof.
  apply plot_heap_false.
Qed.

(** C6, as stated, fails: with the constant 2 PI the heading is 2 PI and
    the angle of the corrected phase is 0. *)
Lemma roundtrip_counterexample :
  ~ roundtrip (within (1 / 1000000)) [0] [(1, 0)] [0] (2 * PI).
Proof.
  unfold roundtrip. intros (corrected & Hheap & Hall).
  rewrite heap_roundtrip in Hheap by (cbn; try lia; exact I).
  injection Hheap as <-.
  specialize (Hall 0%nat ltac:(cbn; lia)).
  assert (Hw : cis (- (2 * PI)) = (1, 0)).
  { unfold cis. rewrite cos_neg, sin_neg, cos_2PI, sin_2PI. f_equal. ring. }
  assert (Hz : Cdiv (1, 0) (1, 0) = (1, 0)) by (c_eq; field).
  unfold synthetic_heading, interpolated_angle, np_angle, np_exp_1j, within
    in Hall.
  cbn [map nth np_unwrap np_diff np_cumsum cumsum_from add_cells zip_with]
    in Hall.
  rewrite Hw, Hz, !interp_at_single, angle_one, cis_0, angle_one in Hall.
  pose proof PI2_1 as Hpi.
  replace (0 - (0 + 2 * PI)) with (- (2 * PI)) in Hall by ring.
  rewrite Rabs_Ropp, Rabs_right in Hall by lra. lra.
Qed.

(** C6, amended.  If no phase sample is zero and no two successive samples
    are half a turn apart, and the heading is the angle of the phase
    interpolated onto the behavioural timestamps plus a constant, then the
    angle of the corrected phase, interpolated onto the behavioural
    timestamps, is the heading modulo 2 PI. *)
Theorem roundtrip_mod_2PI
    (it : list R) (zs : list C) (vt : list R) (c : R) :
  length zs = length it ->
  (1 <= length it)%nat ->
  nondecreasing it ->
  (1 <= length vt)%nat ->
  (forall k, (k < length zs)%nat -> nth k zs Czero <> Czero) ->
  (forall k, (S k < length zs)%nat ->
     Rabs (angle (nth (S k) zs Czero) - angle (nth k zs Czero)) <> PI) ->
  roundtrip eq_mod_2PI it zs vt c.
Proof.
  intros HT Hpos Hs HV Hnz Habs. unfold roundtrip.
  exists (map (fun z => Cdiv z (cis (- c))) zs).
  split; [now apply heap_roundtrip |].
  intros j Hj.
  destruct (unwrap_rotated c zs ltac:(lia) Hnz Habs) as (d & Hd & Hun).
  unfold synthetic_heading, interpolated_angle. rewrite Hun.
  unfold np_angle at 2. unfold np_exp_1j. rewrite !map_map.
  rewrite (nth_map_lt _ vt 0 0 j Hj), (nth_map_lt _ vt 0 0 j Hj).
  rewrite interp_at_shift;
    [| assumption
     | unfold np_angle; now rewrite length_np_unwrap, length_map
     | assumption].
  apply eq_mod_2PI_plus; [| exact Hd].
  apply eq_mod_2PI_sym, angle_cis.
Qed.

Lemma roundtrip_mod_2PI_witness :
  roundtrip eq_mod_2PI [0; 1] [(1, 0); (0, 1)] [0; 1] 1.
Proof.
  apply (roundtrip_mod_2PI [0; 1] [(1, 0); (0, 1)] [0; 1] 1).
  - reflexivity.
  - simpl. lia.
  - simpl. split; [lra | exact I].
  - simpl. lia.
  - intros [| [| k]] Hk; simpl in Hk; try lia; simpl; unfold Czero;
      intros H; inversion H; lra.
  - intros [| k] Hk; simpl in Hk; try lia.
    simpl nth. rewrite angle_one, angle_i. pose proof PI_RGT_0.
    rewrite Rabs_right by lra. lra.
Defined.

(** C8, as stated, fails: without behavioural samples nothing is raised. *)
Lemma empty_behaviour_counterexample :
  ~ (exists e : exn,
       fst (plot_phase_and_heading l_it l_ph l_vt l_vh true
              (mkState no_behaviour_session no_axes))
       = raise e).
Proof.
  intros (e & Hraise).
  rewrite (plot_run_true l_it l_ph l_vt l_vh _ None) in Hraise;
    [discriminate | reflexivity | reflexivity | reflexivity].
Qed.

(** C8, amended.  On a valid session without behavioural samples the call
    raises nothing: it returns None, and the phase array is left with one
    non-finite cell for every imaging timestamp. *)
Theorem empty_behaviour_returns
    (h : heap) (it ph vt vh : loc) (ax : Axes) :
  valid_session h it ph vt vh ->
  f64 h vt = [] ->
  let out := plot_phase_and_heading it ph vt vh true (mkState h ax) in
  fst out = ok PyNone /\
  c128 (st_heap (snd out)) ph = Lost (length (f64 h it)).
Proof.
  intros Hvalid Hvt out. subst out.
  pose proof (offset_of_no_behaviour h it ph vt vh Hvalid Hvt) as Hoff.
  destruct Hvalid as (HT & _ & _ & HV).
  rewrite (plot_run_true it ph vt vh (mkState h ax) None Hoff HT HV).
  cbn [fst snd st_heap heap_divided c128]. rewrite Nat.eqb_refl.
  split; [reflexivity |].
  rewrite <- HT. now destruct (c128 h ph).
Qed.

Lemma empty_behaviour_returns_witness :
  let out :=
    plot_phase_and_heading l_it l_ph l_vt l_vh true
      (mkState no_behaviour_session no_axes) in
  fst out = ok PyNone /\
  c128 (st_heap (snd out)) l_ph = Lost 1.
Proof.
  apply (empty_behaviour_returns no_behaviour_session l_it l_ph l_vt l_vh
           no_axes).
  - unfold valid_session. simpl. repeat split; lia.
  - reflexivity.
Defined.

Lemma offset_zero_sample_session :
  offset_of zero_sample_session l_it l_ph l_vt l_vh
  = ok (Some (cis (- (1 / 2)))).
Proof.
  rewrite (offset_of_spec zero_sample_session l_it l_ph l_vt l_vh [(0, 0)]);
    [| reflexivity
     | unfold valid_session; cbn; repeat split; lia
     | cbn; lia].
  change (f64 zero_sample_session l_it) with [0].
  change (f64 zero_sample_session l_vt) with [0].
  change (f64 zero_sample_session l_vh) with [1 / 2].
  transitivity (@ok (option C) (Some (Cdiv (cis 0) (cis (1 / 2))))).
  - exact (f_equal (fun x : C => @ok (option C) (Some x))
             (spec_offset_single 0 0 0 (1 / 2) (0, 0) angle_zero)).
  - rewrite Cdiv_cis. now replace (0 - 1 / 2) with (- (1 / 2)) by lra.
Qed.

Lemma half_radian_not_mod_2PI (a : R) :
  eq_mod_2PI a (- (1 / 2)) -> ~ eq_mod_2PI 0 (0 - a).
Proof.
  intros [k Hk] [k' Hk'].
  assert (H : eq_mod_2PI (1 / 2) 0).
  { exists (k - k')%Z. rewrite minus_IZR. lra. }
  apply eq_mod_2PI_small in H; [lra |].
  pose proof PI2_1. lra.
Qed.

(** C10, as stated, fails on a zero sample.  With the phase [0] and the
    heading 1/2 the offset is the unit vector of angle -1/2; the quotient
    is zero (in numpy 0+0j, both zeros positive, the offset having the
    larger, positive real part), and its angle is 0 before and after the
    division, not 1/2. *)
Lemma zero_sample_counterexample :
  let out :=
    plot_phase_and_heading l_it l_ph l_vt l_vh true
      (mkState zero_sample_session no_axes) in
  let w := cis (- (1 / 2)) in
  offset_of zero_sample_session l_it l_ph l_vt l_vh = ok (Some w) /\
  w <> Czero /\
  c128 (st_heap (snd out)) l_ph = Known [(0, 0)] /\
  ~ eq_mod_2PI (angle (0, 0)) (angle (0, 0) - angle w).
Proof.
  cbv zeta.
  split; [apply offset_zero_sample_session |].
  split; [apply cis_nonzero |].
  split.
  - rewrite (plot_heap_true l_it l_ph l_vt l_vh
               (mkState zero_sample_session no_axes) (Some (cis (- (1 / 2))))
               offset_zero_sample_session).
    cbn [st_heap heap_divided c128]. rewrite Nat.eqb_refl.
    change (c128 zero_sample_session l_ph) with (Known [(0, 0)]).
    unfold divide_by.
    destruct (Ceq_zero_dec (cis (- (1 / 2)))) as [Hz | _];
      [now apply cis_nonzero in Hz |].
    cbn [map]. pose proof (Cdiv_zero_l (cis (- (1 / 2)))) as E.
    unfold Czero in E. now rewrite E.
  - rewrite angle_zero. apply half_radian_not_mod_2PI, angle_cis.
Qed.

(** C10, amended.  When the offset is a non-zero number, dividing by it
    scales the modulus of every sample by the inverse of the modulus of the
    offset, and turns every non-zero sample by minus the angle of the
    offset: the quotient is the unit vector of the difference of the two
    angles, scaled, and its angle is that difference modulo 2 PI; these
    angles are the ones drawn. *)
Theorem offset_division_rotates
    (h : heap) (it ph vt vh : loc) (zs : list C) (ax : Axes) (w : C) :
  c128 h ph = Known zs ->
  valid_session h it ph vt vh ->
  offset_of h it ph vt vh = ok (Some w) ->
  w <> Czero ->
  let out := plot_phase_and_heading it ph vt vh true (mkState h ax) in
  exists zs' : list C,
    c128 (st_heap (snd out)) ph = Known zs' /\
    length zs' = length zs /\
    last (lines (st_axes (snd out))) (heading_line h vt vh) =
      mkLine (f64 h it) (Known (np_angle zs')) "EPG phase" /\
    forall k : nat, (k < length zs)%nat ->
      Cabs (nth k zs' Czero) = Cabs (nth k zs Czero) / Cabs w /\
      (nth k zs Czero <> Czero ->
       nth k zs' Czero =
         Cscale (Cabs (nth k zs Czero) / Cabs w)
                (cis (angle (nth k zs Czero) - angle w)) /\
       eq_mod_2PI (angle (nth k zs' Czero))
                  (angle (nth k zs Czero) - angle w)).
Proof.
  intros Hph (HT & _ & _ & HV) Hoff Hw out. subst out.
  exists (map (fun z => Cdiv z w) zs).
  rewrite (plot_run_true it ph vt vh (mkState h ax) (Some w) Hoff HT HV).
  cbn [fst snd st_heap st_axes lines heap_divided c128].
  rewrite last_app_two.
  assert (Hdiv : divide_by (c128 h ph) (Some w) =
                 Known (map (fun z => Cdiv z w) zs)).
  { rewrite Hph. unfold divide_by.
    destruct (Ceq_zero_dec w); [contradiction | reflexivity]. }
  rewrite Nat.eqb_refl, Hdiv.
  split; [reflexivity |]. split; [apply length_map |]. split.
  - unfold phase_line, heap_divided. cbn [c128 f64].
    now rewrite Nat.eqb_refl, Hdiv.
  - intros k Hk.
    assert (E : nth k (map (fun z => Cdiv z w) zs) Czero =
                Cdiv (nth k zs Czero) w).
    { transitivity (nth k (map (fun z => Cdiv z w) zs) (Cdiv Czero w)).
      - f_equal. symmetry. apply Cdiv_zero_l.
      - apply (map_nth (fun z => Cdiv z w)). }
    rewrite E.
    split; [now apply Cabs_Cdiv |].
    intros Hz. split; [now apply Cdiv_polar_form | now apply angle_Cdiv].
Qed.

Lemma offset_division_rotates_witness :
  let out :=
    plot_phase_and_heading l_it l_ph l_vt l_vh true
      (mkState (single_sample_session (1, 0)) no_axes) in
  exists zs' : list C,
    c128 (st_heap (snd out)) l_ph = Known zs' /\
    length zs' = length [(1, 0)] /\
    last (lines (st_axes (snd out)))
         (heading_line (single_sample_session (1, 0)) l_vt l_vh) =
      mkLine (f64 (single_sample_session (1, 0)) l_it) (Known (np_angle zs'))
             "EPG phase" /\
    forall k : nat, (k < length [(1, 0)])%nat ->
      Cabs (nth k zs' Czero) = Cabs (nth k [(1, 0)] Czero) / Cabs (0, -1) /\
      (nth k [(1, 0)] Czero <> Czero ->
       nth k zs' Czero =
         Cscale (Cabs (nth k [(1, 0)] Czero) / Cabs (0, -1))
                (cis (angle (nth k [(1, 0)] Czero) - angle (0, -1))) /\
       eq_mod_2PI (angle (nth k zs' Czero))
                  (angle (nth k [(1, 0)] Czero) - angle (0, -1))).
Proof.
  apply (offset_division_rotates (single_sample_session (1, 0))
           l_it l_ph l_vt l_vh [(1, 0)] no_axes (0, -1)).
  - reflexivity.
  - unfold valid_session. simpl. repeat split; lia.
  - apply offset_single_sample_session, angle_one.
  - apply minus_i_nonzero.
Defined.

(** * Further properties of [to_phase] *)

(** ** Sums *)

Lemma fold_Rplus_acc (l : list R) (acc : R) :
  fold_left Rplus l acc = acc + Rsum l.
Proof.
  unfold Rsum. revert acc.
  induction l as [| x l IH]; intros acc; cbn; [ring |].
  rewrite IH, (IH (0 + x)). ring.
Qed.

Lemma Rsum_cons (x : R) (l : list R) : Rsum (x :: l) = x + Rsum l.
Proof.
  unfold Rsum at 1. cbn. rewrite fold_Rplus_acc. ring.
Qed.

Lemma Csum_app (l m : list C) : Csum (l ++ m) = Cadd (Csum l) (Csum m).
Proof.
  induction l as [| x l IH]; cbn [app].
  - rewrite Csum_nil. now rewrite Cadd_zero_l.
  - rewrite !Csum_cons, IH. apply Cadd_assoc.
Qed.

Lemma Csum_perm (l m : list C) : Permutation l m -> Csum l = Csum m.
Proof.
  induction 1 as [| x l m _ IH | x y l | l m n _ IH1 _ IH2].
  - reflexivity.
  - now rewrite !Csum_cons, IH.
  - rewrite !Csum_cons, !Cadd_assoc. f_equal. apply Cadd_comm.
  - now rewrite IH1.
Qed.

Lemma Csum_map_Cmul {A : Type} (w : C) (g : A -> C) (l : list A) :
  Csum (map (fun k => Cmul w (g k)) l) = Cmul w (Csum (map g l)).
Proof.
  induction l as [| x l IH]; cbn [map].
  - rewrite Csum_nil. c_eq; ring.
  - rewrite !Csum_cons, IH. c_eq; ring.
Qed.

(** ** The reordering is a permutation *)

Lemma slices_perm {A : Type} (l : list A) :
  Permutation (slice_from0_step2 l ++ slice_from1_step2 l) l.
Proof.
  unfold slice_from1_step2.
  induction l as [| x l IH]; [constructor |].
  rewrite slice_from0_step2_cons. cbn [tl app].
  constructor. eapply Permutation_trans; [apply Permutation_app_comm | exact IH].
Qed.

Lemma Cabs_cis (a : R) : Cabs (cis a) = 1.
Proof.
  rewrite <- (Cscale_1 (cis a)). apply Cabs_scale_cis. lra.
Qed.

Lemma circ_of_perm (n : nat) :
  Permutation (circ_of n) (np_exp_1j (np_linspace (- PI) PI n)).
Proof.
  unfold circ_of. apply slices_perm.
Qed.

Lemma circ_of_unit (n : nat) : Forall (fun z => Cabs z = 1) (circ_of n).
Proof.
  apply (Permutation_Forall (Permutation_sym (circ_of_perm n))).
  unfold np_exp_1j. apply Forall_forall. intros z Hz.
  apply in_map_iff in Hz. destruct Hz as (a & <- & _). apply Cabs_cis.
Qed.

(** ** The unit vectors sum to minus one *)

Lemma cis_plus (a b : R) : cis (a + b) = Cmul (cis b) (cis a).
Proof.
  unfold cis, Cmul. cbn [Re Im fst snd]. rewrite cos_plus, sin_plus.
  f_equal; ring.
Qed.

Lemma cis_2PI_shift (a : R) : cis (a + 2 * PI) = cis a.
Proof.
  replace (a + 2 * PI) with (a + 2 * PI * IZR 1) by (cbn; ring).
  apply cis_period.
Qed.

Lemma cis_not_one (d : R) : 0 < d < 2 * PI -> cos d < 1.
Proof.
  intros [Hlo Hhi].
  destruct (Rle_lt_or_eq_dec (cos d) 1) as [Hlt | Heq];
    [pose proof (COS_bound d); lra | exact Hlt |].
  exfalso.
  pose proof (cis_norm d) as Hn. rewrite Heq in Hn.
  assert (Hs : sin d = 0) by nra.
  assert (Hc : cis d = cis 0) by (unfold cis; now rewrite Heq, Hs, cos_0, sin_0).
  apply cis_inj_mod in Hc. apply eq_mod_2PI_small in Hc; lra.
Qed.

(** The unit vectors at [m] equally spaced angles around the circle cancel. *)
Lemma roots_sum_zero (theta : R) (m : nat) :
  (2 <= m)%nat ->
  Csum (map (fun k => cis (theta + INR k * (2 * PI / INR m))) (seq 0 m)) = Czero.
Proof.
  intros Hm.
  set (d := 2 * PI / INR m).
  set (f := fun k : nat => cis (theta + INR k * d)).
  set (S0 := Csum (map f (seq 0 m))).
  assert (HINR : 0 < INR m) by (apply lt_0_INR; lia).
  assert (H2 : 2 <= INR m) by (replace 2 with (INR 2) by (cbn; ring); apply le_INR; lia).
  pose proof PI_RGT_0 as Hpi.
  assert (Hd : 0 < d < 2 * PI).
  { unfold d. split.
    - apply Rdiv_lt_0_compat; lra.
    - apply (Rmult_lt_reg_r (INR m)); [exact HINR |].
      unfold Rdiv. rewrite Rmult_assoc, Rinv_l by lra. nra. }
  assert (Hrot : Cmul (cis d) S0 = S0).
  { unfold S0. rewrite <- Csum_map_Cmul.
    assert (Hshift : map (fun k => Cmul (cis d) (f k)) (seq 0 m) =
                     map f (seq 1 m)).
    { rewrite <- seq_shift, map_map. apply map_ext. intros k.
      unfold f. rewrite <- cis_plus. f_equal. rewrite S_INR. ring. }
    rewrite Hshift.
    assert (Hends : Cadd (f 0%nat) (Csum (map f (seq 1 m))) =
                    Cadd (Csum (map f (seq 0 m))) (f m)).
    { transitivity (Csum (map f (seq 0 (S m)))).
      - cbn [seq map]. now rewrite Csum_cons.
      - rewrite seq_S, map_app, Csum_app. cbn [map Nat.add].
        rewrite Csum_cons, Csum_nil. f_equal. c_eq; lra. }
    assert (Hfm : f m = f 0%nat).
    { unfold f. cbn [INR]. replace (theta + INR m * d) with (theta + 0 * d + 2 * PI).
      - apply cis_2PI_shift.
      - unfold d. field. lra. }
    rewrite Hfm in Hends.
    destruct (f 0%nat) as [a b], (Csum (map f (seq 1 m))) as [x y],
      (Csum (map f (seq 0 m))) as [x' y'].
    unfold Cadd in Hends. cbn [Re Im fst snd] in Hends.
    injection Hends as Hx Hy. f_equal; lra. }
  pose proof (cis_not_one d Hd) as Hc. pose proof (cis_norm d) as Hn.
  destruct S0 as [x y]. unfold Cmul, cis in Hrot. cbn [Re Im fst snd] in Hrot.
  injection Hrot as Hx Hy.
  assert (Hk : 0 < 2 - 2 * cos d) by lra.
  assert (Hx0 : (2 - 2 * cos d) * x = 0) by nra.
  assert (Hy0 : (2 - 2 * cos d) * y = 0) by nra.
  unfold Czero. f_equal; nra.
Qed.

Lemma Csum_circ_of (n : nat) : (3 <= n)%nat -> Csum (circ_of n) = (-1, 0).
Proof.
  intros Hn.
  rewrite (Csum_perm _ _ (circ_of_perm n)).
  rewrite np_linspace_spec_angles by lia.
  unfold np_exp_1j, spec_angles. rewrite map_map.
  destruct n as [| m]; [lia |].
  replace (S m - 1)%nat with m by lia.
  rewrite seq_S, map_app, Csum_app. cbn [map Nat.add].
  rewrite (roots_sum_zero (- PI) m) by lia.
  rewrite Csum_cons, Csum_nil.
  assert (HINR : INR m <> 0) by (apply not_0_INR; lia).
  replace (- PI + INR m * (2 * PI / INR m)) with PI by (field; exact HINR).
  unfold cis. rewrite cos_PI, sin_PI. c_eq; ring.
Qed.

(** ** Moduli of sums *)

Lemma Cabs_triangle (z w : C) : Cabs (Cadd z w) <= Cabs z + Cabs w.
Proof.
  pose proof (Cabs_sqr z) as Hz. pose proof (Cabs_sqr w) as Hw.
  pose proof (Cabs_sqr (Cadd z w)) as Hzw.
  pose proof (sqrt_pos (Re z * Re z + Im z * Im z)) as Pz.
  pose proof (sqrt_pos (Re w * Re w + Im w * Im w)) as Pw.
  pose proof (sqrt_pos (Re (Cadd z w) * Re (Cadd z w)
                        + Im (Cadd z w) * Im (Cadd z w))) as Pzw.
  fold (Cabs z) in Pz. fold (Cabs w) in Pw. fold (Cabs (Cadd z w)) in Pzw.
  destruct z as [x1 y1], w as [x2 y2].
  unfold Cadd in *. cbn [Re Im fst snd] in *.
  set (a := Cabs (x1, y1)) in *. set (b := Cabs (x2, y2)) in *.
  set (c := Cabs (x1 + x2, y1 + y2)) in *.
  assert (Hcs : x1 * x2 + y1 * y2 <= a * b).
  { assert (Hab : 0 <= a * b) by (apply Rmult_le_pos; assumption).
    destruct (Rle_dec (x1 * x2 + y1 * y2) 0) as [Hneg | Hpos]; [lra |].
    apply Rnot_le_lt in Hpos.
    assert (Hsq' : Rsqr (x1 * x2 + y1 * y2) <= Rsqr (a * b)).
    { unfold Rsqr.
      replace (a * b * (a * b)) with ((a * a) * (b * b)) by ring.
      rewrite Hz, Hw.
      pose proof (Rle_0_sqr (x1 * y2 - y1 * x2)) as Hd. unfold Rsqr in Hd.
      replace ((x1 * x1 + y1 * y1) * (x2 * x2 + y2 * y2))
        with ((x1 * x2 + y1 * y2) * (x1 * x2 + y1 * y2)
              + (x1 * y2 - y1 * x2) * (x1 * y2 - y1 * x2)) by ring.
      lra. }
    apply Rsqr_incr_0_var; [exact Hsq' | exact Hab]. }
  apply Rsqr_incr_0_var; [| lra].
  unfold Rsqr. rewrite Hzw.
  replace ((a + b) * (a + b)) with (a * a + b * b + 2 * (a * b)) by ring.
  rewrite Hz, Hw. lra.
Qed.

Lemma Cabs_Csum_le {A : Type} (F : A -> C) (l : list A) :
  Cabs (Csum (map F l)) <= Rsum (map (fun x => Cabs (F x)) l).
Proof.
  induction l as [| x l IH]; cbn [map].
  - rewrite Csum_nil, Cabs_zero. unfold Rsum. cbn. lra.
  - rewrite Csum_cons, Rsum_cons.
    eapply Rle_trans; [apply Cabs_triangle | lra].
Qed.

Lemma Cabs_Cscale (x : R) (z : C) : Cabs (Cscale x z) = Rabs x * Cabs z.
Proof.
  unfold Cabs, Cscale. cbn [Re Im fst snd].
  replace (x * Re z * (x * Re z) + x * Im z * (x * Im z))
    with ((x * x) * (Re z * Re z + Im z * Im z)) by ring.
  rewrite sqrt_mult by nra.
  f_equal. fold (Rsqr x). apply sqrt_Rsqr_abs.
Qed.

Lemma Csum_map_Cscale {A : Type} (g : A -> R) (z : C) (l : list A) :
  Csum (map (fun r => Cscale (g r) z) l) = Cscale (Rsum (map g l)) z.
Proof.
  induction l as [| x l IH]; cbn [map].
  - rewrite Csum_nil. unfold Rsum. cbn. c_eq; ring.
  - rewrite Csum_cons, Rsum_cons, IH. c_eq; ring.
Qed.

Lemma Csum_map_Cscale_r {A : Type} (v : R) (g : A -> C) (l : list A) :
  Csum (map (fun r => Cscale v (g r)) l) = Cscale v (Csum (map g l)).
Proof.
  induction l as [| x l IH]; cbn [map].
  - rewrite Csum_nil. c_eq; ring.
  - rewrite !Csum_cons, IH. c_eq; ring.
Qed.

Lemma nth_circ_unit (n r : nat) :
  (r < n)%nat -> Cabs (nth r (circ_of n) Czero) = 1.
Proof.
  intros Hr. pose proof (circ_of_unit n) as Hall.
  rewrite Forall_forall in Hall. apply Hall, nth_In.
  now rewrite length_circ_of.
Qed.

(** ** Where a region sits on the circle *)

Lemma length_slice_from0_step2 {A : Type} (l : list A) :
  length (slice_from0_step2 l) = Nat.div2 (S (length l)).
Proof.
  induction l as [| x | x y l IH] using list_ind2; try reflexivity.
  cbn [slice_from0_step2 length]. rewrite IH. reflexivity.
Qed.

Lemma nth_slice_from0_step2 {A : Type} (d : A) (l : list A) :
  forall i, nth i (slice_from0_step2 l) d = nth (2 * i) l d.
Proof.
  induction l as [| x | x y l IH] using list_ind2; intros i.
  - now destruct i.
  - destruct i as [| i]; [reflexivity |].
    cbn [slice_from0_step2]. replace (2 * S i)%nat with (S (S (2 * i))) by lia.
    cbn [nth]. now destruct i.
  - destruct i as [| i]; [reflexivity |].
    cbn [slice_from0_step2]. replace (2 * S i)%nat with (S (S (2 * i))) by lia.
    cbn [nth]. apply IH.
Qed.

Lemma nth_slice_from1_step2 {A : Type} (d : A) (l : list A) :
  forall i, nth i (slice_from1_step2 l) d = nth (2 * i + 1) l d.
Proof.
  intros i. unfold slice_from1_step2. rewrite nth_slice_from0_step2.
  destruct l as [| x l].
  - cbn [tl]. now destruct (2 * i)%nat, (2 * i + 1)%nat.
  - cbn [tl]. replace (2 * i + 1)%nat with (S (2 * i)) by lia. reflexivity.
Qed.

Lemma to_phase_cell (a : array2) (t : nat) :
  wf_array2 a -> (t < shape1 a)%nat ->
  exists P : list C,
    to_phase a = ok P /\
    nth t P Czero =
    Csum (map (fun r => Cscale (item a r t) (nth r (circ_of (shape0 a)) Czero))
              (seq 0 (shape0 a))).
Proof.
  intros Hwf Ht. rewrite (to_phase_cells a Hwf). eexists. split; [reflexivity |].
  now rewrite nth_map_seq.
Qed.

Lemma wf_array_of_rows (t : nat) (rs : list (list R)) :
  Forall (fun row => length row = t) rs -> wf_array2 (array_of_rows t rs).
Proof.
  intros H. split; [reflexivity | exact H].
Qed.

(** X1.  On every rectangular array with at least one region, also
    with a single one, [to_phase] raises nothing and returns one complex
    cell for each time sample. *)
Theorem to_phase_returns_T_cells (a : array2) :
  wf_array2 a -> (1 <= shape0 a)%nat ->
  exists P : list C, to_phase a = ok P /\ length P = shape1 a.
Proof.
  intros Hwf _. rewrite (to_phase_cells a Hwf). eexists. split; [reflexivity |].
  now rewrite length_map, length_seq.
Qed.

Lemma to_phase_returns_T_cells_witness :
  exists P : list C,
    to_phase (array_of_rows 3 [[1; 2; 3]]) = ok P /\ length P = 3%nat.
Proof.
  apply (to_phase_returns_T_cells (array_of_rows 3 [[1; 2; 3]])).
  - apply wf_array_of_rows. repeat constructor.
  - simpl. lia.
Defined.

(** X2.  The reordering of [to_phase] loses and repeats nothing: the
    vectors it multiplies with are a permutation of the unit vectors of the
    linspace, and each of them has modulus 1. *)
Theorem reordered_unit_vectors (n : nat) :
  Permutation (circ_of n) (np_exp_1j (np_linspace (- PI) PI n)) /\
  length (circ_of n) = n /\
  Forall (fun z => Cabs z = 1) (circ_of n).
Proof.
  split; [apply circ_of_perm |].
  split; [apply length_circ_of | apply circ_of_unit].
Qed.

(** X3.  Region [r] of [n >= 2] is given the angle of index [2r] when it
    is in the first half (rounded up) of the regions, and the angle of
    index [2(r - half) + 1] otherwise, among the [n] equally spaced
    angles from -PI to PI. *)
Theorem region_angle (n r : nat) :
  (2 <= n)%nat -> (r < n)%nat ->
  (angle_index n r < n)%nat /\
  nth r (circ_of n) Czero =
  cis (- PI + INR (angle_index n r) * (2 * PI / INR (n - 1))).
Proof.
  intros Hn Hr.
  assert (Hhalf : (2 * Nat.div2 (S n) <= S n /\ n <= 2 * Nat.div2 (S n))%nat).
  { rewrite Nat.div2_div.
    pose proof (Nat.div_mod (S n) 2 ltac:(lia)) as Hdm.
    pose proof (Nat.mod_upper_bound (S n) 2 ltac:(lia)) as Hmod. lia. }
  assert (Hidx : (angle_index n r < n)%nat).
  { unfold angle_index.
    destruct (Nat.ltb_spec r (Nat.div2 (S n))) as [Hlt | Hge]; [| lia].
    destruct (Nat.eq_dec (2 * Nat.div2 (S n)) (S n)) as [Heq | Hne]; lia. }
  split; [exact Hidx |].
  assert (Hlin : forall i, (i < n)%nat ->
            nth i (np_exp_1j (np_linspace (- PI) PI n)) Czero =
            cis (- PI + INR i * (2 * PI / INR (n - 1)))).
  { intros i Hi. rewrite np_linspace_spec_angles by assumption.
    unfold np_exp_1j, spec_angles. rewrite map_map.
    now rewrite nth_map_seq. }
  rewrite <- (Hlin _ Hidx).
  unfold circ_of, angle_index.
  set (l := np_exp_1j (np_linspace (- PI) PI n)).
  assert (Hl : length l = n)
    by (unfold l, np_exp_1j; now rewrite length_map, length_np_linspace).
  assert (HA : length (slice_from0_step2 l) = Nat.div2 (S n))
    by now rewrite length_slice_from0_step2, Hl.
  destruct (Nat.ltb_spec r (Nat.div2 (S n))) as [Hlt | Hge].
  - rewrite app_nth1 by lia. apply nth_slice_from0_step2.
  - rewrite app_nth2 by lia. rewrite HA. apply nth_slice_from1_step2.
Qed.

Lemma region_angle_witness :
  (angle_index 8 5 < 8)%nat /\
  nth 5 (circ_of 8) Czero =
  cis (- PI + INR (angle_index 8 5) * (2 * PI / INR (8 - 1))).
Proof.
  apply (region_angle 8 5); lia.
Defined.

(** X4.  With three regions or more the unit vectors sum to -1, the end
    points -PI and PI being the same direction: where all regions have the
    same fluorescence [v], the phase is [-v], not zero. *)
Theorem to_phase_uniform_column (a : array2) (t : nat) (v : R) :
  wf_array2 a -> (3 <= shape0 a)%nat -> (t < shape1 a)%nat ->
  (forall r, (r < shape0 a)%nat -> item a r t = v) ->
  Csum (circ_of (shape0 a)) = (-1, 0) /\
  exists P : list C, to_phase a = ok P /\ nth t P Czero = (- v, 0).
Proof.
  intros Hwf Hn Ht Hv.
  pose proof (Csum_circ_of (shape0 a) Hn) as Hsum.
  split; [exact Hsum |].
  destruct (to_phase_cell a t Hwf Ht) as (P & HP & Hcell).
  exists P. split; [exact HP |]. rewrite Hcell.
  rewrite (Csum_map_ext _
             (fun r => Cscale v (nth r (circ_of (shape0 a)) Czero)))
    by (intros r Hr; apply in_seq in Hr; rewrite Hv by lia; reflexivity).
  rewrite Csum_map_Cscale_r.
  pose proof (map_seq_nth Czero (circ_of (shape0 a))) as E.
  rewrite length_circ_of in E. rewrite <- E, Hsum. c_eq; ring.
Qed.

Lemma to_phase_uniform_column_witness :
  Csum (circ_of 3) = (-1, 0) /\
  exists P : list C,
    to_phase (array_of_rows 1 [[2]; [2]; [2]]) = ok P /\
    nth 0 P Czero = (- 2, 0).
Proof.
  apply (to_phase_uniform_column (array_of_rows 1 [[2]; [2]; [2]]) 0 2).
  - apply wf_array_of_rows. repeat constructor.
  - simpl. lia.
  - simpl. lia.
  - intros [| [| [| r]]] Hr; simpl in Hr; try lia; reflexivity.
Defined.

(** X5.  The modulus of the phase at a time sample is at most the sum of
    the absolute fluorescences of the regions at that sample. *)
Theorem to_phase_modulus_bound (a : array2) (t : nat) :
  wf_array2 a -> (t < shape1 a)%nat ->
  exists P : list C,
    to_phase a = ok P /\
    Cabs (nth t P Czero) <= Rsum (map Rabs (column a t)).
Proof.
  intros Hwf Ht.
  destruct (to_phase_cell a t Hwf Ht) as (P & HP & Hcell).
  exists P. split; [exact HP |]. rewrite Hcell.
  eapply Rle_trans; [apply Cabs_Csum_le |].
  unfold column. rewrite map_map. apply Req_le. f_equal.
  apply map_ext_in. intros r Hr. apply in_seq in Hr.
  rewrite Cabs_Cscale, nth_circ_unit by lia. ring.
Qed.

Lemma to_phase_modulus_bound_witness :
  exists P : list C,
    to_phase (array_of_rows 1 [[1]; [-2]; [3]]) = ok P /\
    Cabs (nth 0 P Czero)
    <= Rsum (map Rabs (column (array_of_rows 1 [[1]; [-2]; [3]]) 0)).
Proof.
  apply (to_phase_modulus_bound (array_of_rows 1 [[1]; [-2]; [3]]) 0).
  - apply wf_array_of_rows. repeat constructor.
  - simpl. lia.
Defined.

(** X6.  With one or two regions every unit vector is -1: the phase is
    minus the sum of the column, a real number, and its angle says nothing
    about which region is active. *)
Theorem to_phase_few_regions (a : array2) (t : nat) :
  wf_array2 a -> (shape0 a <= 2)%nat -> (t < shape1 a)%nat ->
  exists P : list C,
    to_phase a = ok P /\ nth t P Czero = (- Rsum (column a t), 0).
Proof.
  intros Hwf Hn Ht.
  destruct (to_phase_cell a t Hwf Ht) as (P & HP & Hcell).
  exists P. split; [exact HP |]. rewrite Hcell.
  assert (Hone : forall r, (r < shape0 a)%nat ->
            nth r (circ_of (shape0 a)) Czero = (-1, 0)).
  { intros r Hr.
    assert (Hpi : cis (- PI) = (-1, 0)).
    { unfold cis. rewrite cos_neg, sin_neg, cos_PI, sin_PI. f_equal. ring. }
    destruct (shape0 a) as [| [| [| n]]]; try lia.
    - destruct r; [| lia]. unfold circ_of, np_linspace, np_exp_1j. cbn.
      replace (0 * (PI - - PI) + - PI) with (- PI) by ring. exact Hpi.
    - unfold circ_of, np_linspace, np_exp_1j. cbn.
      destruct r as [| [| r]]; try lia.
      + replace (0 * ((PI - - PI) / 1) + - PI) with (- PI) by field.
        exact Hpi.
      + unfold cis. now rewrite cos_PI, sin_PI. }
  rewrite (Csum_map_ext _ (fun r => Cscale (item a r t) (-1, 0)))
    by (intros r Hr; apply in_seq in Hr; now rewrite Hone by lia).
  rewrite Csum_map_Cscale. unfold column. c_eq; ring.
Qed.

Lemma to_phase_few_regions_witness :
  exists P : list C,
    to_phase (array_of_rows 1 [[1]; [4]]) = ok P /\
    nth 0 P Czero = (- Rsum (column (array_of_rows 1 [[1]; [4]]) 0), 0).
Proof.
  apply (to_phase_few_regions (array_of_rows 1 [[1]; [4]]) 0).
  - apply wf_array_of_rows. repeat constructor.
  - simpl. lia.
  - simpl. lia.
Defined.

(** * Further properties of [plot_phase_and_heading] *)

Lemma offset_of_bad_imaging (h : heap) (it ph vt vh : loc) :
  size (c128 h ph) <> length (f64 h it) \/ f64 h it = [] ->
  offset_of h it ph vt vh = raise ValueError.
Proof.
  intros Hbad. unfold offset_of, np_interp.
  destruct (f64 h it) as [| t0 ts] eqn:Hit; [reflexivity |].
  destruct Hbad as [Hne | Hnil]; [| discriminate].
  cbn [length Nat.eqb].
  assert (Hsz : size (alift np_unwrap (alift np_angle (c128 h ph)))
                = size (c128 h ph)).
  { destruct (c128 h ph) as [zs | n]; cbn; [| reflexivity].
    unfold np_angle. now rewrite length_np_unwrap, length_map. }
  rewrite Hsz.
  replace (size (c128 h ph) =? S (length ts))%nat with false
    by (symmetry; apply Nat.eqb_neq; exact Hne).
  reflexivity.
Qed.

(** X7.  With [subtract_offset] true, a phase array that has not one cell
    for each imaging timestamp, or an empty array of imaging timestamps, is
    a ValueError of [np.interp]; nothing is written and nothing is drawn. *)
Theorem bad_imaging_lengths_raise (it ph vt vh : loc) (st : state) :
  size (c128 (st_heap st) ph) <> length (f64 (st_heap st) it) \/
  f64 (st_heap st) it = [] ->
  plot_phase_and_heading it ph vt vh true st = (raise ValueError, st).
Proof.
  intros Hbad. apply plot_raise_true. now apply offset_of_bad_imaging.
Qed.

Lemma bad_imaging_lengths_raise_witness :
  plot_phase_and_heading l_it l_ph l_vt l_vh true
    (mkState (session [0; 1] (Known [(1, 0)]) [0] [0]) no_axes)
  = (raise ValueError, mkState (session [0; 1] (Known [(1, 0)]) [0] [0]) no_axes).
Proof.
  apply (bad_imaging_lengths_raise l_it l_ph l_vt l_vh
           (mkState (session [0; 1] (Known [(1, 0)]) [0] [0]) no_axes)).
  left. simpl. lia.
Defined.

Lemma offset_of_broadcast_some
    (h : heap) (it ph vt vh : loc) (zs : list C) :
  c128 h ph = Known zs ->
  length zs = length (f64 h it) ->
  (1 <= length (f64 h it))%nat ->
  length (f64 h vh) <> length (f64 h vt) ->
  (1 <= length (f64 h vh))%nat -> (1 <= length (f64 h vt))%nat ->
  length (f64 h vh) = 1%nat \/ length (f64 h vt) = 1%nat ->
  exists w : C, offset_of h it ph vt vh = ok (Some w).
Proof.
  intros Hph HT Hpos Hne HH HV Hone. unfold offset_of, np_interp.
  rewrite Hph. cbn [alift size].
  replace (length (f64 h it) =? 0)%nat with false
    by (symmetry; apply Nat.eqb_neq; lia).
  unfold np_angle. rewrite length_np_unwrap, length_map, HT, Nat.eqb_refl.
  cbn [negb]. cbv beta iota delta [ok]. cbn [alift].
  unfold np_divide, np_exp_1j. rewrite !length_map.
  replace (length (f64 h vt) =? length (f64 h vh))%nat with false
    by (symmetry; apply Nat.eqb_neq; congruence).
  destruct (length (f64 h vt) =? 1)%nat eqn:E1.
  - cbv beta iota delta [ok].
    rewrite np_mean_nonempty by (rewrite !length_map; lia).
    eexists. reflexivity.
  - destruct (length (f64 h vh) =? 1)%nat eqn:E2.
    + cbv beta iota delta [ok].
      rewrite np_mean_nonempty by (rewrite !length_map; lia).
      eexists. reflexivity.
    + apply Nat.eqb_neq in E1, E2. lia.
Qed.

Lemma plot_raises_after_division
    (h : heap) (it ph vt vh : loc) (ax : Axes) (offset : option C) :
  offset_of h it ph vt vh = ok offset ->
  length (f64 h vh) <> length (f64 h vt) ->
  plot_phase_and_heading it ph vt vh true (mkState h ax) =
  (raise ValueError, mkState (heap_divided h ph offset) ax).
Proof.
  intros Hoff Hne.
  run_monad. rewrite rotational_offset_pure. cbn [st_heap]. rewrite Hoff.
  cbv beta iota delta [ok]. cbn [st_heap st_axes f64 c128 size].
  replace (length (f64 h vt) =? length (f64 h vh))%nat with false
    by (symmetry; apply Nat.eqb_neq; congruence).
  reflexivity.
Qed.

Lemma heap_divided_known (h : heap) (ph : loc) (zs : list C) (w : C) :
  c128 h ph = Known zs ->
  heap_divided h ph (Some w) =
  heap_with h ph (if Ceq_zero_dec w then Lost (length zs)
                  else Known (map (fun z => Cdiv z w) zs)).
Proof.
  intros Hph. unfold heap_divided, heap_with, divide_by. now rewrite Hph.
Qed.

(** X8.  The call can raise after it has written: on a phase with one
    sample for each (non-decreasing) imaging timestamp, when the heading
    and the behavioural timestamps are not empty and differ in length but
    one of them has a single cell, the division broadcasts and gives an
    offset [w]; every cell of the phase array is overwritten with its
    quotient by [w] (a non-finite cell when [w] is zero), and only then
    [ax.plot] raises ValueError, nothing being drawn. *)
Theorem raise_after_write
    (h : heap) (it ph vt vh : loc) (zs : list C) (ax : Axes) :
  c128 h ph = Known zs ->
  length zs = length (f64 h it) ->
  (1 <= length (f64 h it))%nat ->
  nondecreasing (f64 h it) ->
  length (f64 h vh) <> length (f64 h vt) ->
  (1 <= length (f64 h vh))%nat -> (1 <= length (f64 h vt))%nat ->
  length (f64 h vh) = 1%nat \/ length (f64 h vt) = 1%nat ->
  exists w : C,
    offset_of h it ph vt vh = ok (Some w) /\
    (w <> Czero ->
     plot_phase_and_heading it ph vt vh true (mkState h ax) =
     (raise ValueError,
      mkState (heap_with h ph (Known (map (fun z => Cdiv z w) zs))) ax)) /\
    (w = Czero ->
     plot_phase_and_heading it ph vt vh true (mkState h ax) =
     (raise ValueError, mkState (heap_with h ph (Lost (length zs))) ax)).
Proof.
  intros Hph HT Hpos _ Hne HH HV Hone.
  destruct (offset_of_broadcast_some h it ph vt vh zs Hph HT Hpos Hne HH HV Hone)
    as [w Hoff].
  exists w. split; [exact Hoff |].
  rewrite (plot_raises_after_division h it ph vt vh ax (Some w) Hoff Hne).
  rewrite (heap_divided_known h ph zs w Hph).
  split; intros Hw; destruct (Ceq_zero_dec w); try contradiction; reflexivity.
Qed.

Lemma raise_after_write_witness :
  let h := session [0] (Known [(1, 0)]) [0; 1] [PI / 2] in
  exists w : C,
    offset_of h l_it l_ph l_vt l_vh = ok (Some w) /\
    (w <> Czero ->
     plot_phase_and_heading l_it l_ph l_vt l_vh true (mkState h no_axes) =
     (raise ValueError,
      mkState (heap_with h l_ph (Known (map (fun z => Cdiv z w) [(1, 0)])))
              no_axes)) /\
    (w = Czero ->
     plot_phase_and_heading l_it l_ph l_vt l_vh true (mkState h no_axes) =
     (raise ValueError,
      mkState (heap_with h l_ph (Lost (length [(1, 0)]))) no_axes)).
Proof.
  apply (raise_after_write (session [0] (Known [(1, 0)]) [0; 1] [PI / 2])
           l_it l_ph l_vt l_vh [(1, 0)] no_axes).
  - reflexivity.
  - reflexivity.
  - simpl. lia.
  - exact I.
  - simpl. lia.
  - simpl. lia.
  - simpl. lia.
  - left. reflexivity.
Defined.

(** ** The modulus of the offset *)

Lemma Rsum_ones {A : Type} (l : list A) :
  Rsum (map (fun _ => 1) l) = INR (length l).
Proof.
  induction l as [| x l IH]; [reflexivity |].
  cbn [map]. rewrite Rsum_cons, IH. cbn [length]. rewrite S_INR. ring.
Qed.

Lemma Cabs_spec_offset (it : list R) (zs : list C) (vt vh : list R) :
  (1 <= length vt)%nat ->
  Cabs (spec_rotational_offset it zs vt vh) <= 1.
Proof.
  intros HV. unfold spec_rotational_offset.
  assert (Hn : 0 < INR (length vt)) by (apply lt_0_INR; lia).
  rewrite Cabs_Cscale, Rabs_right
    by (apply Rle_ge, Rlt_le, Rinv_0_lt_compat; exact Hn).
  eapply Rle_trans.
  - apply Rmult_le_compat_l; [apply Rlt_le, Rinv_0_lt_compat; exact Hn |].
    apply Cabs_Csum_le.
  - rewrite (map_ext _ (fun _ => 1))
      by (intros j; rewrite Cdiv_cis; apply Cabs_cis).
    rewrite Rsum_ones, length_seq. apply Req_le. field. lra.
Qed.

Lemma Cabs_Cdiv_grows (z w : C) :
  w <> Czero -> Cabs w <= 1 -> Cabs z <= Cabs (Cdiv z w).
Proof.
  intros Hw Hle. rewrite Cabs_Cdiv by assumption.
  pose proof (Cabs_pos w Hw) as Hpos. pose proof (sqrt_pos (Re z * Re z + Im z * Im z)) as Hz.
  fold (Cabs z) in Hz.
  apply (Rmult_le_reg_r (Cabs w)); [exact Hpos |].
  unfold Rdiv. rewrite Rmult_assoc, Rinv_l by lra. nra.
Qed.

(** X9.  The offset is a mean of unit vectors, so its modulus is at most
    1: dividing by it never shrinks a phase sample. *)
Theorem offset_never_attenuates
    (h : heap) (it ph vt vh : loc) (zs : list C) (ax : Axes) :
  c128 h ph = Known zs ->
  valid_session h it ph vt vh ->
  (1 <= length (f64 h vt))%nat ->
  exists w : C,
    offset_of h it ph vt vh = ok (Some w) /\
    Cabs w <= 1 /\
    (w <> Czero ->
     c128 (st_heap (snd (plot_phase_and_heading it ph vt vh true
                           (mkState h ax)))) ph
     = Known (map (fun z => Cdiv z w) zs) /\
     forall z : C, Cabs z <= Cabs (Cdiv z w)).
Proof.
  intros Hph Hvalid HV.
  pose proof (offset_of_spec h it ph vt vh zs Hph Hvalid HV) as Hoff.
  set (w := spec_rotational_offset (f64 h it) zs (f64 h vt) (f64 h vh)) in *.
  assert (Hle : Cabs w <= 1) by now apply Cabs_spec_offset.
  exists w. split; [exact Hoff |]. split; [exact Hle |].
  intros Hw. split.
  - rewrite (plot_heap_true it ph vt vh (mkState h ax) (Some w) Hoff).
    cbn [heap_divided c128 st_heap]. rewrite Nat.eqb_refl, Hph.
    unfold divide_by. destruct (Ceq_zero_dec w); [contradiction | reflexivity].
  - intros z. now apply Cabs_Cdiv_grows.
Qed.

Lemma offset_never_attenuates_witness :
  exists w : C,
    offset_of demo_session l_it l_ph l_vt l_vh = ok (Some w) /\
    Cabs w <= 1 /\
    (w <> Czero ->
     c128 (st_heap (snd (plot_phase_and_heading l_it l_ph l_vt l_vh true
                           (mkState demo_session no_axes)))) l_ph
     = Known (map (fun z => Cdiv z w) [(1, 0); (0, 1)]) /\
     forall z : C, Cabs z <= Cabs (Cdiv z w)).
Proof.
  apply (offset_never_attenuates demo_session l_it l_ph l_vt l_vh
           [(1, 0); (0, 1)] no_axes).
  - reflexivity.
  - unfold valid_session. simpl. repeat split; try lia; lra.
  - simpl. lia.
Defined.

(** ** The offset under changes of the heading and of the phase *)

Lemma spec_offset_heading_shift
    (it : list R) (zs : list C) (vt vh : list R) (d : R) :
  length vh = length vt ->
  spec_rotational_offset it zs vt (map (fun x => x + d) vh) =
  Cmul (cis (- d)) (spec_rotational_offset it zs vt vh).
Proof.
  intros HV. unfold spec_rotational_offset.
  set (g := fun j : nat =>
              Cdiv (cis (spec_interp (combine it (np_unwrap (np_angle zs)))
                                     (nth j vt 0)))
                   (cis (nth j vh 0))).
  rewrite (Csum_map_ext _ (fun j => Cmul (cis (- d)) (g j))).
  - rewrite Csum_map_Cmul. c_eq; ring.
  - intros j Hj. apply in_seq in Hj.
    rewrite (nth_map_lt _ vh 0 0) by lia.
    unfold g. rewrite !Cdiv_cis, <- cis_plus. f_equal. ring.
Qed.

Lemma Cdiv_Cmul_cis (z w : C) (d : R) :
  w <> Czero ->
  Cdiv z (Cmul (cis (- d)) w) = Cmul (cis d) (Cdiv z w).
Proof.
  intros Hw. pose proof (norm_pos_of_nonzero w Hw) as Hn.
  pose proof (cis_norm d) as Hd.
  unfold Cdiv, Cmul, cis. cbn [Re Im fst snd]. rewrite cos_neg, sin_neg.
  set (c := cos d) in *. set (s := sin d) in *.
  set (x := Re w) in *. set (y := Im w) in *.
  assert (Hden : (c * x - - s * y) * (c * x - - s * y)
                 + (c * y + - s * x) * (c * y + - s * x)
                 = x * x + y * y).
  { transitivity ((c * c + s * s) * (x * x + y * y)); [ring |].
    rewrite Hd. ring. }
  rewrite Hden.
  apply C_eq; cbn [Re Im fst snd]; field_simplify_eq; lra.
Qed.

Lemma final_phase_true (h : heap) (it ph vt vh : loc) (ax : Axes) :
  c128 (st_heap (snd (plot_phase_and_heading it ph vt vh true (mkState h ax))))
       ph =
  match offset_of h it ph vt vh with
  | inl _ => c128 h ph
  | inr offset => divide_by (c128 h ph) offset
  end.
Proof.
  destruct (offset_of h it ph vt vh) as [e | offset] eqn:Hoff.
  - now rewrite (plot_raise_true it ph vt vh (mkState h ax) e Hoff).
  - rewrite (plot_heap_true it ph vt vh (mkState h ax) offset Hoff).
    cbn [heap_divided c128 st_heap]. now rewrite Nat.eqb_refl.
Qed.

Lemma Cmul_cis_nonzero (d : R) (w : C) :
  w <> Czero -> Cmul (cis (- d)) w <> Czero.
Proof.
  intros Hw Hz. apply Hw.
  assert (E : Cmul (cis d) (Cmul (cis (- d)) w) = w).
  { pose proof (cis_norm d) as Hd.
    unfold Cmul, cis. cbn [Re Im fst snd]. rewrite cos_neg, sin_neg.
    apply C_eq; cbn [Re Im fst snd].
    - transitivity ((cos d * cos d + sin d * sin d) * Re w); [ring |].
      rewrite Hd. ring.
    - transitivity ((cos d * cos d + sin d * sin d) * Im w); [ring |].
      rewrite Hd. ring. }
  rewrite <- E, Hz. c_eq; ring.
Qed.

(** X10.  Adding a constant [d] to every heading sample multiplies the
    offset by the unit vector of angle [-d], and so turns the corrected
    phase by [d]. *)
Theorem heading_shift_turns_phase
    (it : list R) (zs : list C) (vt vh : list R) (d : R) (ax : Axes) :
  length zs = length it -> (1 <= length it)%nat -> nondecreasing it ->
  length vh = length vt -> (1 <= length vt)%nat ->
  let w := spec_rotational_offset it zs vt vh in
  let shifted := session it (Known zs) vt (map (fun x => x + d) vh) in
  offset_of (session it (Known zs) vt vh) l_it l_ph l_vt l_vh = ok (Some w) /\
  offset_of shifted l_it l_ph l_vt l_vh = ok (Some (Cmul (cis (- d)) w)) /\
  (w <> Czero ->
   c128 (st_heap (snd (plot_phase_and_heading l_it l_ph l_vt l_vh true
                         (mkState shifted ax)))) l_ph
   = Known (map (fun z => Cmul (cis d) (Cdiv z w)) zs)).
Proof.
  intros HT Hpos Hs HV HV1 w shifted.
  assert (Hv1 : valid_session (session it (Known zs) vt vh) l_it l_ph l_vt l_vh)
    by (unfold valid_session; cbn; repeat split; assumption).
  assert (Hv2 : valid_session shifted l_it l_ph l_vt l_vh).
  { unfold valid_session, shifted. cbn. rewrite length_map.
    repeat split; assumption. }
  pose proof (offset_of_spec (session it (Known zs) vt vh)
                l_it l_ph l_vt l_vh zs eq_refl Hv1 HV1) as H1.
  pose proof (offset_of_spec shifted l_it l_ph l_vt l_vh zs eq_refl Hv2 HV1)
    as H2.
  change (f64 (session it (Known zs) vt vh) l_it) with it in H1.
  change (f64 (session it (Known zs) vt vh) l_vt) with vt in H1.
  change (f64 (session it (Known zs) vt vh) l_vh) with vh in H1.
  change (f64 shifted l_it) with it in H2.
  change (f64 shifted l_vt) with vt in H2.
  change (f64 shifted l_vh) with (map (fun x => x + d) vh) in H2.
  rewrite spec_offset_heading_shift in H2 by assumption.
  fold w in H1, H2.
  split; [exact H1 |]. split; [exact H2 |].
  intros Hw. rewrite final_phase_true, H2.
  change (c128 shifted l_ph) with (Known zs).
  cbv beta iota delta [ok]. unfold divide_by.
  destruct (Ceq_zero_dec (Cmul (cis (- d)) w)) as [Hz | _];
    [now apply Cmul_cis_nonzero in Hz |].
  f_equal. apply map_ext. intros z. now apply Cdiv_Cmul_cis.
Qed.

Lemma heading_shift_turns_phase_witness :
  let w := spec_rotational_offset [0; 1] [(1, 0); (0, 1)] [0; 1] [0; 0] in
  let shifted :=
    session [0; 1] (Known [(1, 0); (0, 1)]) [0; 1]
            (map (fun x => x + 1) [0; 0]) in
  offset_of (session [0; 1] (Known [(1, 0); (0, 1)]) [0; 1] [0; 0])
            l_it l_ph l_vt l_vh = ok (Some w) /\
  offset_of shifted l_it l_ph l_vt l_vh = ok (Some (Cmul (cis (- 1)) w)) /\
  (w <> Czero ->
   c128 (st_heap (snd (plot_phase_and_heading l_it l_ph l_vt l_vh true
                         (mkState shifted no_axes)))) l_ph
   = Known (map (fun z => Cmul (cis 1) (Cdiv z w)) [(1, 0); (0, 1)])).
Proof.
  apply (heading_shift_turns_phase [0; 1] [(1, 0); (0, 1)] [0; 1] [0; 0] 1
           no_axes).
  - reflexivity.
  - simpl. lia.
  - simpl. split; [lra | exact I].
  - reflexivity.
  - simpl. lia.
Defined.

Lemma np_exp_1j_congruent (vh vh' : list R) :
  length vh' = length vh ->
  (forall j, (j < length vh)%nat -> eq_mod_2PI (nth j vh' 0) (nth j vh 0)) ->
  np_exp_1j vh' = np_exp_1j vh.
Proof.
  revert vh'. induction vh as [| x vh IH]; intros [| y vh'] Hlen Hcong;
    try discriminate; [reflexivity |].
  unfold np_exp_1j. cbn [map]. f_equal.
  - apply cis_eq_mod. apply (Hcong 0%nat). cbn. lia.
  - apply IH; [now injection Hlen |].
    intros j Hj. apply (Hcong (S j)). cbn. lia.
Qed.

(** X11.  Only the direction of each heading sample counts: headings that
    differ by whole turns give the same offset (or the same exception) and
    leave the same phase array. *)
Theorem heading_whole_turns_irrelevant
    (it : list R) (p : array1 C) (vt vh vh' : list R) (ax : Axes) :
  length vh' = length vh ->
  (forall j, (j < length vh)%nat -> eq_mod_2PI (nth j vh' 0) (nth j vh 0)) ->
  offset_of (session it p vt vh') l_it l_ph l_vt l_vh =
  offset_of (session it p vt vh) l_it l_ph l_vt l_vh /\
  c128 (st_heap (snd (plot_phase_and_heading l_it l_ph l_vt l_vh true
                        (mkState (session it p vt vh') ax)))) l_ph =
  c128 (st_heap (snd (plot_phase_and_heading l_it l_ph l_vt l_vh true
                        (mkState (session it p vt vh) ax)))) l_ph.
Proof.
  intros Hlen Hcong.
  assert (Hoff : offset_of (session it p vt vh') l_it l_ph l_vt l_vh =
                 offset_of (session it p vt vh) l_it l_ph l_vt l_vh).
  { unfold offset_of. cbn [session f64 c128 l_it l_ph l_vt l_vh].
    now rewrite (np_exp_1j_congruent vh vh' Hlen Hcong). }
  split; [exact Hoff |].
  rewrite !final_phase_true, Hoff. reflexivity.
Qed.

Lemma heading_whole_turns_irrelevant_witness :
  offset_of (session [0] (Known [(1, 0)]) [0] [1 + 2 * PI * IZR 1])
            l_it l_ph l_vt l_vh =
  offset_of (session [0] (Known [(1, 0)]) [0] [1]) l_it l_ph l_vt l_vh /\
  c128 (st_heap (snd (plot_phase_and_heading l_it l_ph l_vt l_vh true
          (mkState (session [0] (Known [(1, 0)]) [0] [1 + 2 * PI * IZR 1])
                   no_axes)))) l_ph =
  c128 (st_heap (snd (plot_phase_and_heading l_it l_ph l_vt l_vh true
          (mkState (session [0] (Known [(1, 0)]) [0] [1]) no_axes)))) l_ph.
Proof.
  apply (heading_whole_turns_irrelevant [0] (Known [(1, 0)]) [0] [1]
           [1 + 2 * PI * IZR 1] no_axes).
  - reflexivity.
  - intros [| j] Hj; simpl in Hj; [| lia].
    simpl nth. exists 1%Z. reflexivity.
Defined.

Lemma arctan2_scale (s y x : R) :
  0 < s -> arctan2 (s * y) (s * x) = arctan2 y x.
Proof.
  intros Hs. unfold arctan2.
  assert (Hq : x <> 0 -> s * y / (s * x) = y / x) by (intros; field; lra).
  destruct (Rlt_dec 0 x) as [Hx | Hx].
  - destruct (Rlt_dec 0 (s * x)) as [_ | Hn]; [| nra].
    now rewrite Hq by lra.
  - destruct (Rlt_dec 0 (s * x)) as [Hp | _]; [nra |].
    destruct (Rlt_dec x 0) as [Hx' | Hx'].
    + destruct (Rlt_dec (s * x) 0) as [_ | Hn]; [| nra].
      rewrite Hq by lra.
      destruct (Rle_dec 0 y), (Rle_dec 0 (s * y)); try reflexivity; nra.
    + destruct (Rlt_dec (s * x) 0) as [Hp | _]; [nra |].
      destruct (Rlt_dec 0 y), (Rlt_dec 0 (s * y)); try reflexivity; try nra.
      destruct (Rlt_dec y 0), (Rlt_dec (s * y) 0); try reflexivity; nra.
Qed.

Lemma np_angle_scale (s : R) (zs : list C) :
  0 < s -> np_angle (map (Cscale s) zs) = np_angle zs.
Proof.
  intros Hs. unfold np_angle. rewrite map_map. apply map_ext.
  intros z. unfold angle, Cscale. cbn [Re Im fst snd].
  now apply arctan2_scale.
Qed.

Lemma divide_by_scale (s : R) (zs : list C) (offset : option C) :
  divide_by (Known (map (Cscale s) zs)) offset =
  alift (map (Cscale s)) (divide_by (Known zs) offset).
Proof.
  unfold divide_by. destruct offset as [w |]; cbn [size alift].
  - destruct (Ceq_zero_dec w); cbn [alift]; rewrite ?length_map; [reflexivity |].
    f_equal. rewrite !map_map. apply map_ext. intros z.
    unfold Cdiv, Cscale. cbn [Re Im fst snd].
    apply C_eq; cbn [Re Im fst snd]; unfold Rdiv; ring.
  - now rewrite length_map.
Qed.

(** X12.  Only the direction of each phase sample counts for the offset:
    multiplying the phase by a positive real leaves the offset (or the
    exception) as it is, and the corrected phase is multiplied by the
    same real. *)
Theorem phase_scale_irrelevant
    (it : list R) (zs : list C) (vt vh : list R) (s : R) (ax : Axes) :
  0 < s ->
  offset_of (session it (Known (map (Cscale s) zs)) vt vh)
            l_it l_ph l_vt l_vh =
  offset_of (session it (Known zs) vt vh) l_it l_ph l_vt l_vh /\
  c128 (st_heap (snd (plot_phase_and_heading l_it l_ph l_vt l_vh true
          (mkState (session it (Known (map (Cscale s) zs)) vt vh) ax)))) l_ph =
  alift (map (Cscale s))
    (c128 (st_heap (snd (plot_phase_and_heading l_it l_ph l_vt l_vh true
             (mkState (session it (Known zs) vt vh) ax)))) l_ph).
Proof.
  intros Hs.
  assert (Hoff : offset_of (session it (Known (map (Cscale s) zs)) vt vh)
                           l_it l_ph l_vt l_vh =
                 offset_of (session it (Known zs) vt vh) l_it l_ph l_vt l_vh).
  { unfold offset_of. cbn [session f64 c128 l_it l_ph l_vt l_vh alift].
    now rewrite np_angle_scale. }
  split; [exact Hoff |].
  rewrite !final_phase_true, Hoff.
  change (c128 (session it (Known (map (Cscale s) zs)) vt vh) l_ph)
    with (Known (map (Cscale s) zs)).
  change (c128 (session it (Known zs) vt vh) l_ph) with (Known zs).
  destruct (offset_of (session it (Known zs) vt vh) l_it l_ph l_vt l_vh)
    as [e | offset]; [reflexivity | apply divide_by_scale].
Qed.

Lemma phase_scale_irrelevant_witness :
  offset_of (session [0] (Known (map (Cscale 3) [(1, 0)])) [0] [1])
            l_it l_ph l_vt l_vh =
  offset_of (session [0] (Known [(1, 0)]) [0] [1]) l_it l_ph l_vt l_vh /\
  c128 (st_heap (snd (plot_phase_and_heading l_it l_ph l_vt l_vh true
          (mkState (session [0] (Known (map (Cscale 3) [(1, 0)])) [0] [1])
                   no_axes)))) l_ph =
  alift (map (Cscale 3))
    (c128 (st_heap (snd (plot_phase_and_heading l_it l_ph l_vt l_vh true
             (mkState (session [0] (Known [(1, 0)]) [0] [1]) no_axes)))) l_ph).
Proof.
  apply (phase_scale_irrelevant [0] [(1, 0)] [0] [1] 3 no_axes). lra.
Defined.

(** X13.  On a valid session the call adds exactly two lines after those
    already on the Axes, the heading first and the phase second, and
    switches the legend on; the phase is drawn as angles in (-PI, PI]. *)
Theorem two_lines_drawn
    (h : heap) (it ph vt vh : loc) (ax : Axes) (subtract_offset : bool) :
  valid_session h it ph vt vh ->
  let out :=
    plot_phase_and_heading it ph vt vh subtract_offset (mkState h ax) in
  lines (st_axes (snd out)) =
    lines ax ++
    [mkLine (f64 h vt) (Known (f64 h vh)) "VR heading";
     mkLine (f64 h it) (alift np_angle (c128 (st_heap (snd out)) ph))
            "EPG phase"] /\
  legend (st_axes (snd out)) = true /\
  forall ys : list R,
    alift np_angle (c128 (st_heap (snd out)) ph) = Known ys ->
    Forall (fun y => - PI < y <= PI) ys.
Proof.
  intros Hvalid out.
  assert (Hrange : forall ys,
            alift np_angle (c128 (st_heap (snd out)) ph) = Known ys ->
            Forall (fun y => - PI < y <= PI) ys).
  { intros ys Hys. destruct (c128 (st_heap (snd out)) ph) as [zs | n];
      [| discriminate].
    cbn [alift] in Hys. injection Hys as <-.
    unfold np_angle. apply Forall_forall. intros y Hy.
    apply in_map_iff in Hy. destruct Hy as (z & <- & _). apply angle_range. }
  split; [| split; [| exact Hrange]]; subst out.
  - destruct (offset_of_valid h it ph vt vh Hvalid) as [offset Hoff].
    destruct Hvalid as (HT & _ & _ & HV).
    destruct subtract_offset.
    + rewrite (plot_run_true it ph vt vh (mkState h ax) offset Hoff HT HV).
      reflexivity.
    + rewrite (plot_run_false it ph vt vh (mkState h ax) HT HV). reflexivity.
  - destruct (offset_of_valid h it ph vt vh Hvalid) as [offset Hoff].
    destruct Hvalid as (HT & _ & _ & HV).
    destruct subtract_offset.
    + now rewrite (plot_run_true it ph vt vh (mkState h ax) offset Hoff HT HV).
    + now rewrite (plot_run_false it ph vt vh (mkState h ax) HT HV).
Qed.

Lemma two_lines_drawn_witness :
  let out :=
    plot_phase_and_heading l_it l_ph l_vt l_vh false
      (mkState demo_session no_axes) in
  lines (st_axes (snd out)) =
    lines no_axes ++
    [mkLine (f64 demo_session l_vt) (Known (f64 demo_session l_vh))
            "VR heading";
     mkLine (f64 demo_session l_it)
            (alift np_angle (c128 (st_heap (snd out)) l_ph)) "EPG phase"] /\
  legend (st_axes (snd out)) = true /\
  forall ys : list R,
    alift np_angle (c128 (st_heap (snd out)) l_ph) = Known ys ->
    Forall (fun y => - PI < y <= PI) ys.
Proof.
  apply (two_lines_drawn demo_session l_it l_ph l_vt l_vh no_axes false).
  unfold valid_session. simpl. repeat split; try lia; lra.
Defined.

(** ** The unwrapped angle that is interpolated *)

Lemma ph_correct_whole_turns (dd : R) : eq_mod_2PI (ph_correct dd) 0.
Proof.
  destruct (ph_correct_cases dd) as [[k Hk] _].
  exists k. lra.
Qed.

Lemma np_diff_map_shift (d : R) (l : list R) :
  np_diff (map (fun x => x + d) l) = np_diff l.
Proof.
  induction l as [| a | a b l IH] using list_ind2; try reflexivity.
  change (np_diff (map (fun x => x + d) (a :: b :: l)))
    with ((b + d - (a + d)) :: np_diff (map (fun x => x + d) (b :: l))).
  change (np_diff (a :: b :: l)) with ((b - a) :: np_diff (b :: l)).
  assert (Hbl : np_diff (map (fun x => x + d) (b :: l)) = np_diff (b :: l)).
  { destruct l as [| c l]; [reflexivity |].
    change (np_diff (map (fun x => x + d) (b :: c :: l)))
      with ((c + d - (b + d)) :: np_diff (map (fun x => x + d) (c :: l))).
    change (np_diff (b :: c :: l)) with ((c - b) :: np_diff (c :: l)).
    rewrite IH. f_equal. ring. }
  rewrite Hbl. f_equal. ring.
Qed.

Lemma np_unwrap_continuous (p : list R) :
  hd 0 (np_unwrap p) = hd 0 p /\
  Forall2 eq_mod_2PI (np_unwrap p) p /\
  Forall (fun d => - PI <= d <= PI) (np_diff (np_unwrap p)).
Proof.
  induction p as [| p0 rest IH].
  - repeat split; constructor.
  - destruct rest as [| p1 rest].
    + repeat split; cbn; repeat constructor. apply eq_mod_2PI_refl.
    + destruct IH as (Hhd & Hcong & Hdiff).
      rewrite np_unwrap_cons2.
      set (c := ph_correct (p1 - p0)) in *.
      destruct (np_unwrap (p1 :: rest)) as [| u0 us] eqn:Hu;
        [inversion Hcong |].
      cbn [hd] in Hhd. subst u0.
      split; [reflexivity |]. split.
      * constructor; [apply eq_mod_2PI_refl |].
        clear Hdiff Hu. revert Hcong. generalize (p1 :: us) (p1 :: rest).
        induction 1 as [| u x us' xs Hux _ IHF]; cbn [map]; constructor;
          [| exact IHF].
        replace x with (x + 0) by ring.
        apply eq_mod_2PI_plus; [exact Hux | apply ph_correct_whole_turns].
      * cbn [map].
        change (np_diff (p0 :: p1 + c :: map (fun x => x + c) us))
          with ((p1 + c - p0)
                  :: np_diff (map (fun x => x + c) (p1 :: us))).
        rewrite np_diff_map_shift. constructor; [| exact Hdiff].
        replace (p1 + c - p0) with ((p1 - p0) + ph_correct (p1 - p0))
          by (unfold c; ring).
        apply ph_correct_cases.
Qed.

Lemma Forall2_map_r {A B D : Type} (P : A -> D -> Prop) (f : B -> D)
    (us : list A) (zs : list B) :
  Forall2 P us (map f zs) -> Forall2 (fun u z => P u (f z)) us zs.
Proof.
  revert us. induction zs as [| z zs IH]; intros us H; cbn [map] in H.
  - inversion H. constructor.
  - inversion H as [| u y us' ys Huy Hrest]; subst.
    constructor; [exact Huy | now apply IH].
Qed.

(** X14.  The angle that is interpolated onto the behavioural timestamps
    is a continuous version of [np.angle(phase)]: it starts at the angle
    of the first sample, every cell is the angle of its sample up to whole
    turns, and successive cells differ by at most PI. *)
Theorem unwrapped_angle_continuous (zs : list C) :
  hd 0 (np_unwrap (np_angle zs)) = hd 0 (np_angle zs) /\
  Forall2 (fun u z => eq_mod_2PI u (angle z)) (np_unwrap (np_angle zs)) zs /\
  Forall (fun d => Rabs d <= PI) (np_diff (np_unwrap (np_angle zs))).
Proof.
  destruct (np_unwrap_continuous (np_angle zs)) as (Hhd & Hcong & Hdiff).
  split; [exact Hhd |]. split.
  - apply Forall2_map_r. exact Hcong.
  - eapply Forall_impl; [| exact Hdiff].
    intros d Hd. cbn beta in Hd. apply Rabs_le. lra.
Qed.

(** X15.  The pipeline of [plot_demo_file]: the phase of a rectangular
    fluorescence array with at least one region and one column for each
    imaging timestamp is a valid phase for [plot_phase_and_heading], which
    returns None with or without the offset step and leaves one phase cell
    for each column. *)
Theorem phase_pipeline
    (dfof : array2) (it vt vh : list R) (ax : Axes) (subtract_offset : bool) :
  wf_array2 dfof -> (1 <= shape0 dfof)%nat ->
  shape1 dfof = length it -> (1 <= length it)%nat -> nondecreasing it ->
  length vh = length vt ->
  exists phase : list C,
    to_phase dfof = ok phase /\
    let out :=
      plot_phase_and_heading l_it l_ph l_vt l_vh subtract_offset
        (mkState (session it (Known phase) vt vh) ax) in
    fst out = ok PyNone /\
    size (c128 (st_heap (snd out)) l_ph) = shape1 dfof.
Proof.
  intros Hwf _ HT Hpos Hs HV.
  rewrite (to_phase_cells dfof Hwf). eexists. split; [reflexivity |].
  set (phase := map _ (seq 0 (shape1 dfof))).
  assert (Hlen : length phase = length it)
    by (unfold phase; now rewrite length_map, length_seq).
  assert (Hvalid : valid_session (session it (Known phase) vt vh)
                                 l_it l_ph l_vt l_vh)
    by (unfold valid_session; cbn; repeat split; assumption).
  destruct (offset_of_valid _ _ _ _ _ Hvalid) as [offset Hoff].
  destruct Hvalid as (HT' & _ & _ & HV').
  cbv zeta. destruct subtract_offset.
  - rewrite (plot_run_true l_it l_ph l_vt l_vh
               (mkState (session it (Known phase) vt vh) ax) offset Hoff HT' HV').
    cbn [fst snd st_heap heap_divided c128]. split; [reflexivity |].
    cbn [l_ph Nat.eqb session c128]. rewrite size_divide_by. cbn [size]. lia.
  - rewrite (plot_run_false l_it l_ph l_vt l_vh
               (mkState (session it (Known phase) vt vh) ax) HT' HV').
    cbn [fst snd st_heap]. split; [reflexivity |].
    cbn [session c128 l_ph size]. lia.
Qed.

Lemma phase_pipeline_witness :
  exists phase : list C,
    to_phase (array_of_rows 2 [[1; 2]; [0; 1]; [3; 0]]) = ok phase /\
    let out :=
      plot_phase_and_heading l_it l_ph l_vt l_vh true
        (mkState (session [0; 1] (Known phase) [0; 1] [0; 0]) no_axes) in
    fst out = ok PyNone /\
    size (c128 (st_heap (snd out)) l_ph)
    = shape1 (array_of_rows 2 [[1; 2]; [0; 1]; [3; 0]]).
Proof.
  apply (phase_pipeline (array_of_rows 2 [[1; 2]; [0; 1]; [3; 0]])
           [0; 1] [0; 1] [0; 0] no_axes true).
  - apply wf_array_of_rows. repeat constructor.
  - simpl. lia.
  - reflexivity.
  - simpl. lia.
  - simpl. split; [lra | exact I].
  - reflexivity.
Defined.

(** * Properties of the mesh of [plot_imaging_heatmap] *)

Lemma shift_to_midpoints_cons2 (a b : R) (rest : list R) :
  shift_to_midpoints (a :: b :: rest) =
  a :: (a + b) / 2 :: tl (shift_to_midpoints (b :: rest)).
Proof.
  unfold shift_to_midpoints.
  change (np_diff (a :: b :: rest)) with ((b - a) :: np_diff (b :: rest)).
  cbn [zip_with tl]. f_equal. f_equal. field.
Qed.

Lemma length_shift_to_midpoints (time : list R) :
  length (shift_to_midpoints time) = length time.
Proof.
  destruct time as [| t0 rest]; [reflexivity |].
  unfold shift_to_midpoints. cbn [length].
  now rewrite length_zip_with, length_np_diff, Nat.min_id.
Qed.

(** Past the first cell, cell [k + 1] is the mid-point of the timestamps
    [k] and [k + 1]. *)
Lemma nth_shift_to_midpoints (time : list R) :
  forall k, (S k < length time)%nat ->
  nth (S k) (shift_to_midpoints time) 0 =
  (nth k time 0 + nth (S k) time 0) / 2.
Proof.
  induction time as [| a rest IH]; intros k Hk; [cbn in Hk; lia |].
  destruct rest as [| b rest]; [cbn in Hk; lia |].
  rewrite shift_to_midpoints_cons2.
  destruct k as [| k]; [reflexivity |].
  change (nth (S (S k)) (a :: (a + b) / 2 :: tl (shift_to_midpoints (b :: rest))) 0)
    with (nth k (tl (shift_to_midpoints (b :: rest))) 0).
  change (nth (S k) (a :: b :: rest) 0) with (nth k (b :: rest) 0).
  change (nth (S (S k)) (a :: b :: rest) 0) with (nth (S k) (b :: rest) 0).
  rewrite <- IH by (cbn [length] in *; lia).
  unfold shift_to_midpoints. reflexivity.
Qed.

Lemma midpoints_nondecreasing (rest : list R) :
  forall a x : R,
  nondecreasing (a :: rest) -> x <= a ->
  nondecreasing (x :: tl (shift_to_midpoints (a :: rest))).
Proof.
  induction rest as [| b rest IH]; intros a x Hs Hx; [exact I |].
  rewrite shift_to_midpoints_cons2. cbn [tl].
  destruct Hs as [Hab Hs].
  change (x <= (a + b) / 2 /\
          nondecreasing ((a + b) / 2 :: tl (shift_to_midpoints (b :: rest)))).
  split; [lra |]. apply IH; [exact Hs | lra].
Qed.

Lemma Rsum_diff_nonneg (l : list R) : nondecreasing l -> 0 <= Rsum (np_diff l).
Proof.
  induction l as [| a rest IH]; intros Hs; [unfold Rsum; cbn; lra |].
  destruct rest as [| b rest]; [unfold Rsum; cbn; lra |].
  change (np_diff (a :: b :: rest)) with ((b - a) :: np_diff (b :: rest)).
  rewrite Rsum_cons. destruct Hs as [Hab Hs]. specialize (IH Hs). lra.
Qed.

Lemma mean_diff_nonneg (l : list R) (m : R) :
  nondecreasing l -> np_mean_real (np_diff l) = Some m -> 0 <= m.
Proof.
  intros Hs Hm. pose proof (Rsum_diff_nonneg l Hs) as Hsum.
  unfold np_mean_real in Hm. destruct (np_diff l) as [| d ds]; [discriminate |].
  injection Hm as <-.
  apply Rmult_le_pos; [exact Hsum |].
  apply Rlt_le, Rinv_0_lt_compat.
  change (0 < INR (S (length ds))). apply lt_0_INR. lia.
Qed.

(** What [heatmap_time_edges] returns for two timestamps or more. *)
Lemma heatmap_time_edges_known (t0 t1 : R) (rest : list R) :
  exists m m' : R,
    np_mean_real (np_diff (shift_to_midpoints (t0 :: t1 :: rest))) = Some m /\
    np_mean_real (np_diff ((t0 - m / 2)
                           :: tl (shift_to_midpoints (t0 :: t1 :: rest))))
    = Some m' /\
    heatmap_time_edges (t0 :: t1 :: rest) =
    inr (Known ((t0 - m / 2 - m') :: (t0 - m / 2)
                :: tl (shift_to_midpoints (t0 :: t1 :: rest)))).
Proof.
  unfold heatmap_time_edges. rewrite shift_to_midpoints_cons2. cbn [tl].
  set (mids := tl (shift_to_midpoints (t1 :: rest))).
  change (np_diff (t0 :: (t0 + t1) / 2 :: mids))
    with (((t0 + t1) / 2 - t0) :: np_diff ((t0 + t1) / 2 :: mids)).
  cbn [np_mean_real]. eexists. eexists. split; [reflexivity |].
  match goal with
  | |- context [t0 - ?m / 2] => set (mm := m)
  end.
  change (np_diff (t0 - mm / 2 :: (t0 + t1) / 2 :: mids))
    with (((t0 + t1) / 2 - (t0 - mm / 2)) :: np_diff ((t0 + t1) / 2 :: mids)).
  cbn [np_mean_real hd]. split; reflexivity.
Qed.

(** Two cells in front of the mid-points: the cells from the third on. *)
Lemma midpoint_cells (time : list R) (a b : R) :
  (2 <= length time)%nat ->
  length (a :: b :: tl (shift_to_midpoints time)) = S (length time) /\
  forall j : nat, (2 <= j <= length time)%nat ->
    nth j (a :: b :: tl (shift_to_midpoints time)) 0 =
    (nth (j - 2) time 0 + nth (j - 1) time 0) / 2.
Proof.
  intros Hlen.
  pose proof (length_shift_to_midpoints time) as Hl.
  pose proof (nth_shift_to_midpoints time) as Hnth.
  destruct (shift_to_midpoints time) as [| s0 mids];
    [cbn [length] in Hl; lia |].
  cbn [tl length] in *. split; [lia |].
  intros j Hj. destruct j as [| [| k]]; try lia.
  change (nth (S (S k)) (a :: b :: mids) 0) with (nth (S k) (s0 :: mids) 0).
  rewrite Hnth by lia.
  replace (S (S k) - 2)%nat with k by lia.
  replace (S (S k) - 1)%nat with (S k) by lia. reflexivity.
Qed.

(** X16.  Without any timestamp [plot_imaging_heatmap] stops at [time[0]]
    with an IndexError; with a single timestamp the mean step is nan and
    the two edges it computes are not numbers. *)
Theorem heatmap_edges_degenerate :
  heatmap_time_edges [] = inl IndexError /\
  forall t0 : R, heatmap_time_edges [t0] = inr (Lost 2).
Proof.
  split; [reflexivity | intros t0; reflexivity].
Qed.

(** X17.  For T >= 2 timestamps the mesh has T + 1 edges along the time
    axis, and from the third edge on they are the mid-points of successive
    timestamps: the cell of column [j >= 2] lies between the mid-points
    around timestamp [j - 1], and the last edge is the mid-point of the
    last two timestamps. *)
Theorem heatmap_edges_midpoints (time : list R) :
  (2 <= length time)%nat ->
  exists edges : list R,
    heatmap_time_edges time = inr (Known edges) /\
    length edges = S (length time) /\
    forall j : nat, (2 <= j <= length time)%nat ->
      nth j edges 0 = (nth (j - 2) time 0 + nth (j - 1) time 0) / 2.
Proof.
  intros Hlen.
  destruct time as [| t0 [| t1 rest]]; try (cbn in Hlen; lia).
  destruct (heatmap_time_edges_known t0 t1 rest) as (m & m' & _ & _ & Hedges).
  eexists. split; [exact Hedges |].
  apply midpoint_cells. cbn [length]. lia.
Qed.

Lemma heatmap_edges_midpoints_witness :
  exists edges : list R,
    heatmap_time_edges [0; 2; 6] = inr (Known edges) /\
    length edges = S (length [0; 2; 6]) /\
    forall j : nat, (2 <= j <= length [0; 2; 6])%nat ->
      nth j edges 0 = (nth (j - 2) [0; 2; 6] 0 + nth (j - 1) [0; 2; 6] 0) / 2.
Proof.
  apply (heatmap_edges_midpoints [0; 2; 6]). simpl. lia.
Defined.

(** X18.  Non-decreasing timestamps give non-decreasing edges, as a mesh
    needs; the last edge does not reach the last timestamp. *)
Theorem heatmap_edges_monotone (time : list R) :
  (2 <= length time)%nat -> nondecreasing time ->
  exists edges : list R,
    heatmap_time_edges time = inr (Known edges) /\
    nondecreasing edges /\
    last edges 0 <= last time 0.
Proof.
  intros Hlen Hs.
  destruct time as [| t0 [| t1 rest]]; try (cbn in Hlen; lia).
  destruct (heatmap_time_edges_known t0 t1 rest) as (m & m' & Hm & Hm' & Hedges).
  eexists. split; [exact Hedges |].
  set (mids := tl (shift_to_midpoints (t0 :: t1 :: rest))) in *.
  assert (Hs1 : nondecreasing (shift_to_midpoints (t0 :: t1 :: rest))).
  { pose proof (midpoints_nondecreasing (t1 :: rest) t0 t0 Hs (Rle_refl t0))
      as H.
    unfold shift_to_midpoints in *. exact H. }
  pose proof (mean_diff_nonneg _ m Hs1 Hm) as Hmpos.
  assert (Hs2 : nondecreasing ((t0 - m / 2) :: mids))
    by (apply midpoints_nondecreasing; [exact Hs | lra]).
  pose proof (mean_diff_nonneg _ m' Hs2 Hm') as Hm'pos.
  split.
  - change (t0 - m / 2 - m' <= t0 - m / 2 /\ nondecreasing ((t0 - m / 2) :: mids)).
    split; [lra | exact Hs2].
  - pose proof (midpoint_cells (t0 :: t1 :: rest) (t0 - m / 2 - m')
                  (t0 - m / 2) Hlen) as (Hl & Hmid).
    fold mids in Hl, Hmid.
    specialize (Hmid (length (t0 :: t1 :: rest)) ltac:(cbn [length] in *; lia)).
    assert (Hlast : forall l : list R, l <> [] ->
              last l 0 = nth (length l - 1) l 0).
    { intros l Hl0. destruct l as [| x l]; [contradiction |].
      cbn [length]. replace (S (length l) - 1)%nat with (length l) by lia.
      symmetry. apply nth_length_last. }
    rewrite (Hlast (t0 - m / 2 - m' :: t0 - m / 2 :: mids)) by discriminate.
    rewrite Hl. replace (S (length (t0 :: t1 :: rest)) - 1)%nat
      with (length (t0 :: t1 :: rest)) by lia.
    rewrite Hmid.
    assert (Hle : forall i, (i < length (t0 :: t1 :: rest))%nat ->
              nth i (t0 :: t1 :: rest) 0 <= last (t0 :: t1 :: rest) 0).
    { intros i Hi. apply nondecreasing_le_last; [exact Hs |].
      now apply nth_In. }
    pose proof (Hle (length (t0 :: t1 :: rest) - 2)%nat
                  ltac:(cbn [length]; lia)).
    pose proof (Hle (length (t0 :: t1 :: rest) - 1)%nat
                  ltac:(cbn [length]; lia)).
    lra.
Qed.

Lemma heatmap_edges_monotone_witness :
  exists edges : list R,
    heatmap_time_edges [0; 2; 6] = inr (Known edges) /\
    nondecreasing edges /\
    last edges 0 <= last [0; 2; 6] 0.
Proof.
  apply (heatmap_edges_monotone [0; 2; 6]).
  - simpl. lia.
  - simpl. repeat split; lra.
Defined.

(** X19.  Along the regions the mesh has R + 1 edges from -PI to PI, in
    R equal steps of 2 PI / R. *)
Theorem heatmap_rows_equal (data : array2) :
  (1 <= shape0 data)%nat ->
  length (heatmap_y_edges data) = S (shape0 data) /\
  forall k : nat, (k <= shape0 data)%nat ->
    nth k (heatmap_y_edges data) 0 =
    - PI + INR k * (2 * PI / INR (shape0 data)).
Proof.
  intros HR. unfold heatmap_y_edges.
  split; [rewrite length_np_linspace; lia |].
  intros k Hk. rewrite np_linspace_spec_angles by lia.
  unfold spec_angles. rewrite nth_map_seq by lia.
  now replace (shape0 data + 1 - 1)%nat with (shape0 data) by lia.
Qed.

Lemma heatmap_rows_equal_witness :
  let data := array_of_rows 1 [[1]; [2]] in
  length (heatmap_y_edges data) = S (shape0 data) /\
  forall k : nat, (k <= shape0 data)%nat ->
    nth k (heatmap_y_edges data) 0 =
    - PI + INR k * (2 * PI / INR (shape0 data)).
Proof.
  apply (heatmap_rows_equal (array_of_rows 1 [[1]; [2]])). simpl. lia.
Defined.

(** * Properties of the computations of [plot_demo_file] *)

(** ** The split at the onset *)

Lemma where_from_In (mask : R -> bool) (l : list R) :
  forall i j : nat,
  In j (where_from mask l i) <->
  (i <= j < i + length l)%nat /\ mask (nth (j - i) l 0) = true.
Proof.
  induction l as [| x rest IH]; intros i j; cbn [where_from length].
  - split; [contradiction | lia].
  - assert (Hstep : In j (where_from mask rest (S i)) <->
                    (S i <= j < S i + length rest)%nat /\
                    mask (nth (j - i) (x :: rest) 0) = true).
    { rewrite IH. split; intros [Hr Hm]; (split; [lia |]).
      - replace (j - i)%nat with (S (j - S i)) by lia. exact Hm.
      - replace (j - i)%nat with (S (j - S i)) in Hm by lia. exact Hm. }
    destruct (mask x) eqn:Hx.
    + cbn [In]. rewrite Hstep. split.
      * intros [<- | [Hr Hm]].
        -- split; [lia |]. now rewrite Nat.sub_diag.
        -- split; [lia | exact Hm].
      * intros [Hr Hm]. destruct (Nat.eq_dec i j) as [-> | Hne]; [now left |].
        right. split; [lia | exact Hm].
    + rewrite Hstep. split.
      * intros [Hr Hm]. split; [lia | exact Hm].
      * intros [Hr Hm]. split; [| exact Hm].
        destruct (Nat.eq_dec i j) as [-> | Hne]; [| lia].
        rewrite Nat.sub_diag in Hm. cbn in Hm. congruence.
Qed.

Lemma is_from_not_before (t x : R) : is_from t x = negb (is_before t x).
Proof.
  unfold is_from, is_before.
  destruct (Rge_dec x t), (Rlt_dec x t); try reflexivity; lra.
Qed.

Lemma where_from_partition (t : R) (l : list R) (i : nat) :
  (length (where_from (is_before t) l i)
   + length (where_from (is_from t) l i) = length l)%nat.
Proof.
  revert i. induction l as [| x rest IH]; intros i; [reflexivity |].
  cbn [where_from]. rewrite is_from_not_before.
  destruct (is_before t x); cbn [negb length]; specialize (IH (S i)); lia.
Qed.

Lemma where_from_in_range (mask : R -> bool) (l : list R) (n : nat) :
  (length l <= n)%nat ->
  forallb (fun i => (i <? n)%nat) (where_from mask l 0) = true.
Proof.
  intros Hn. apply forallb_forall. intros j Hj.
  apply where_from_In in Hj. apply Nat.ltb_lt. lia.
Qed.

Lemma wf_take (a : array2) (idx : list nat) :
  wf_array2 a ->
  wf_array2 (mkArray2 (shape0 a) (length idx)
               (map (fun row => map (fun i => nth i row 0) idx) (rows a))).
Proof.
  intros [Hlen _]. split; cbn [rows shape0 shape1].
  - now rewrite length_map.
  - apply Forall_forall. intros row Hrow.
    apply in_map_iff in Hrow. destruct Hrow as (r & <- & _).
    apply length_map.
Qed.

(** X20.  When there are no more imaging timestamps than columns, the
    split raises nothing: both parts are rectangular, keep every region,
    and share out one column for each timestamp. *)
Theorem split_shares_columns (dfof : array2) (ts : list R) (onset : R) :
  wf_array2 dfof -> (length ts <= shape1 dfof)%nat ->
  exists pre during : array2,
    split_at_onset dfof ts onset = inr (pre, during) /\
    wf_array2 pre /\ wf_array2 during /\
    shape0 pre = shape0 dfof /\ shape0 during = shape0 dfof /\
    (shape1 pre + shape1 during = length ts)%nat.
Proof.
  intros Hwf Hlen. unfold split_at_onset, np_take_columns.
  rewrite !where_from_in_range by assumption.
  do 2 eexists. split; [reflexivity |].
  split; [now apply wf_take |]. split; [now apply wf_take |].
  cbn [shape0 shape1]. repeat split. apply where_from_partition.
Qed.

Lemma split_shares_columns_witness :
  exists pre during : array2,
    split_at_onset (array_of_rows 3 [[1; 2; 3]; [4; 5; 6]]) [0; 1; 2] 1
    = inr (pre, during) /\
    wf_array2 pre /\ wf_array2 during /\
    shape0 pre = shape0 (array_of_rows 3 [[1; 2; 3]; [4; 5; 6]]) /\
    shape0 during = shape0 (array_of_rows 3 [[1; 2; 3]; [4; 5; 6]]) /\
    (shape1 pre + shape1 during = length [0; 1; 2])%nat.
Proof.
  apply (split_shares_columns (array_of_rows 3 [[1; 2; 3]; [4; 5; 6]])
           [0; 1; 2] 1).
  - apply wf_array_of_rows. repeat constructor.
  - simpl. lia.
Defined.

(** X21.  With more imaging timestamps than columns the split is an
    IndexError: the timestamp past the last column is selected by one of
    the two masks. *)
Theorem split_index_error (dfof : array2) (ts : list R) (onset : R) :
  (shape1 dfof < length ts)%nat ->
  split_at_onset dfof ts onset = inl IndexError.
Proof.
  intros Hlen. unfold split_at_onset, np_take_columns.
  set (n := shape1 dfof) in *.
  assert (Hin : In n (where_from (is_before onset) ts 0) \/
                In n (where_from (is_from onset) ts 0)).
  { rewrite !where_from_In, is_from_not_before.
    destruct (is_before onset (nth (n - 0) ts 0)); [left | right];
      (split; [lia | reflexivity]). }
  destruct (forallb _ (where_from (is_before onset) ts 0)) eqn:Hpre;
    [| reflexivity].
  destruct (forallb _ (where_from (is_from onset) ts 0)) eqn:Hdur;
    [| reflexivity].
  exfalso. rewrite forallb_forall in Hpre, Hdur.
  destruct Hin as [Hin | Hin];
    [apply Hpre in Hin | apply Hdur in Hin]; apply Nat.ltb_lt in Hin; lia.
Qed.

Lemma split_index_error_witness :
  split_at_onset (array_of_rows 1 [[1]; [4]]) [0; 1] 1 = inl IndexError.
Proof.
  apply (split_index_error (array_of_rows 1 [[1]; [4]]) [0; 1] 1).
  simpl. lia.
Defined.

Lemma where_from_all_from (t : R) (l : list R) (i : nat) :
  (forall x, In x l -> t <= x) ->
  where_from (is_before t) l i = [] /\
  where_from (is_from t) l i = seq i (length l).
Proof.
  revert i. induction l as [| x rest IH]; intros i Hall; [split; reflexivity |].
  cbn [where_from length seq]. rewrite is_from_not_before.
  assert (Hx : is_before t x = false).
  { unfold is_before. destruct (Rlt_dec x t) as [Hlt | _]; [| reflexivity].
    specialize (Hall x (or_introl eq_refl)). lra. }
  rewrite Hx. cbn [negb].
  destruct (IH (S i) (fun y Hy => Hall y (or_intror Hy))) as [-> ->].
  split; reflexivity.
Qed.

Lemma where_from_sorted (t : R) (l : list R) :
  forall i : nat, nondecreasing l ->
  exists k : nat,
    (k <= length l)%nat /\
    where_from (is_before t) l i = seq i k /\
    where_from (is_from t) l i = seq (i + k) (length l - k).
Proof.
  induction l as [| x rest IH]; intros i Hs.
  - exists 0%nat. repeat split. cbn. lia.
  - destruct (Rlt_dec x t) as [Hlt | Hge].
    + destruct (IH (S i) (nondecreasing_tail _ _ Hs)) as (k & Hk & Hb & Hf).
      exists (S k). cbn [where_from length]. rewrite is_from_not_before.
      assert (Hx : is_before t x = true)
        by (unfold is_before; destruct (Rlt_dec x t); [reflexivity | lra]).
      rewrite Hx. cbn [negb]. rewrite Hb, Hf.
      split; [lia |]. split; [reflexivity |].
      f_equal; lia.
    + exists 0%nat.
      assert (Hall : forall y, In y (x :: rest) -> t <= y).
      { intros y [<- | Hy]; [lra |].
        apply Rle_trans with x; [lra |].
        now apply (nondecreasing_head_le x rest). }
      destruct (where_from_all_from t (x :: rest) i Hall) as [-> ->].
      split; [lia |]. split; [reflexivity |].
      f_equal; lia.
Qed.

Lemma map_nth_seq_all (row : list R) :
  map (fun i => nth i row 0) (seq 0 (length row)) = row.
Proof.
  apply (nth_ext _ _ 0 0).
  - now rewrite length_map, length_seq.
  - intros i Hi. rewrite length_map, length_seq in Hi.
    now rewrite nth_map_seq.
Qed.

Lemma cut_row (row : list R) (k : nat) :
  (k <= length row)%nat ->
  map (fun i => nth i row 0) (seq 0 k)
  ++ map (fun i => nth i row 0) (seq (0 + k) (length row - k)) = row.
Proof.
  intros Hk. rewrite <- map_app, <- seq_app.
  replace (k + (length row - k))%nat with (length row) by lia.
  apply map_nth_seq_all.
Qed.

(** X22.  For non-decreasing imaging timestamps, one for each column, the
    split is a cut: every row of the recording is its row before the onset
    followed by its row from the onset on, the columns before the cut have
    a timestamp below the onset and the others do not. *)
Theorem split_sorted_is_cut (dfof : array2) (ts : list R) (onset : R) :
  wf_array2 dfof -> length ts = shape1 dfof -> nondecreasing ts ->
  exists pre during : array2,
    split_at_onset dfof ts onset = inr (pre, during) /\
    rows dfof = zip_with (@app R) (rows pre) (rows during) /\
    (forall j : nat, (j < shape1 pre)%nat -> nth j ts 0 < onset) /\
    (forall j : nat, (shape1 pre <= j < length ts)%nat -> onset <= nth j ts 0).
Proof.
  intros Hwf Hlen Hs. unfold split_at_onset, np_take_columns.
  rewrite !where_from_in_range by lia.
  destruct (where_from_sorted onset ts 0 Hs) as (k & Hk & Hb & Hf).
  do 2 eexists. split; [reflexivity |]. cbn [rows shape1].
  split; [| split].
  - rewrite zip_with_map, Hb, Hf.
    rewrite <- (map_id (rows dfof)) at 1.
    apply map_ext_in. intros row Hrow.
    destruct Hwf as [_ Hrows]. rewrite Forall_forall in Hrows.
    rewrite Hlen, <- (Hrows row Hrow). symmetry. apply cut_row.
    rewrite (Hrows row Hrow). lia.
  - intros j Hj. rewrite Hb, length_seq in Hj.
    assert (Hin : In j (where_from (is_before onset) ts 0))
      by (rewrite Hb; apply in_seq; lia).
    apply where_from_In in Hin. destruct Hin as [_ Hm].
    rewrite Nat.sub_0_r in Hm. unfold is_before in Hm.
    destruct (Rlt_dec (nth j ts 0) onset); [assumption | discriminate].
  - intros j Hj. rewrite Hb, length_seq in Hj.
    assert (Hin : In j (where_from (is_from onset) ts 0))
      by (rewrite Hf; apply in_seq; lia).
    apply where_from_In in Hin. destruct Hin as [_ Hm].
    rewrite Nat.sub_0_r in Hm. unfold is_from in Hm.
    destruct (Rge_dec (nth j ts 0) onset); [lra | discriminate].
Qed.

Lemma split_sorted_is_cut_witness :
  let dfof := array_of_rows 3 [[1; 2; 3]; [4; 5; 6]] in
  exists pre during : array2,
    split_at_onset dfof [0; 1; 2] 1 = inr (pre, during) /\
    rows dfof = zip_with (@app R) (rows pre) (rows during) /\
    (forall j : nat, (j < shape1 pre)%nat -> nth j [0; 1; 2] 0 < 1) /\
    (forall j : nat, (shape1 pre <= j < length [0; 1; 2])%nat ->
       1 <= nth j [0; 1; 2] 0).
Proof.
  apply (split_sorted_is_cut (array_of_rows 3 [[1; 2; 3]; [4; 5; 6]])
           [0; 1; 2] 1).
  - apply wf_array_of_rows. repeat constructor.
  - reflexivity.
  - simpl. repeat split; lra.
Defined.

(** ** The points given to ripser *)

Lemma every_spec {A : Type} (k : nat) (d : A) :
  (1 <= k)%nat ->
  forall (l : list A) (skip i : nat),
  ((i < length (every k skip l))%nat <-> (skip + i * k < length l)%nat) /\
  nth i (every k skip l) d = nth (skip + i * k) l d.
Proof.
  intros Hk. induction l as [| x rest IH]; intros skip i.
  - cbn [every length]. split; [lia |]. now destruct i, (skip + _)%nat.
  - destruct skip as [| s]; cbn [every].
    + destruct i as [| i].
      * cbn. split; [lia | reflexivity].
      * destruct (IH (k - 1)%nat i) as [Hlen Hnth].
        replace (0 + S i * k)%nat with (S (k - 1 + i * k)) by lia.
        cbn [length nth]. split; [lia | exact Hnth].
    + destruct (IH s i) as [Hlen Hnth].
      change (S s + i * k)%nat with (S (s + i * k)).
      cbn [length nth]. split; [lia | exact Hnth].
Qed.

Lemma length_every {A : Type} (k : nat) (l : list A) :
  (1 <= k)%nat -> length (every k 0 l) = ((length l + k - 1) / k)%nat.
Proof.
  intros Hk.
  assert (Hiff : forall i, (i < length (every k 0 l))%nat <->
                           (i * k < length l)%nat).
  { intros i. destruct l as [| x rest]; [cbn; lia |].
    destruct (every_spec k x Hk (x :: rest) 0 i) as [H _]. exact H. }
  set (m := length (every k 0 l)) in *.
  destruct (Nat.eq_dec m 0) as [Hm | Hm].
  - assert (length l = 0)%nat.
    { destruct (Nat.eq_dec (length l) 0) as [| Hne]; [assumption |].
      assert (0 < m)%nat by (apply Hiff; lia). lia. }
    symmetry. rewrite Hm. apply Nat.div_small. lia.
  - assert (Hlow : ((m - 1) * k < length l)%nat) by (apply Hiff; lia).
    assert (Hup : (length l <= m * k)%nat).
    { destruct (Nat.le_gt_cases (length l) (m * k)) as [| Hgt];
        [assumption |].
      apply Hiff in Hgt. lia. }
    assert (Hmk : (m * k = (m - 1) * k + k)%nat).
    { replace m with (S (m - 1)) at 1 by lia. cbn [Nat.mul]. lia. }
    apply (Nat.div_unique _ _ _ (length l + k - 1 - k * m)%nat); lia.
Qed.

Lemma length_transpose (a : array2) : length (transpose a) = shape1 a.
Proof.
  unfold transpose. now rewrite length_map, length_seq.
Qed.

Lemma nth_transpose (a : array2) (j : nat) :
  (j < shape1 a)%nat ->
  nth j (transpose a) [] = map (fun row => nth j row 0) (rows a).
Proof.
  intros Hj. unfold transpose. now rewrite nth_map_seq.
Qed.

(** X23.  With a step [d >= 1] ripser is given one point for every [d]-th
    frame, starting with the first: point [i] is the frame [i * d] across
    the regions, and there are as many points as multiples of [d] below
    the number of frames, which is the number of frames over [d], rounded
    up. *)
Theorem ripser_points_every_dth (dfof : array2) (d : Z) :
  (1 <= d)%Z ->
  exists pts : list (list R),
    ripser_points dfof d = ok pts /\
    length pts = ((shape1 dfof + Z.to_nat d - 1) / Z.to_nat d)%nat /\
    forall i : nat,
      ((i < length pts)%nat <-> (i * Z.to_nat d < shape1 dfof)%nat) /\
      ((i < length pts)%nat ->
       nth i pts [] = map (fun row => nth (i * Z.to_nat d)%nat row 0)
                          (rows dfof)).
Proof.
  intros Hd. unfold ripser_points, slice_step.
  destruct (Z.eqb_spec d 0) as [| _]; [lia |].
  destruct (Z.ltb_spec 0 d) as [_ |]; [| lia].
  assert (Hk : (1 <= Z.to_nat d)%nat) by lia.
  eexists. split; [reflexivity |].
  split; [now rewrite length_every, length_transpose |].
  intros i.
  destruct (every_spec (Z.to_nat d) (@nil R) Hk (transpose dfof) 0 i)
    as [Hlen Hnth].
  rewrite length_transpose in Hlen. cbn [Nat.add] in Hlen, Hnth.
  split; [exact Hlen |].
  intros Hi. rewrite Hnth. apply nth_transpose. now apply Hlen.
Qed.

Lemma ripser_points_every_dth_witness :
  let dfof := array_of_rows 3 [[1; 2; 3]; [4; 5; 6]] in
  exists pts : list (list R),
    ripser_points dfof 2 = ok pts /\
    length pts = ((shape1 dfof + Z.to_nat 2 - 1) / Z.to_nat 2)%nat /\
    forall i : nat,
      ((i < length pts)%nat <-> (i * Z.to_nat 2 < shape1 dfof)%nat) /\
      ((i < length pts)%nat ->
       nth i pts [] = map (fun row => nth (i * Z.to_nat 2)%nat row 0)
                          (rows dfof)).
Proof.
  apply (ripser_points_every_dth (array_of_rows 3 [[1; 2; 3]; [4; 5; 6]]) 2).
  lia.
Defined.

(** X24.  A step below zero raises nothing and walks the frames backwards:
    the first point is the last frame, point [i] is the frame
    [T - 1 - i * |d|]. *)
Theorem ripser_points_backwards (dfof : array2) (d : Z) :
  (d <= -1)%Z ->
  exists pts : list (list R),
    ripser_points dfof d = ok pts /\
    forall i : nat,
      ((i < length pts)%nat <-> (i * Z.to_nat (- d) < shape1 dfof)%nat) /\
      ((i < length pts)%nat ->
       nth i pts [] =
       map (fun row => nth (shape1 dfof - 1 - i * Z.to_nat (- d))%nat row 0)
           (rows dfof)).
Proof.
  intros Hd. unfold ripser_points, slice_step.
  destruct (Z.eqb_spec d 0) as [| _]; [lia |].
  destruct (Z.ltb_spec 0 d) as [| _]; [lia |].
  assert (Hk : (1 <= Z.to_nat (- d))%nat) by lia.
  eexists. split; [reflexivity |].
  intros i.
  destruct (every_spec (Z.to_nat (- d)) (@nil R) Hk (rev (transpose dfof)) 0 i)
    as [Hlen Hnth].
  rewrite length_rev, length_transpose in Hlen. cbn [Nat.add] in Hlen, Hnth.
  split; [exact Hlen |].
  intros Hi. apply Hlen in Hi. rewrite Hnth.
  rewrite rev_nth by (rewrite length_transpose; exact Hi).
  rewrite length_transpose.
  replace (shape1 dfof - S (i * Z.to_nat (- d)))%nat
    with (shape1 dfof - 1 - i * Z.to_nat (- d))%nat by lia.
  apply nth_transpose. lia.
Qed.

Lemma ripser_points_backwards_witness :
  let dfof := array_of_rows 3 [[1; 2; 3]; [4; 5; 6]] in
  exists pts : list (list R),
    ripser_points dfof (-2) = ok pts /\
    forall i : nat,
      ((i < length pts)%nat <-> (i * Z.to_nat (- (-2)) < shape1 dfof)%nat) /\
      ((i < length pts)%nat ->
       nth i pts [] =
       map (fun row => nth (shape1 dfof - 1 - i * Z.to_nat (- (-2)))%nat row 0)
           (rows dfof)).
Proof.
  apply (ripser_points_backwards (array_of_rows 3 [[1; 2; 3]; [4; 5; 6]])
           (-2)).
  lia.
Defined.

(** ** The ticks of the time axis *)

Lemma astype_int_floor (x : R) :
  0 <= x ->
  (0 <= astype_int x)%Z /\ IZR (astype_int x) <= x < IZR (astype_int x) + 1.
Proof.
  intros Hx. unfold astype_int. destruct (Rle_dec 0 x) as [_ | Hn]; [| lra].
  destruct (base_Int_part x) as [Hlo Hhi]. split; [| lra].
  assert (Hlt : IZR (-1) < IZR (Int_part x)) by lra.
  apply lt_IZR in Hlt. lia.
Qed.

(** X25.  For a recording whose timestamps do not decrease, the time axis
    gets four ticks at equal distances from the first timestamp to the
    last, each labelled with the whole number of 10^9 units gone since the
    first timestamp, so the first label is 0. *)
Theorem xticks_whole_seconds (image_timestamps : list R) :
  image_timestamps <> [] -> nondecreasing image_timestamps ->
  exists (ticks : list R) (labels : list Z),
    xticks image_timestamps = inr (ticks, labels) /\
    length ticks = 4%nat /\ length labels = 4%nat /\
    nth 0 labels 0%Z = 0%Z /\
    nth 3 ticks 0 = last image_timestamps 0 /\
    forall i : nat, (i < 4)%nat ->
      let since := INR i * ((last image_timestamps 0 - hd 0 image_timestamps) / 3) in
      nth i ticks 0 = hd 0 image_timestamps + since /\
      (0 <= nth i labels 0)%Z /\
      IZR (nth i labels 0%Z) <= since / 1000000000
        < IZR (nth i labels 0%Z) + 1.
Proof.
  intros Hne Hs. destruct image_timestamps as [| t0 rest]; [contradiction |].
  unfold xticks. set (tl := last (t0 :: rest) 0).
  assert (Hle : t0 <= tl)
    by (apply nondecreasing_le_last; [exact Hs | now left]).
  unfold np_linspace.
  cbn [Nat.sub Nat.ltb Nat.leb seq map removelast app hd].
  do 2 eexists. split; [reflexivity |].
  split; [reflexivity |]. split; [reflexivity |].
  assert (Hfloor : forall x y : R, 0 <= y -> x = y ->
            (0 <= astype_int x)%Z /\
            IZR (astype_int x) <= y < IZR (astype_int x) + 1).
  { intros x y Hy ->. now apply astype_int_floor. }
  split; [| split; [reflexivity |]].
  - cbn [nth]. destruct (Hfloor ((INR 0 * ((tl - t0) / INR 3) + t0 - t0)
                                 / 1000000000) 0 (Rle_refl 0)) as [H0 H1].
    { simpl INR. lra. }
    assert (Hlt : IZR (astype_int ((INR 0 * ((tl - t0) / INR 3) + t0 - t0)
                                   / 1000000000)) < IZR 1) by lra.
    apply lt_IZR in Hlt. lia.
  - intros i Hi. cbv zeta.
    destruct i as [| [| [| [| i]]]]; try lia; cbn [nth];
      (split; [simpl INR; lra |]); apply Hfloor;
      try (simpl INR; lra).
Qed.

Lemma xticks_whole_seconds_witness :
  exists (ticks : list R) (labels : list Z),
    xticks [0; 3000000000] = inr (ticks, labels) /\
    length ticks = 4%nat /\ length labels = 4%nat /\
    nth 0 labels 0%Z = 0%Z /\
    nth 3 ticks 0 = last [0; 3000000000] 0 /\
    forall i : nat, (i < 4)%nat ->
      let since := INR i * ((last [0; 3000000000] 0 - hd 0 [0; 3000000000]) / 3) in
      nth i ticks 0 = hd 0 [0; 3000000000] + since /\
      (0 <= nth i labels 0)%Z /\
      IZR (nth i labels 0%Z) <= since / 1000000000
        < IZR (nth i labels 0%Z) + 1.
Proof.
  apply (xticks_whole_seconds [0; 3000000000]).
  - discriminate.
  - simpl. lra.
Defined.

(** * The all-ones scenario of [to_phase] *)

(** C9.  With 8 regions and 100 samples, the phase of the all-ones array
    is the same at each of the 100 time samples: the sum of the reordered
    unit vectors at the 8 equally spaced angles, which is -1. *)
Theorem to_phase_ones_8_100 :
  to_phase (ones 8 100)
  = ok (repeat (Csum (spec_reorder (spec_unit_vectors 8))) 100) /\
  Csum (spec_reorder (spec_unit_vectors 8)) = (-1, 0).
Proof.
  rewrite <- (circ_of_spec 8) by lia.
  split; [apply to_phase_ones | apply Csum_circ_of; lia].
Qed.

(** * The offset correction, step by step *)

(** ** The angle and its unwrapping are those of the specification *)

Lemma spec_angle_of_angle (z : C) : spec_angle_of z (angle z).
Proof.
  split; [apply angle_range |].
  destruct (Ceq_zero_dec z) as [-> | Hz]; [| now apply polar].
  rewrite Cabs_zero. unfold Cscale, Czero. f_equal; ring.
Qed.

Lemma spec_angles_of_np_angle (zs : list C) :
  Forall2 spec_angle_of zs (np_angle zs).
Proof.
  induction zs as [| z zs IH]; cbn [np_angle map]; constructor;
    [apply spec_angle_of_angle | exact IH].
Qed.

Lemma spec_continuous_of_diff (u : list R) :
  Forall (fun d => - PI <= d <= PI) (np_diff u) -> spec_continuous u.
Proof.
  induction u as [| a rest IH]; intros Hd; [exact I |].
  destruct rest as [| b rest]; [exact I |].
  change (np_diff (a :: b :: rest)) with ((b - a) :: np_diff (b :: rest)) in Hd.
  inversion Hd as [| d ds Hab Hrest]; subst.
  split; [apply Rabs_le; exact Hab | apply IH; exact Hrest].
Qed.

Lemma np_unwrap_spec (theta : list R) : spec_unwrapped theta (np_unwrap theta).
Proof.
  destruct (np_unwrap_continuous theta) as (Hhd & Hmod & Hd).
  split; [exact Hmod |]. split; [exact Hhd |].
  now apply spec_continuous_of_diff.
Qed.

(** The offset the code computes, from the angle and the unwrapping of the
    specification. *)
Lemma offset_of_steps (h : heap) (it ph vt vh : loc) (zs : list C) :
  c128 h ph = Known zs ->
  valid_session h it ph vt vh ->
  (1 <= length (f64 h vt))%nat ->
  exists theta unwrapped : list R,
    Forall2 spec_angle_of zs theta /\
    spec_unwrapped theta unwrapped /\
    offset_of h it ph vt vh =
    ok (Some (spec_mean_ratio (f64 h it) unwrapped (f64 h vt) (f64 h vh))).
Proof.
  intros Hph Hvalid HV.
  exists (np_angle zs), (np_unwrap (np_angle zs)).
  split; [apply spec_angles_of_np_angle |].
  split; [apply np_unwrap_spec |].
  exact (offset_of_spec h it ph vt vh zs Hph Hvalid HV).
Qed.

(** ** What the array holds after the division *)

Lemma phase_after_division
    (h : heap) (it ph vt vh : loc) (zs : list C) (ax : Axes) (w : C) :
  c128 h ph = Known zs ->
  offset_of h it ph vt vh = ok (Some w) ->
  c128 (st_heap (snd (plot_phase_and_heading it ph vt vh true (mkState h ax))))
       ph =
  if Ceq_zero_dec w then Lost (length zs)
  else Known (map (fun z => Cdiv z w) zs).
Proof.
  intros Hph Hoff. rewrite final_phase_true, Hoff, Hph. reflexivity.
Qed.

Lemma plot_valid_returns
    (h : heap) (it ph vt vh : loc) (ax : Axes) (subtract_offset : bool) :
  valid_session h it ph vt vh ->
  let out :=
    plot_phase_and_heading it ph vt vh subtract_offset (mkState h ax) in
  fst out = ok PyNone /\
  size (c128 (st_heap (snd out)) ph) = length (f64 h it) /\
  last (lines (st_axes (snd out))) (heading_line h vt vh) =
    mkLine (f64 h it) (alift np_angle (c128 (st_heap (snd out)) ph))
           "EPG phase".
Proof.
  intros Hvalid.
  destruct (offset_of_valid h it ph vt vh Hvalid) as [offset Hoff].
  destruct Hvalid as (HT & _ & _ & HV).
  destruct subtract_offset; cbv zeta.
  - rewrite (plot_run_true it ph vt vh (mkState h ax) offset Hoff HT HV).
    cbn [fst snd st_heap st_axes lines heap_divided c128].
    rewrite Nat.eqb_refl, size_divide_by, last_app_two.
    repeat split; try assumption.
    unfold phase_line, heap_divided. cbn [c128 f64].
    rewrite Nat.eqb_refl. reflexivity.
  - rewrite (plot_run_false it ph vt vh (mkState h ax) HT HV).
    cbn [fst snd st_heap st_axes lines].
    rewrite last_app_two.
    repeat split; assumption.
Qed.

(** A quotient is the dividend only when the divisor is 1. *)
Lemma Cdiv_fixed (z w : C) :
  z <> Czero -> w <> Czero -> Cdiv z w = z -> w = (1, 0).
Proof.
  intros Hz Hw E.
  pose proof (norm_pos_of_nonzero z Hz) as Hm.
  pose proof (norm_pos_of_nonzero w Hw) as Hn.
  destruct z as [a b], w as [c d]. unfold Cdiv, Re, Im in *. cbn [fst snd] in *.
  set (n := c * c + d * d) in *.
  pose proof (f_equal fst E) as E1'. pose proof (f_equal snd E) as E2'.
  cbn [fst snd] in E1', E2'.
  assert (E1 : a * c + b * d = a * n).
  { replace (a * c + b * d) with ((a * c + b * d) / n * n) by (field; lra).
    now rewrite E1'. }
  assert (E2 : b * c - a * d = b * n).
  { replace (b * c - a * d) with ((b * c - a * d) / n * n) by (field; lra).
    now rewrite E2'. }
  assert (Hc : (a * a + b * b) * (c - n) = 0).
  { replace ((a * a + b * b) * (c - n))
      with (a * (a * c + b * d) + b * (b * c - a * d) - (a * a + b * b) * n)
      by ring.
    rewrite E1, E2. ring. }
  assert (Hd : (a * a + b * b) * d = 0).
  { replace ((a * a + b * b) * d)
      with (b * (a * c + b * d) - a * (b * c - a * d)) by ring.
    rewrite E1, E2. ring. }
  apply Rmult_integral in Hc. apply Rmult_integral in Hd.
  destruct Hc as [Hc | Hc]; [lra |]. destruct Hd as [Hd | Hd]; [lra |].
  subst d. unfold n in *.
  assert (Hcc : c * (c - 1) = 0) by lra.
  apply Rmult_integral in Hcc. destruct Hcc as [Hc0 | Hc1].
  - subst c. lra.
  - f_equal. lra.
Qed.

(** ** The correction and what it leaves in the array *)

(** C2.  With [subtract_offset] true, on a valid session with at least one
    behavioural sample, the correction is the one of the specification.
    Every phase sample has its angle in (-PI, PI]; the angles are
    unwrapped, by multiples of 2 PI, into a continuous trajectory that
    starts at the first angle; the trajectory is interpolated linearly (and
    clamped) onto the behavioural timestamps, re-wrapped, divided cell by
    cell by the unit heading and averaged into the offset; and the phase
    array is left divided by that offset, without a finite cell when the
    offset is zero. *)
Theorem offset_correction_steps
    (h : heap) (it ph vt vh : loc) (zs : list C) (ax : Axes) :
  c128 h ph = Known zs ->
  valid_session h it ph vt vh ->
  (1 <= length (f64 h vt))%nat ->
  let out := plot_phase_and_heading it ph vt vh true (mkState h ax) in
  exists theta unwrapped : list R,
    Forall2 spec_angle_of zs theta /\
    spec_unwrapped theta unwrapped /\
    let offset :=
      spec_mean_ratio (f64 h it) unwrapped (f64 h vt) (f64 h vh) in
    offset_of h it ph vt vh = ok (Some offset) /\
    fst out = ok PyNone /\
    (offset <> Czero ->
     c128 (st_heap (snd out)) ph = Known (map (fun z => Cdiv z offset) zs)) /\
    (offset = Czero -> c128 (st_heap (snd out)) ph = Lost (length zs)).
Proof.
  intros Hph Hvalid HV out.
  destruct (offset_of_steps h it ph vt vh zs Hph Hvalid HV)
    as (theta & unwrapped & Hangle & Hunwrap & Hoff).
  exists theta, unwrapped.
  split; [exact Hangle |]. split; [exact Hunwrap |].
  cbv zeta. split; [exact Hoff |].
  destruct (plot_valid_returns h it ph vt vh ax true Hvalid) as (Hret & _).
  split; [exact Hret |].
  unfold out. rewrite (phase_after_division h it ph vt vh zs ax _ Hph Hoff).
  split; intros Hw;
    destruct (Ceq_zero_dec
                (spec_mean_ratio (f64 h it) unwrapped (f64 h vt) (f64 h vh)));
    try contradiction; reflexivity.
Qed.

Lemma offset_correction_steps_witness :
  let out :=
    plot_phase_and_heading l_it l_ph l_vt l_vh true
      (mkState demo_session no_axes) in
  exists theta unwrapped : list R,
    Forall2 spec_angle_of [(1, 0); (0, 1)] theta /\
    spec_unwrapped theta unwrapped /\
    let offset := spec_mean_ratio [0; 1] unwrapped [0; 1] [0; 0] in
    offset_of demo_session l_it l_ph l_vt l_vh = ok (Some offset) /\
    fst out = ok PyNone /\
    (offset <> Czero ->
     c128 (st_heap (snd out)) l_ph =
     Known (map (fun z => Cdiv z offset) [(1, 0); (0, 1)])) /\
    (offset = Czero ->
     c128 (st_heap (snd out)) l_ph = Lost (length [(1, 0); (0, 1)])).
Proof.
  apply (offset_correction_steps demo_session l_it l_ph l_vt l_vh
           [(1, 0); (0, 1)] no_axes).
  - reflexivity.
  - unfold valid_session. simpl. repeat split; try lia; lra.
  - simpl. lia.
Defined.

(** C3, amended.  On every valid session the call returns None.  The
    phase array of the caller holds afterwards one cell for every imaging
    timestamp, and the last line drawn has the angle of each of these
    cells against the imaging timestamps.  Without the offset step the
    array is the one given; with it, on at least one behavioural sample
    and a non-zero offset, every cell is the phase sample divided by the
    offset, the mean ratio of the specification. *)
Theorem corrected_phase_left_in_heap
    (h : heap) (it ph vt vh : loc) (ax : Axes) (subtract_offset : bool) :
  valid_session h it ph vt vh ->
  let out :=
    plot_phase_and_heading it ph vt vh subtract_offset (mkState h ax) in
  fst out = ok PyNone /\
  size (c128 (st_heap (snd out)) ph) = length (f64 h it) /\
  (exists ys : array1 R,
     last (lines (st_axes (snd out))) (heading_line h vt vh) =
       mkLine (f64 h it) ys "EPG phase" /\
     size ys = length (f64 h it) /\
     forall zs' : list C,
       c128 (st_heap (snd out)) ph = Known zs' ->
       exists angles : list R,
         ys = Known angles /\ Forall2 spec_angle_of zs' angles) /\
  (subtract_offset = false -> c128 (st_heap (snd out)) ph = c128 h ph) /\
  (subtract_offset = true ->
   forall zs : list C,
     c128 h ph = Known zs -> (1 <= length (f64 h vt))%nat ->
     exists theta unwrapped : list R,
       Forall2 spec_angle_of zs theta /\
       spec_unwrapped theta unwrapped /\
       let offset :=
         spec_mean_ratio (f64 h it) unwrapped (f64 h vt) (f64 h vh) in
       (offset <> Czero ->
        c128 (st_heap (snd out)) ph =
        Known (map (fun z => Cdiv z offset) zs))).
Proof.
  intros Hvalid out.
  destruct (plot_valid_returns h it ph vt vh ax subtract_offset Hvalid)
    as (Hret & Hsize & Hline).
  fold out in Hret, Hsize, Hline.
  split; [exact Hret |]. split; [exact Hsize |]. split; [| split].
  - exists (alift np_angle (c128 (st_heap (snd out)) ph)).
    split; [exact Hline |]. split.
    + rewrite size_alift by (intros l; apply length_map). exact Hsize.
    + intros zs' Hzs'. rewrite Hzs'. exists (np_angle zs').
      split; [reflexivity | apply spec_angles_of_np_angle].
  - intros ->. unfold out. now rewrite plot_heap_false.
  - intros -> zs Hph HV.
    destruct (offset_of_steps h it ph vt vh zs Hph Hvalid HV)
      as (theta & unwrapped & Hangle & Hunwrap & Hoff).
    exists theta, unwrapped.
    split; [exact Hangle |]. split; [exact Hunwrap |].
    cbv zeta. intros Hw.
    unfold out. rewrite (phase_after_division h it ph vt vh zs ax _ Hph Hoff).
    destruct (Ceq_zero_dec
                (spec_mean_ratio (f64 h it) unwrapped (f64 h vt) (f64 h vh)));
      [contradiction | reflexivity].
Qed.

Lemma corrected_phase_left_in_heap_witness :
  let h := demo_session in
  let out :=
    plot_phase_and_heading l_it l_ph l_vt l_vh true (mkState h no_axes) in
  fst out = ok PyNone /\
  size (c128 (st_heap (snd out)) l_ph) = length (f64 h l_it) /\
  (exists ys : array1 R,
     last (lines (st_axes (snd out))) (heading_line h l_vt l_vh) =
       mkLine (f64 h l_it) ys "EPG phase" /\
     size ys = length (f64 h l_it) /\
     forall zs' : list C,
       c128 (st_heap (snd out)) l_ph = Known zs' ->
       exists angles : list R,
         ys = Known angles /\ Forall2 spec_angle_of zs' angles) /\
  (true = false -> c128 (st_heap (snd out)) l_ph = c128 h l_ph) /\
  (true = true ->
   forall zs : list C,
     c128 h l_ph = Known zs -> (1 <= length (f64 h l_vt))%nat ->
     exists theta unwrapped : list R,
       Forall2 spec_angle_of zs theta /\
       spec_unwrapped theta unwrapped /\
       let offset :=
         spec_mean_ratio (f64 h l_it) unwrapped (f64 h l_vt) (f64 h l_vh) in
       (offset <> Czero ->
        c128 (st_heap (snd out)) l_ph =
        Known (map (fun z => Cdiv z offset) zs))).
Proof.
  apply (corrected_phase_left_in_heap demo_session l_it l_ph l_vt l_vh
           no_axes true).
  unfold valid_session. simpl. repeat split; try lia; lra.
Defined.

(** C4.  With [subtract_offset] true, on a valid session with at least one
    behavioural sample, the phase array of the caller is overwritten: when
    the offset, the mean ratio of the specification, is not zero, every
    cell is the phase sample divided by it, which is another number than
    the sample unless the sample is zero or the offset is 1; when the
    offset is zero no finite cell is left.  Every other array of the heap
    is left as it was. *)
Theorem phase_mutated_in_place
    (h : heap) (it ph vt vh : loc) (zs : list C) (ax : Axes) :
  c128 h ph = Known zs ->
  valid_session h it ph vt vh ->
  (1 <= length (f64 h vt))%nat ->
  let out := plot_phase_and_heading it ph vt vh true (mkState h ax) in
  exists theta unwrapped : list R,
    Forall2 spec_angle_of zs theta /\
    spec_unwrapped theta unwrapped /\
    let offset :=
      spec_mean_ratio (f64 h it) unwrapped (f64 h vt) (f64 h vh) in
    (offset <> Czero ->
     c128 (st_heap (snd out)) ph = Known (map (fun z => Cdiv z offset) zs) /\
     (offset <> (1, 0) ->
      forall k : nat, (k < length zs)%nat ->
        nth k zs Czero <> Czero ->
        nth k (map (fun z => Cdiv z offset) zs) Czero <> nth k zs Czero)) /\
    (offset = Czero -> c128 (st_heap (snd out)) ph = Lost (length zs)) /\
    (forall l, l <> ph -> c128 (st_heap (snd out)) l = c128 h l) /\
    (forall l, f64 (st_heap (snd out)) l = f64 h l).
Proof.
  intros Hph Hvalid HV out.
  destruct (offset_of_steps h it ph vt vh zs Hph Hvalid HV)
    as (theta & unwrapped & Hangle & Hunwrap & Hoff).
  exists theta, unwrapped.
  split; [exact Hangle |]. split; [exact Hunwrap |].
  cbv zeta.
  set (offset := spec_mean_ratio (f64 h it) unwrapped (f64 h vt) (f64 h vh))
    in *.
  pose proof (phase_after_division h it ph vt vh zs ax offset Hph Hoff)
    as Hafter.
  fold out in Hafter.
  split; [| split; [| split]].
  - intros Hw. split.
    + rewrite Hafter. destruct (Ceq_zero_dec offset);
        [contradiction | reflexivity].
    + intros Hone k Hk Hz E.
      rewrite (nth_indep _ Czero (Cdiv Czero offset)) in E
        by (rewrite length_map; exact Hk).
      rewrite (map_nth (fun z => Cdiv z offset)) in E.
      apply Hone. now apply (Cdiv_fixed (nth k zs Czero)).
  - intros Hw. rewrite Hafter. destruct (Ceq_zero_dec offset);
      [reflexivity | contradiction].
  - intros l Hl. unfold out.
    rewrite (plot_heap_true it ph vt vh (mkState h ax) (Some offset) Hoff).
    cbn [st_heap heap_divided c128].
    apply Nat.eqb_neq in Hl. now rewrite Hl.
  - intros l. unfold out.
    now rewrite (plot_heap_true it ph vt vh (mkState h ax) (Some offset) Hoff).
Qed.

Lemma phase_mutated_in_place_witness :
  let h := single_sample_session (1, 0) in
  let out :=
    plot_phase_and_heading l_it l_ph l_vt l_vh true (mkState h no_axes) in
  exists theta unwrapped : list R,
    Forall2 spec_angle_of [(1, 0)] theta /\
    spec_unwrapped theta unwrapped /\
    let offset := spec_mean_ratio [0] unwrapped [0] [PI / 2] in
    (offset <> Czero ->
     c128 (st_heap (snd out)) l_ph =
       Known (map (fun z => Cdiv z offset) [(1, 0)]) /\
     (offset <> (1, 0) ->
      forall k : nat, (k < length [(1, 0)])%nat ->
        nth k [(1, 0)] Czero <> Czero ->
        nth k (map (fun z => Cdiv z offset) [(1, 0)]) Czero
        <> nth k [(1, 0)] Czero)) /\
    (offset = Czero -> c128 (st_heap (snd out)) l_ph = Lost (length [(1, 0)])) /\
    (forall l, l <> l_ph -> c128 (st_heap (snd out)) l = c128 h l) /\
    (forall l, f64 (st_heap (snd out)) l = f64 h l).
Proof.
  apply (phase_mutated_in_place (single_sample_session (1, 0))
           l_it l_ph l_vt l_vh [(1, 0)] no_axes).
  - reflexivity.
  - unfold valid_session. simpl. repeat split; lia.
  - simpl. lia.
Defined.
